(** * IR generation of the Lua++ compiler (compiler/src/ir.c)

    A shallow embedding of the register allocator, the constant pool, the
    tree lowering [ir_build_proto] and the prototype collector, followed by
    the properties established about them. *)

From Stdlib Require Import ZArith List Bool Lia.
From Stdlib Require Import Floats.SpecFloat.
From Stdlib Require Import FMapPositive.
Import ListNotations.
Local Open Scope Z_scope.

(* ================================================================== *)
(** ** Machine integers and doubles *)

Definition UCHAR_MAX : Z := 255.
Definition SHRT_MAX : Z := 32767.
Definition SHRT_MIN : Z := -32768.
Definition UINT16_MAX : Z := 65535.
Definition UINT_MAX : Z := 4294967295.

(** Conversion of an [int] to [unsigned char], [unsigned short] and
    [unsigned int]: reduction modulo 2^8, 2^16 and 2^32. *)
Definition to_uchar (z : Z) : Z := z mod 256.
Definition to_ushort (z : Z) : Z := z mod 65536.
Definition to_uint (z : Z) : Z := z mod 4294967296.

(** A C [double] is an IEEE 754 binary64 value: 53 bits of precision,
    infinities at exponent 1024. *)
Definition double : Type := spec_float.
Definition dprec : Z := 53.
Definition demax : Z := 1024.

(** Conversion of an integer constant to [double] (round to nearest even;
    exact below 2^53). *)
Definition double_of_int (z : Z) : double := binary_normalize dprec demax z 0 false.

(** [a <= b] and [a == b] on doubles: false as soon as one side is a NaN,
    and the two zeros compare equal. *)
Definition double_le (a b : double) : bool := SFleb a b.
Definition double_eq (a b : double) : bool := SFeqb a b.

(** [floor] of math.h: the largest integral value not above [x]; zeros,
    infinities and NaN are returned as they are. *)
Definition floor (x : double) : double :=
  match x with
  | S754_finite s m e =>
      if 0 <=? e then x
      else binary_normalize dprec demax (cond_Zopp s (Zpos m) / 2 ^ (- e)) 0 s
  | _ => x
  end.

(** Conversion of a [double] to [short] when it is passed for a [short]
    parameter: the fractional part is discarded.  The only caller guards
    the value to be integral and within [SHRT_MIN .. SHRT_MAX]. *)
Definition double_to_short (x : double) : Z :=
  match x with
  | S754_finite s m e =>
      if 0 <=? e then cond_Zopp s (Zpos m * 2 ^ e)
      else cond_Zopp s (Zpos m / 2 ^ (- e))
  | _ => 0
  end.

(* ================================================================== *)
(** ** Instructions and code sections *)

(** Modelled from the spec: the opcode enumeration of ir.h is absent from
    the sources; these are the opcodes ir.c names.  [IR_ARGPREP + 1] is
    taken to be [IR_VARARGPREP], the variant the vararg flag selects. *)
Inductive ir_opcode : Type :=
| IR_ARGPREP | IR_VARARGPREP | IR_CALL | IR_LOADK | IR_LOADKX
| IR_LOADI | IR_GETGLOBAL | IR_RETURN | IR_CLOSURE.

(** Modelled from the spec: [struct ir_instruction] is declared in ir.h,
    which is absent from the sources.  An instruction is its operand layout
    ([mode]: three registers, register and unsigned 16-bit immediate,
    register and signed 16-bit immediate, raw 32-bit word) with the fields
    that layout makes meaningful, each kept as the value the constructor of
    ir.c receives for it.  [indeterminate] stands for what a local
    [struct ir_instruction *] holds when it was never assigned. *)
Inductive ir_instruction : Type :=
| iABC (op : ir_opcode) (A B C : Z)
| iABx (op : ir_opcode) (A Bx : Z)
| iAsBx (op : ir_opcode) (A sBx : Z)
| SUB (value : Z)
| indeterminate.

Definition ir_instruction_ABC (op : ir_opcode) (A B C : Z) : ir_instruction :=
  iABC op A B C.

(** [Bx] is an [unsigned short] parameter. *)
Definition ir_instruction_ABx (op : ir_opcode) (A Bx : Z) : ir_instruction :=
  iABx op A (to_ushort Bx).

Definition ir_instruction_AsBx (op : ir_opcode) (A sBx : Z) : ir_instruction :=
  iAsBx op A sBx.

(** [value] is an [unsigned int] parameter. *)
Definition ir_instruction_sub (value : Z) : ir_instruction :=
  SUB (to_uint value).

(** A code section: the instructions reachable from [first] by [next], and
    the [size] counter. *)
Record ir_section : Type := {
  instructions : list ir_instruction;
  section_size : Z
}.

(** [ir_section(first, last)] with [first == last]. *)
Definition ir_section_new (instruction : ir_instruction) : ir_section :=
  {| instructions := [instruction]; section_size := 1 |}.

(** [ir_append(section, instruction)]; [None] is the NULL section. *)
Definition ir_append (section : option ir_section) (instruction : ir_instruction)
  : ir_section :=
  match section with
  | None => ir_section_new instruction
  | Some s =>
      match instructions s with
      | [] => {| instructions := [instruction];
                 section_size := section_size s + 1 |}
      | _ => {| instructions := instructions s ++ [instruction];
                section_size := section_size s + 1 |}
      end
  end.

(* ================================================================== *)
(** ** Constants, prototypes and the context *)

(** Modelled from the spec: symbol.h is absent from the sources; a symbol
    of the (external) symbol table is read for its integer [id] only. *)
Record symbol : Type := { sym_id : Z }.

Inductive ir_constant : Type :=
| CONSTANT_STRING (symbol_id : Z)
| CONSTANT_NUMBER (value : double).

(** Modelled from the spec: the constants and their list are declared in
    ir.h, which is absent from the sources.  A constant list is kept as
    the constants reachable from [first] along [next], and its [size]
    field. *)
Record ir_constant_list : Type := {
  constants : list ir_constant;
  size : Z
}.

(** Modelled from the spec: [struct ir_proto] is declared in ir.h, which is
    absent from the sources.  [top_register] and [max_stack_size] are
    [unsigned char] fields: registers are addressed by an 8-bit field, and
    [ir_allocate_register] holds [top_register] in an [unsigned char] and
    tests it against [UCHAR_MAX].  [protos] is the child list ([protos->first]
    followed by [next]) and [protos_size] its [size] field.  The Builder
    never goes back to a child once it is registered, so the children are
    kept by value here; the collector, which relinks prototypes through
    their own [next] fields, has a store of its own below. *)
#[local] Unset Elimination Schemes.
Inductive ir_proto : Type := Build_ir_proto {
  is_vararg : bool;
  parameters_size : Z;
  max_stack_size : Z;
  top_register : Z;
  code : option ir_section;
  constant_list : ir_constant_list;
  protos : list ir_proto;
  protos_size : Z
}.
#[local] Set Elimination Schemes.

(** Modelled from the spec: [struct ir_context] is declared in ir.h, which
    is absent from the sources; the Builder touches its error counter only,
    kept here as an integer without bound. *)
Record ir_context : Type := { error_count : Z }.

Definition set_top_register (p : ir_proto) (v : Z) : ir_proto :=
  Build_ir_proto (is_vararg p) (parameters_size p) (max_stack_size p) v
                 (code p) (constant_list p) (protos p) (protos_size p).

Definition set_max_stack_size (p : ir_proto) (v : Z) : ir_proto :=
  Build_ir_proto (is_vararg p) (parameters_size p) v (top_register p)
                 (code p) (constant_list p) (protos p) (protos_size p).

Definition set_code (p : ir_proto) (v : option ir_section) : ir_proto :=
  Build_ir_proto (is_vararg p) (parameters_size p) (max_stack_size p)
                 (top_register p) v (constant_list p) (protos p) (protos_size p).

Definition set_constant_list (p : ir_proto) (v : ir_constant_list) : ir_proto :=
  Build_ir_proto (is_vararg p) (parameters_size p) (max_stack_size p)
                 (top_register p) (code p) v (protos p) (protos_size p).

Definition set_protos (p : ir_proto) (v : list ir_proto) : ir_proto :=
  Build_ir_proto (is_vararg p) (parameters_size p) (max_stack_size p)
                 (top_register p) (code p) (constant_list p) v (protos_size p).

Definition count_error (context : ir_context) : ir_context :=
  {| error_count := error_count context + 1 |}.

(* ================================================================== *)
(** ** Register allocator *)

(** [ir_allocate_register]: the first register available, the context and
    the prototype after the call.  [top_register] and [max_stack_size] are
    [unsigned char] fields and [count] an [unsigned char] parameter; the
    test is made on the promoted [int] values.  [count] is the value of
    the parameter, within 0..255: a caller that has an [int] converts it
    first, as the Builder does with [to_uchar (size + 1)] where it frees
    the registers of a call. *)
Definition ir_allocate_register (context : ir_context) (proto : ir_proto) (count : Z)
  : Z * ir_context * ir_proto :=
  let top := top_register proto in
  let context :=
    if top_register proto + count >? UCHAR_MAX then count_error context
    else context in
  let proto := set_top_register proto (to_uchar (top_register proto + count)) in
  let proto :=
    if top_register proto >? max_stack_size proto
    then set_max_stack_size proto (top_register proto)
    else proto in
  (top, context, proto).

(** [ir_free_register]; [count] is the value of the [unsigned char]
    parameter, as above. *)
Definition ir_free_register (context : ir_context) (proto : ir_proto) (count : Z)
  : ir_context * ir_proto :=
  let context :=
    if top_register proto - count <? 0 then count_error context else context in
  let proto := set_top_register proto (to_uchar (top_register proto - count)) in
  (context, proto).

(* ================================================================== *)
(** ** Constant pool *)

(** The loop of [ir_find_string_constant]: [index] counts the entries
    passed; [-1] when the list is exhausted. *)
Fixpoint find_string_from (iter : list ir_constant) (symbol_id index : Z) : Z :=
  match iter with
  | [] => -1
  | CONSTANT_STRING sid :: rest =>
      if sid =? symbol_id then index
      else find_string_from rest symbol_id (index + 1)
  | CONSTANT_NUMBER _ :: rest => find_string_from rest symbol_id (index + 1)
  end.

(** The [int] result is returned as [unsigned int]. *)
Definition ir_find_string_constant (list : ir_constant_list) (symbol : symbol) : Z :=
  to_uint (find_string_from (constants list) (sym_id symbol) 0).

Fixpoint find_number_from (iter : list ir_constant) (number : double) (index : Z) : Z :=
  match iter with
  | [] => -1
  | CONSTANT_NUMBER v :: rest =>
      if double_eq v number then index
      else find_number_from rest number (index + 1)
  | CONSTANT_STRING _ :: rest => find_number_from rest number (index + 1)
  end.

Definition ir_find_number_constant (list : ir_constant_list) (number : double) : Z :=
  to_uint (find_number_from (constants list) number 0).

(** [ir_constant_list_add] on a list that is not NULL: the constant becomes
    the only one of an empty list, the last one otherwise.  [size] is not
    touched. *)
Definition ir_constant_list_add (list : ir_constant_list) (constant : ir_constant)
  : ir_constant_list :=
  match constants list with
  | [] => {| constants := [constant]; size := size list |}
  | _ => {| constants := constants list ++ [constant]; size := size list |}
  end.

(** [return proto->constant_list->size++]: the value before the increment. *)
Definition post_increment_size (proto : ir_proto) : Z * ir_proto :=
  let list := constant_list proto in
  (to_uint (size list),
   set_constant_list proto {| constants := constants list; size := size list + 1 |}).

(** [ir_constant_string]: the index in the constant list, and the prototype
    afterwards. *)
Definition ir_constant_string (proto : ir_proto) (symbol : symbol) : Z * ir_proto :=
  let index := ir_find_string_constant (constant_list proto) symbol in
  if index =? to_uint (-1) then
    let c := CONSTANT_STRING (sym_id symbol) in
    let proto := set_constant_list proto (ir_constant_list_add (constant_list proto) c) in
    post_increment_size proto
  else (index, proto).

(** [ir_constant_number]. *)
Definition ir_constant_number (proto : ir_proto) (value : double) : Z * ir_proto :=
  let index := ir_find_number_constant (constant_list proto) value in
  if index =? to_uint (-1) then
    let c := CONSTANT_NUMBER value in
    let proto := set_constant_list proto (ir_constant_list_add (constant_list proto) c) in
    post_increment_size proto
  else (index, proto).

(* ================================================================== *)
(** ** Prototypes *)

(** Modelled from the spec: [smalloc] is not among the sources; the storage
    it returns is taken to be zero-filled, so that a fresh constant list has
    size 0 (a new entry's index equals the pool's prior size) and a fresh
    prototype has no code section yet, which is what the first [ir_append]
    of [ir_build] relies on.  [ir_proto_list(NULL, NULL)] sets the size of
    the child list to 1.  [ir_proto()] has no [return] statement; it is
    taken to hand back [p], the reading without which the Builder has no
    prototype to work on. *)
Definition ir_proto_new : ir_proto :=
  {| is_vararg := false;
     parameters_size := 0;
     max_stack_size := 0;
     top_register := 0;
     code := None;
     constant_list := {| constants := []; size := 0 |};
     protos := [];
     protos_size := 1 |}.

(** [ir_proto_append(proto->protos, p)]: [p] becomes the last child; the
    size of the child list is left as it is. *)
Definition ir_proto_append (proto p : ir_proto) : ir_proto :=
  match protos proto with
  | [] => set_protos proto [p]
  | _ => set_protos proto (protos proto ++ [p])
  end.

(** The statement [ir_append(proto->code, instruction);] of the Builder:
    the section returned is dropped, so a prototype without a code section
    stays without one. *)
Definition append_code (proto : ir_proto) (instruction : ir_instruction) : ir_proto :=
  match code proto with
  | None => proto
  | Some _ => set_code proto (Some (ir_append (code proto) instruction))
  end.

(* ================================================================== *)
(** ** Syntax tree *)

Record name_list : Type := { name_list_size : Z }.

(** [vararg] records whether the [vararg] pointer is not NULL. *)
Record parameter_list : Type := {
  namelist : option name_list;
  vararg : bool
}.

(** Modelled from the spec: [struct node] is declared in node.h, which is
    absent from the sources.  These are the node kinds [ir_build_proto]
    reads, each with the fields it reads of it; a pointer that may be NULL
    is an [option].  [NODE_OTHER] is any kind that has no case in the
    switch. *)
#[local] Unset Elimination Schemes.
Inductive node : Type :=
| NODE_EXPRESSION_STATEMENT (expression : option node)
| NODE_CALL (prefix_expression args : option node)
| NODE_STRING (s : symbol)
| NODE_NAME_REFERENCE (identifier : option node)
| NODE_NUMBER (value : double)
| NODE_IDENTIFIER (s : symbol) (is_global : bool)
| NODE_BLOCK (init statement : option node)
| NODE_FUNCTION_BODY (exprlist : option parameter_list) (body : option node)
| NODE_EXPRESSION_LIST (init expression : option node) (list_size : Z)
| NODE_OTHER.
#[local] Set Elimination Schemes.

(* ================================================================== *)
(** ** Builder *)

(** A build step yields the context and the prototype after it, or [None]
    when it dereferences a NULL pointer. *)
Definition built : Type := option (ir_context * ir_proto).

Definition and_then (r : built) (k : ir_context -> ir_proto -> built) : built :=
  match r with
  | Some (context, proto) => k context proto
  | None => None
  end.

Notation "'do' r 'as' c , p 'in' k" := (and_then r (fun c p => k))
  (at level 10, r at level 100, c name, p name, k at level 200).

(** Allocate one register and append the instruction made from it. *)
Definition emit_with_register (context : ir_context) (proto : ir_proto)
  (make : Z -> ir_instruction) : ir_context * ir_proto :=
  let '(r, context, proto) := ir_allocate_register context proto 1 in
  (context, append_code proto (make r)).

(** The test of the first tier of a number literal. *)
Definition fits_sBx (value : double) : bool :=
  double_le value (double_of_int SHRT_MAX)
  && double_le (double_of_int SHRT_MIN) value
  && double_eq (floor value) value.

(** The size of the argument list of a call. *)
Definition args_size (args : option node) : Z :=
  match args with
  | None => 0
  | Some (NODE_EXPRESSION_LIST _ _ n) => n
  | Some _ => 1
  end.

(** [ir_build_proto(context, proto, node)] for a [node] that is not NULL
    (for NULL it returns at once, see [lower]). *)
Fixpoint ir_build_proto (context : ir_context) (proto : ir_proto) (n : node)
  {struct n} : built :=
  match n with
  | NODE_EXPRESSION_STATEMENT expression =>
      match expression with
      | None => Some (context, proto)
      | Some e => ir_build_proto context proto e
      end
  | NODE_CALL function args =>
      let size := args_size args in
      let old := top_register proto in
      do (match function with
          | None => Some (context, proto)
          | Some f => ir_build_proto context proto f
          end) as context, proto in
      do (match args with
          | None => Some (context, proto)
          | Some a => ir_build_proto context proto a
          end) as context, proto in
      let instruction := ir_instruction_ABC IR_CALL old (size + 1) 1 in
      let '(context, proto) := ir_free_register context proto (to_uchar (size + 1)) in
      Some (context, append_code proto instruction)
  | NODE_STRING s =>
      let '(index, proto) := ir_constant_string proto s in
      Some (emit_with_register context proto
              (fun r => ir_instruction_ABx IR_LOADK r index))
  | NODE_NAME_REFERENCE identifier =>
      match identifier with
      | None => Some (context, proto)
      | Some i => ir_build_proto context proto i
      end
  | NODE_NUMBER value =>
      if fits_sBx value then
        Some (emit_with_register context proto
                (fun r => ir_instruction_AsBx IR_LOADI r (double_to_short value)))
      else
        let '(index, proto) := ir_constant_number proto value in
        if index <=? UINT16_MAX then
          Some (emit_with_register context proto
                  (fun r => ir_instruction_ABx IR_LOADK r index))
        else
          let '(context, proto) :=
            emit_with_register context proto
              (fun r => ir_instruction_ABx IR_LOADKX r 0) in
          Some (context, append_code proto (ir_instruction_sub index))
  | NODE_IDENTIFIER s is_global =>
      if is_global then
        let '(index, proto) := ir_constant_string proto s in
        Some (emit_with_register context proto
                (fun r => ir_instruction_ABx IR_GETGLOBAL r index))
      else
        (* [instruction] was never assigned *)
        Some (context, append_code proto indeterminate)
  | NODE_BLOCK init statement =>
      do (match init with
          | None => Some (context, proto)
          | Some i => ir_build_proto context proto i
          end) as context, proto in
      match statement with
      | None => Some (context, proto)
      | Some st => ir_build_proto context proto st
      end
  | NODE_FUNCTION_BODY exprlist body =>
      match exprlist with
      | None => None
      | Some params =>
          match namelist params with
          | None => None   (* [namelist->data.name_list.size] is read before the test *)
          | Some names =>
              let p := ir_proto_new in
              let p := Build_ir_proto (vararg params) (name_list_size names)
                         (max_stack_size p) (top_register p) (code p)
                         (constant_list p) (protos p) (protos_size p) in
              let arg_instr :=
                ir_instruction_ABC (if vararg params then IR_VARARGPREP else IR_ARGPREP)
                                   (name_list_size names) 0 0 in
              let section := ir_section_new arg_instr in   (* never attached to [p] *)
              do (match body with
                  | None => Some (context, proto)
                  | Some b => ir_build_proto context proto b
                  end) as context, proto in
              let return_instr := ir_instruction_ABC IR_RETURN 0 1 0 in
              let proto := append_code proto return_instr in
              let proto := ir_proto_append proto p in
              Some (emit_with_register context proto
                      (fun r => ir_instruction_ABx IR_CLOSURE r (protos_size proto - 1)))
          end
      end
  | NODE_EXPRESSION_LIST init expression _ =>
      do (match init with
          | None => Some (context, proto)
          | Some i => ir_build_proto context proto i
          end) as context, proto in
      match expression with
      | None => Some (context, proto)
      | Some e => ir_build_proto context proto e
      end
  | NODE_OTHER => Some (context, proto)
  end.

(** [ir_build]: the main prototype of a chunk whose root is a function
    body. *)
Definition ir_build (context : ir_context) (n : node) : built :=
  match n with
  | NODE_FUNCTION_BODY _ body =>
      let proto := ir_proto_new in
      let proto := Build_ir_proto true (parameters_size proto) (max_stack_size proto)
                     (top_register proto) (code proto) (constant_list proto)
                     (protos proto) (protos_size proto) in
      let instruction := ir_instruction_ABC IR_VARARGPREP 0 0 0 in
      let proto := set_code proto (Some (ir_append (code proto) instruction)) in
      do (match body with
          | None => Some (context, proto)
          | Some b => ir_build_proto context proto b
          end) as context, proto in
      let instruction := ir_instruction_ABC IR_RETURN 0 1 0 in
      Some (context, set_code proto (Some (ir_append (code proto) instruction)))
  | _ => None
  end.

(* ================================================================== *)
(** ** Prototype collector *)

(** [ir_collect_protos] links prototypes into its result through the same
    [next] and [prev] fields that chain them in their parent's child list,
    so here prototypes live in a store and are named by their address. *)
Module Collector.

(** A [struct ir_proto *]: NULL or an address. *)
Definition ptr : Type := option positive.

Record ir_proto_list : Type := {
  first : ptr;
  last : ptr;
  size : Z
}.

(** What the collector reads and writes of a prototype: its child list,
    [next] and [prev]. *)
Record ir_proto : Type := {
  protos : ir_proto_list;
  next : ptr;
  prev : ptr
}.

Definition store : Type := PositiveMap.t ir_proto.

Definition set_next (h : store) (a : positive) (v : ptr) : option store :=
  match PositiveMap.find a h with
  | Some c => Some (PositiveMap.add a {| protos := protos c; next := v; prev := prev c |} h)
  | None => None
  end.

Definition set_prev (h : store) (a : positive) (v : ptr) : option store :=
  match PositiveMap.find a h with
  | Some c => Some (PositiveMap.add a {| protos := protos c; next := next c; prev := v |} h)
  | None => None
  end.

Definition set_protos (h : store) (a : positive) (v : ir_proto_list) : option store :=
  match PositiveMap.find a h with
  | Some c => Some (PositiveMap.add a {| protos := v; next := next c; prev := prev c |} h)
  | None => None
  end.

(** [p->next] for a pointer [p]; [None] when [p] is NULL or dangling. *)
Definition get_next (h : store) (p : ptr) : option ptr :=
  match p with
  | Some a => option_map next (PositiveMap.find a h)
  | None => None
  end.

Definition bind {A B : Type} (x : option A) (k : A -> option B) : option B :=
  match x with
  | Some a => k a
  | None => None
  end.

(** [ir_proto_list(first, last)]. *)
Definition ir_proto_list_new (first last : ptr) : ir_proto_list :=
  {| first := first; last := last; size := 1 |}.

(** [ir_proto_append(list, proto)]: the store it leaves, and the list as
    the function holds it when it reaches its closing brace.  The function
    has no [return] statement; what a caller gets is told by
    [ir_proto_append_call] below.  [None] as a list is the NULL list; the
    result is [None] when a NULL pointer is dereferenced. *)
Definition ir_proto_append (h : store) (list : option ir_proto_list) (proto : positive)
  : option (store * ir_proto_list) :=
  match list with
  | None => Some (h, ir_proto_list_new (Some proto) (Some proto))
  | Some l =>
      match first l, last l with
      | None, None =>
          bind (set_prev h proto None) (fun h =>
          bind (set_next h proto None) (fun h =>
          Some (h, {| first := Some proto; last := Some proto; size := size l |})))
      | _, None => None
      | _, Some tail =>
          bind (get_next h (Some tail)) (fun after =>
          bind (set_next h proto after) (fun h =>
          bind (match after with
                | Some b => set_prev h b (Some proto)
                | None => Some h
                end) (fun h =>
          bind (set_next h tail (Some proto)) (fun h =>
          bind (set_prev h proto (Some tail)) (fun h =>
          Some (h, {| first := first l; last := Some proto; size := size l |}))))))
      end
  end.

(** [ir_proto_join(first, second)]. *)
Definition ir_proto_join (h : store) (first_list : option ir_proto_list)
  (second : ir_proto_list) : option (store * ir_proto_list) :=
  match first_list with
  | None => Some (h, second)
  | Some l =>
      match last l, first second with
      | Some tail, Some head =>
          bind (set_next h tail (Some head)) (fun h =>
          bind (set_prev h head (Some tail)) (fun h =>
          Some (h, {| first := first l; last := last second;
                      size := size l + size second |})))
      | _, _ => None
      end
  end.

(** The loop of [ir_collect_protos]: [iter] runs over the children from
    [main->protos->first] along [next], which is read again after each
    round; [collect] is the recursive call. *)
Fixpoint collect_children
  (collect : store -> positive -> option (store * ir_proto_list))
  (rounds : nat) (h : store) (list : option ir_proto_list) (iter : ptr)
  : option (store * option ir_proto_list) :=
  match iter with
  | None => Some (h, list)
  | Some child =>
      match rounds with
      | O => None
      | S rounds' =>
          bind (collect h child) (fun '(h, collected) =>
          bind (ir_proto_join h list collected) (fun '(h, joined) =>
          bind (get_next h iter) (fun following =>
          collect_children collect rounds' h (Some joined) following)))
      end
  end.

(** [ir_collect_protos(main)]: the store it leaves, and the list it holds
    at its end, read with every call taken to hand back the list it holds;
    what the calls do hand back is told by [ir_collect_protos_call] below.
    [fuel] bounds the depth of the recursion and the number of rounds of
    each loop; the result is [None] when it runs out or when a NULL pointer
    is dereferenced. *)
Fixpoint ir_collect_protos (fuel : nat) (h : store) (main : positive)
  : option (store * ir_proto_list) :=
  match fuel with
  | O => None
  | S fuel' =>
      bind (PositiveMap.find main h) (fun m =>
      bind (collect_children (ir_collect_protos fuel') fuel' h None (first (protos m)))
           (fun '(h, list) =>
      match list with
      | None => Some (h, ir_proto_list_new (Some main) (Some main))
      | Some _ => ir_proto_append h list main
      end))
  end.

(** The prototypes a consumer meets when it walks a list from [first]
    along [next] until NULL. *)
Fixpoint walk (fuel : nat) (h : store) (iter : ptr) : option (list positive) :=
  match iter with
  | None => Some []
  | Some a =>
      match fuel with
      | O => None
      | S fuel' =>
          bind (get_next h iter) (fun following =>
          option_map (cons a) (walk fuel' h following))
      end
  end.

(** The sequence of prototypes in the list [ir_collect_protos] holds at
    its end. *)
Definition collected (fuel : nat) (h : store) (main : positive) : option (list positive) :=
  bind (ir_collect_protos fuel h main) (fun '(h, l) => walk fuel h (first l)).

(** *** What a call hands back *)

(** What a function hands back to its caller: the value of the [return]
    statement it ends in, or nothing when it reaches its closing brace
    without one; the caller that uses the value then reads an
    indeterminate one. *)
Inductive handed_back (A : Type) : Type :=
| returned (value : A)
| fell_off_the_end.

Arguments returned {A} value.
Arguments fell_off_the_end {A}.

(** The value of a call where the caller uses it: there is none to use
    when the callee fell off its end. *)
Definition value_of {A : Type} (r : option (store * handed_back A)) : option (store * A) :=
  match r with
  | Some (h, returned a) => Some (h, a)
  | Some (_, fell_off_the_end) => None
  | None => None
  end.

(** [ir_proto_append(list, proto)] as a call: the store is relinked as
    above, and none of the three paths of the function ends in a
    [return]. *)
Definition ir_proto_append_call (h : store) (list : option ir_proto_list) (proto : positive)
  : option (store * handed_back ir_proto_list) :=
  match ir_proto_append h list proto with
  | Some (h, _) => Some (h, fell_off_the_end)
  | None => None
  end.

(** [ir_collect_protos(main)] as a call.  [return ir_proto_list(main, main)]
    hands back a list; [return ir_proto_append(list, main)] hands back what
    [ir_proto_append] does; and in the loop the value of the recursive call
    is used as the second argument of [ir_proto_join].  The result is
    [None] when the fuel runs out, when a NULL pointer is dereferenced, or
    when a value is used that no [return] handed back. *)
Fixpoint ir_collect_protos_call (fuel : nat) (h : store) (main : positive)
  : option (store * handed_back ir_proto_list) :=
  match fuel with
  | O => None
  | S fuel' =>
      bind (PositiveMap.find main h) (fun m =>
      bind (collect_children
              (fun h child => value_of (ir_collect_protos_call fuel' h child))
              fuel' h None (first (protos m)))
           (fun '(h, list) =>
      match list with
      | None => Some (h, returned (ir_proto_list_new (Some main) (Some main)))
      | Some _ => ir_proto_append_call h list main
      end))
  end.

(** *** Prototype trees and their layout in the store *)

(** A tree of prototypes, each with its address. *)
#[local] Unset Elimination Schemes.
Inductive tree : Type := Proto (address : positive) (children : list tree).

#[local] Set Elimination Schemes.

Definition address_of (t : tree) : positive :=
  match t with Proto a _ => a end.

(** A prototype as [ir_proto()] makes it: an empty child list, no links. *)
Definition fresh : ir_proto :=
  {| protos := ir_proto_list_new None None; next := None; prev := None |}.

(** [ir_proto_append(parent->protos, child)] on the store. *)
Definition register_child (h : store) (parent child : positive) : option store :=
  bind (PositiveMap.find parent h) (fun c =>
  bind (ir_proto_append h (Some (protos c)) child) (fun '(h, l) =>
  set_protos h parent l)).

(** Lay a tree out: every prototype is made fresh, its descendants are
    laid out, and its children are registered in declaration order. *)
Fixpoint lay_out (h : store) (t : tree) : option store :=
  match t with
  | Proto a children =>
      let h := PositiveMap.add a fresh h in
      let fix lay_children (h : store) (ts : list tree) : option store :=
        match ts with
        | [] => Some h
        | c :: rest =>
            bind (lay_out h c) (fun h =>
            bind (register_child h a (address_of c)) (fun h =>
            lay_children h rest))
        end in
      lay_children h children
  end.

(** Post-order: the descendants of each child and the child itself,
    siblings in declaration order, then the parent. *)
Fixpoint post_order (t : tree) : list positive :=
  match t with
  | Proto a children => flat_map post_order children ++ [a]
  end.

End Collector.

(* ================================================================== *)
(** ** Matched uses of the allocator *)

(** [allocate(count); ...inner uses...; free(count)]: a matched pair, with
    the pairs nested inside it.  A list of them is a sequence of pairs with
    no partial overlap. *)
#[local] Unset Elimination Schemes.
Inductive matched : Type := Matched (count : Z) (inner : list matched).
#[local] Set Elimination Schemes.

(** What is logged when a sequence runs: the prototype right after an
    allocation, and right after a free together with the prototype the
    matching allocation started from. *)
Inductive event : Type :=
| Allocated (after : ir_proto)
| Freed (start after : ir_proto).

Definition state_after (e : event) : ir_proto :=
  match e with
  | Allocated p => p
  | Freed _ p => p
  end.

Definition run : Type := (ir_context * ir_proto * list event)%type.

Fixpoint run_matched (m : matched) (context : ir_context) (proto : ir_proto) : run :=
  match m with
  | Matched count inner =>
      let start := proto in
      let '(_, context, proto) := ir_allocate_register context proto count in
      let allocated := proto in
      let fix run_all (ms : list matched) (context : ir_context) (proto : ir_proto) : run :=
        match ms with
        | [] => (context, proto, [])
        | m' :: rest =>
            let '(context, proto, log) := run_matched m' context proto in
            let '(context, proto, log') := run_all rest context proto in
            (context, proto, log ++ log')
        end in
      let '(context, proto, log) := run_all inner context proto in
      let '(context, proto) := ir_free_register context proto count in
      (context, proto, Allocated allocated :: log ++ [Freed start proto])
  end.

Fixpoint run_sequence (ms : list matched) (context : ir_context) (proto : ir_proto) : run :=
  match ms with
  | [] => (context, proto, [])
  | m :: rest =>
      let '(context, proto, log) := run_matched m context proto in
      let '(context, proto, log') := run_sequence rest context proto in
      (context, proto, log ++ log')
  end.

(** The values [top_register] took along a log. *)
Definition tops (log : list event) : list Z :=
  map (fun e => top_register (state_after e)) log.

(** The largest of [floor_value] and the values of a list. *)
Definition highest (values : list Z) (floor_value : Z) : Z :=
  fold_left Z.max values floor_value.

(** Each free of the log left [top_register] where its allocation found it. *)
Definition restores_top (e : event) : Prop :=
  match e with
  | Allocated _ => True
  | Freed start after => top_register after = top_register start
  end.

(** [max_stack_size] never goes down from one logged state to the next. *)
Fixpoint non_decreasing (previous : Z) (log : list event) : Prop :=
  match log with
  | [] => True
  | e :: rest =>
      previous <= max_stack_size (state_after e)
      /\ non_decreasing (max_stack_size (state_after e)) rest
  end.

(** [max_stack_size] goes from [previous] up to [final] without ever
    decreasing along the log. *)
Fixpoint rising (previous : Z) (log : list event) (final : Z) : Prop :=
  match log with
  | [] => previous <= final
  | e :: rest =>
      previous <= max_stack_size (state_after e)
      /\ rising (max_stack_size (state_after e)) rest final
  end.

(** What one run establishes, from a prototype whose [top_register] is in
    the range of its type. *)
Definition round_trip (proto : ir_proto) (r : run) : Prop :=
  let '(_, proto', log) := r in
  top_register proto' = top_register proto
  /\ Forall restores_top log
  /\ rising (max_stack_size proto) log (max_stack_size proto')
  /\ (top_register proto <= max_stack_size proto ->
      max_stack_size proto' = highest (tops log) (max_stack_size proto)
      /\ Forall (fun e => top_register (state_after e) <= max_stack_size (state_after e)) log).

(** Induction on matched pairs, with the property available for the pairs
    nested inside. *)
Section matched_induction.
Variable P : matched -> Prop.
Hypothesis step : forall count inner, Forall P inner -> P (Matched count inner).

Fixpoint matched_nested_ind (m : matched) : P m :=
  match m with
  | Matched count inner =>
      step count inner
        ((fix all (ms : list matched) : Forall P ms :=
            match ms with
            | [] => Forall_nil P
            | m' :: rest => Forall_cons m' (matched_nested_ind m') (all rest)
            end) inner)
  end.
End matched_induction.

(* ------------------------------------------------------------------ *)
(** ** The two searches as one *)

(** Both loops of the constant pool are the same scan with a different
    test. *)
Fixpoint find_from (test : ir_constant -> bool) (iter : list ir_constant) (index : Z) : Z :=
  match iter with
  | [] => -1
  | c :: rest => if test c then index else find_from test rest (index + 1)
  end.

Definition is_string (symbol_id : Z) (c : ir_constant) : bool :=
  match c with
  | CONSTANT_STRING sid => sid =? symbol_id
  | CONSTANT_NUMBER _ => false
  end.

Definition is_number (number : double) (c : ir_constant) : bool :=
  match c with
  | CONSTANT_NUMBER v => double_eq v number
  | CONSTANT_STRING _ => false
  end.

(** The [size] field of a constant list agrees with the number of its
    entries, and the entries are few enough for an index never to be taken
    for the [-1] of a failed search (as [unsigned int]). *)
Definition pool_in_step (list : ir_constant_list) : Prop :=
  size list = Z.of_nat (length (constants list))
  /\ Z.of_nat (length (constants list)) < UINT_MAX.

(** No entry of the pool passes the test. *)
Definition absent (test : ir_constant -> bool) (list : ir_constant_list) : Prop :=
  Forall (fun c => test c = false) (constants list).

Definition positive_zero : double := S754_zero false.
Definition negative_zero : double := S754_zero true.

(** Interning, with the test of the search and the constant to add left
    open: [ir_constant_string] and [ir_constant_number] are its two
    instances. *)
Definition intern (test : ir_constant -> bool) (c : ir_constant) (proto : ir_proto)
  : Z * ir_proto :=
  let index := to_uint (find_from test (constants (constant_list proto)) 0) in
  if index =? to_uint (-1) then
    post_increment_size
      (set_constant_list proto (ir_constant_list_add (constant_list proto) c))
  else (index, proto).

(** The prototype with [c] added at the end of its pool and the size
    counter moved on by one. *)
Definition with_new_constant (proto : ir_proto) (c : ir_constant) : ir_proto :=
  set_constant_list proto
    {| constants := constants (constant_list proto) ++ [c];
       size := size (constant_list proto) + 1 |}.

(* ------------------------------------------------------------------ *)
(** ** A call statement with one string argument *)

(** A reference to the global [name]: the identifier itself, or the
    identifier under a name-reference node. *)
Definition global_reference (name : symbol) (wrapped : bool) : node :=
  if wrapped then NODE_NAME_REFERENCE (Some (NODE_IDENTIFIER name true))
  else NODE_IDENTIFIER name true.

(** One string literal as the arguments of a call: the literal itself, or
    an expression list of size 1 that holds it. *)
Definition single_argument (literal : symbol) (listed : bool) : node :=
  if listed then NODE_EXPRESSION_LIST (Some (NODE_STRING literal)) None 1
  else NODE_STRING literal.

(** The statement [callee("argument")], as [print("hi")]. *)
Definition call_statement (callee argument : symbol) (wrapped listed : bool) : node :=
  NODE_EXPRESSION_STATEMENT
    (Some (NODE_CALL (Some (global_reference callee wrapped))
                     (Some (single_argument argument listed)))).

(* ------------------------------------------------------------------ *)
(** ** Starting points for examples *)

(** The main prototype as [ir_build] has it when it starts on the body of
    the chunk: vararg, with the vararg-preparation instruction as its
    code. *)
Definition main_prototype : ir_proto :=
  let proto := ir_proto_new in
  let proto := Build_ir_proto true (parameters_size proto) (max_stack_size proto)
                 (top_register proto) (code proto) (constant_list proto)
                 (protos proto) (protos_size proto) in
  set_code proto (Some (ir_append (code proto) (ir_instruction_ABC IR_VARARGPREP 0 0 0))).

Definition no_errors : ir_context := {| error_count := 0 |}.

(** A number literal that went through the pool: the pool is the one
    [ir_constant_number] leaves, and the code grew by a load-constant with
    the interned index when that fits 16 bits, by a load-constant-extended
    with a zero immediate and the raw word of the index right after it
    otherwise. *)
Definition lowered_through_pool
  (context : ir_context) (proto : ir_proto) (section : ir_section) (value : double)
  : Prop :=
  let '(index, interned) := ir_constant_number proto value in
  exists context' proto' section',
    ir_build_proto context proto (NODE_NUMBER value) = Some (context', proto')
    /\ code proto' = Some section'
    /\ constant_list proto' = constant_list interned
    /\ instructions section'
       = instructions section
         ++ (if index <=? 65535
             then [iABx IR_LOADK (top_register proto) index]
             else [iABx IR_LOADKX (top_register proto) 0; SUB index]).

(** String constants for [n] symbols in a row, from the symbol [from] on. *)
Fixpoint string_constants (n : nat) (from : Z) : list ir_constant :=
  match n with
  | O => []
  | S n' => CONSTANT_STRING from :: string_constants n' (from + 1)
  end.

(** The main prototype with a pool of 65536 string constants, for the
    symbols 0 to 65535. *)
Definition crowded_prototype : ir_proto :=
  set_constant_list main_prototype
    {| constants := string_constants (Z.to_nat 65536) 0; size := 65536 |}.

(** The double 0.5. *)
Definition one_half : double := S754_finite false 4503599627370496 (-53).

(** Lowering through a pointer that may be NULL. *)
Definition lower (context : ir_context) (proto : ir_proto) (n : option node) : built :=
  match n with
  | None => Some (context, proto)
  | Some n' => ir_build_proto context proto n'
  end.

(** [function() print("hi") end], with the symbols 1 and 2 for the two
    names: a function body with an empty name list, no vararg, and the call
    as its body. *)
Definition closure_of_call : node :=
  NODE_FUNCTION_BODY
    (Some {| namelist := Some {| name_list_size := 0 |}; vararg := false |})
    (Some (call_statement {| sym_id := 1 |} {| sym_id := 2 |} true false)).

(* ------------------------------------------------------------------ *)
(** ** Prototype trees for the collector *)

(** A main prototype (1) with two closures (2 and 3) side by side. *)
Definition two_closures : Collector.tree :=
  Collector.Proto 1 [Collector.Proto 2 []; Collector.Proto 3 []].

(** A main prototype (1) with two closures (2 and 3), the first of which
    has a closure of its own (4). *)
Definition closure_in_first : Collector.tree :=
  Collector.Proto 1 [Collector.Proto 2 [Collector.Proto 4 []]; Collector.Proto 3 []].

(** The same with the inner closure in the second one. *)
Definition closure_in_second : Collector.tree :=
  Collector.Proto 1 [Collector.Proto 2 []; Collector.Proto 3 [Collector.Proto 4 []]].

(** Lay a tree out in an empty store and collect from its root. *)
Definition collect_tree (fuel : nat) (t : Collector.tree) : option (list positive) :=
  Collector.bind (Collector.lay_out (PositiveMap.empty _) t)
    (fun h => Collector.collected fuel h (Collector.address_of t)).

(* ------------------------------------------------------------------ *)
(** ** Induction on syntax trees *)

(** Induction on nodes, with the property available for the nodes behind
    the pointers that are not NULL. *)
Section node_induction.
Variable P : node -> Prop.

Definition holds_behind (o : option node) : Prop :=
  match o with
  | None => True
  | Some n => P n
  end.

Hypothesis expression_statement :
  forall e, holds_behind e -> P (NODE_EXPRESSION_STATEMENT e).
Hypothesis call :
  forall f a, holds_behind f -> holds_behind a -> P (NODE_CALL f a).
Hypothesis string_literal : forall s, P (NODE_STRING s).
Hypothesis name_reference :
  forall i, holds_behind i -> P (NODE_NAME_REFERENCE i).
Hypothesis number : forall v, P (NODE_NUMBER v).
Hypothesis identifier : forall s g, P (NODE_IDENTIFIER s g).
Hypothesis block :
  forall i s, holds_behind i -> holds_behind s -> P (NODE_BLOCK i s).
Hypothesis function_body :
  forall params b, holds_behind b -> P (NODE_FUNCTION_BODY params b).
Hypothesis expression_list :
  forall i e n, holds_behind i -> holds_behind e -> P (NODE_EXPRESSION_LIST i e n).
Hypothesis other : P NODE_OTHER.

Fixpoint node_nested_ind (n : node) : P n :=
  let behind (o : option node) : holds_behind o :=
    match o with
    | None => I
    | Some n' => node_nested_ind n'
    end in
  match n with
  | NODE_EXPRESSION_STATEMENT e => expression_statement e (behind e)
  | NODE_CALL f a => call f a (behind f) (behind a)
  | NODE_STRING s => string_literal s
  | NODE_NAME_REFERENCE i => name_reference i (behind i)
  | NODE_NUMBER v => number v
  | NODE_IDENTIFIER s g => identifier s g
  | NODE_BLOCK i s => block i s (behind i) (behind s)
  | NODE_FUNCTION_BODY params b => function_body params b (behind b)
  | NODE_EXPRESSION_LIST i e k => expression_list i e k (behind i) (behind e)
  | NODE_OTHER => other
  end.
End node_induction.

(** From [proto] to [proto'] a code section that was there is still there,
    and the size field of the child list has not moved. *)
Definition keeps (proto proto' : ir_proto) : Prop :=
  (code proto <> None -> code proto' <> None)
  /\ protos_size proto' = protos_size proto.

(* ------------------------------------------------------------------ *)
(** ** Pools without duplicates *)

(** The symbols of the string constants of a list, in order. *)
Definition string_ids (l : list ir_constant) : list Z :=
  flat_map (fun c => match c with
                     | CONSTANT_STRING s => [s]
                     | CONSTANT_NUMBER _ => []
                     end) l.

(** The values of the number constants of a list, in order. *)
Definition number_values (l : list ir_constant) : list double :=
  flat_map (fun c => match c with
                     | CONSTANT_STRING _ => []
                     | CONSTANT_NUMBER v => [v]
                     end) l.

(** No symbol occurs twice among the string constants, and no number
    constant is [==] to a later one: no entry is one the search for a
    later entry would have stopped at. *)
Definition deduplicated (list : ir_constant_list) : Prop :=
  NoDup (string_ids (constants list))
  /\ ForallOrdPairs (fun earlier later => double_eq earlier later = false)
                    (number_values (constants list)).

(* ------------------------------------------------------------------ *)
(** ** What the Builder appends and registers *)

(** A make-closure instruction carries the size field of the child list of
    the prototype it is appended to, less one; other instructions are not
    constrained. *)
Definition emitted (proto : ir_proto) (i : ir_instruction) : Prop :=
  match i with
  | iABx IR_CLOSURE _ Bx => Bx = to_ushort (protos_size proto - 1)
  | _ => True
  end.

(** A prototype as the Builder registers it: without code section, without
    constants, without children, with the registers untouched. *)
Definition blank (child : ir_proto) : Prop :=
  code child = None
  /\ constants (constant_list child) = []
  /\ protos child = []
  /\ top_register child = 0
  /\ max_stack_size child = 0.

(** What lowering does to the context and the prototype, whatever the node:
    the error counter does not go down; the vararg flag, the parameter
    count and the size field of the child list stay; [max_stack_size] does
    not go down and [top_register] stays within 0..255; a prototype without
    code section stays without one, and a code section only receives
    instructions at its end, its size counter moving with them; the pool
    only receives constants at its end, its size counter moving with them,
    and stays without duplicates as long as it holds fewer than [UINT_MAX]
    entries; the child list only receives blank prototypes at its end. *)
Definition lowered
  (context : ir_context) (proto : ir_proto) (context' : ir_context) (proto' : ir_proto)
  : Prop :=
  error_count context <= error_count context'
  /\ is_vararg proto' = is_vararg proto
  /\ parameters_size proto' = parameters_size proto
  /\ protos_size proto' = protos_size proto
  /\ max_stack_size proto <= max_stack_size proto'
  /\ (0 <= top_register proto <= 255 -> 0 <= top_register proto' <= 255)
  /\ (code proto = None -> code proto' = None)
  /\ (forall s, code proto = Some s ->
      exists s' tail,
        code proto' = Some s'
        /\ instructions s' = instructions s ++ tail
        /\ section_size s' = section_size s + Z.of_nat (length tail)
        /\ Forall (emitted proto) tail)
  /\ (exists tail,
        constants (constant_list proto') = constants (constant_list proto) ++ tail
        /\ size (constant_list proto')
           = size (constant_list proto) + Z.of_nat (length tail))
  /\ (Z.of_nat (length (constants (constant_list proto'))) < UINT_MAX ->
      size (constant_list proto) = Z.of_nat (length (constants (constant_list proto))) ->
      deduplicated (constant_list proto) ->
      deduplicated (constant_list proto'))
  /\ (exists new, protos proto' = protos proto ++ new /\ Forall blank new).

(** From [proto] to [proto'] the code section, when there is one, has only
    received instructions at its end, and its size counter has moved by
    their number; when there is none, there is still none. *)
Definition appends_instructions (proto proto' : ir_proto) : Prop :=
  (code proto = None -> code proto' = None)
  /\ (forall s, code proto = Some s ->
      exists s' tail,
        code proto' = Some s'
        /\ instructions s' = instructions s ++ tail
        /\ section_size s' = section_size s + Z.of_nat (length tail)).

(** From [proto] to [proto'] the pool has only received constants at its
    end, and its size counter has moved by their number. *)
Definition appends_constants (proto proto' : ir_proto) : Prop :=
  exists tail,
    constants (constant_list proto') = constants (constant_list proto) ++ tail
    /\ size (constant_list proto')
       = size (constant_list proto) + Z.of_nat (length tail).

(** The function bodies of a tree: each one, however deep, with those of
    its own body. *)
Fixpoint function_bodies (n : node) : nat :=
  let behind (o : option node) : nat :=
    match o with
    | None => O
    | Some n' => function_bodies n'
    end in
  match n with
  | NODE_EXPRESSION_STATEMENT e => behind e
  | NODE_CALL f a => (behind f + behind a)%nat
  | NODE_STRING _ => O
  | NODE_NAME_REFERENCE i => behind i
  | NODE_NUMBER _ => O
  | NODE_IDENTIFIER _ _ => O
  | NODE_BLOCK i s => (behind i + behind s)%nat
  | NODE_FUNCTION_BODY _ b => S (behind b)
  | NODE_EXPRESSION_LIST i e _ => (behind i + behind e)%nat
  | NODE_OTHER => O
  end.

(** The function bodies behind a pointer that may be NULL. *)
Definition function_bodies_behind (o : option node) : nat :=
  match o with
  | None => O
  | Some n => function_bodies n
  end.

(** The make-closure instructions among [tail] all carry the index 0. *)
Definition closures_indexed_zero (tail : list ir_instruction) : Prop :=
  Forall (fun i => match i with
                   | iABx IR_CLOSURE _ Bx => Bx = 0
                   | _ => True
                   end) tail.

(** The statement [print("hi")], with the symbols 1 and 2 for the names. *)
Definition print_hi : node :=
  call_statement {| sym_id := 1 |} {| sym_id := 2 |} true false.

(* ------------------------------------------------------------------ *)
(** ** Integer literals *)

(** The double of the integer [z] passes the test of the first tier and
    converts back to [z]. *)
Definition immediate (z : Z) : bool :=
  fits_sBx (double_of_int z) && (double_to_short (double_of_int z) =? z).

(** [immediate] on the [n] integers from [z] on. *)
Fixpoint immediate_from (n : nat) (z : Z) : bool :=
  match n with
  | O => true
  | S n' => immediate z && immediate_from n' (z + 1)
  end.

(* ------------------------------------------------------------------ *)
(** ** Flat prototype trees in the store *)

(** [a->next] and [a->protos->first] in a store; [None] when nothing is
    stored at [a]. *)
Definition next_of (h : Collector.store) (a : positive) : option Collector.ptr :=
  option_map Collector.next (PositiveMap.find a h).

Definition first_child_of (h : Collector.store) (a : positive) : option Collector.ptr :=
  option_map (fun c => Collector.first (Collector.protos c)) (PositiveMap.find a h).

(** The prototypes [cs] are chained by [next] in this order, the last one
    ending the chain, and none has a child. *)
Fixpoint childless_chain (h : Collector.store) (cs : list positive) : Prop :=
  match cs with
  | [] => True
  | c :: rest =>
      first_child_of h c = Some None
      /\ next_of h c = Some (hd_error rest)
      /\ childless_chain h rest
  end.

(** A prototype [main] that is in no list itself and whose child list is
    the chain of the childless prototypes [cs], all at different
    addresses: the tree of a chunk with the closures [cs] side by side. *)
Definition flat (h : Collector.store) (main : positive) (cs : list positive) : Prop :=
  first_child_of h main = Some (hd_error cs)
  /\ next_of h main = Some None
  /\ childless_chain h cs
  /\ NoDup (main :: cs).

(** Two stores in which every prototype has the same [next] and the same
    first child. *)
Definition same_links (h h' : Collector.store) : Prop :=
  forall a, next_of h' a = next_of h a /\ first_child_of h' a = first_child_of h a.

(** The prototypes of [l] are linked by [next] in this order and the last
    one ends the chain. *)
Fixpoint linked (h : Collector.store) (l : list positive) : Prop :=
  match l with
  | [] => True
  | a :: rest =>
      next_of h a = Some (hd_error rest) /\ linked h rest
  end.

(** The list [ir_collect_protos] holds after the prototypes [l]: NULL when
    there are none, else a list from the first to the last of them. *)
Definition list_of (l : list positive) (list : option Collector.ir_proto_list) : Prop :=
  match l with
  | [] => list = None
  | a :: _ =>
      exists sz, list = Some {| Collector.first := Some a;
                                Collector.last := Some (last l a);
                                Collector.size := sz |}
  end.

(** A main prototype (1) with three closures (2, 3 and 5) side by side. *)
Definition three_closures : Collector.tree :=
  Collector.Proto 1
    [Collector.Proto 2 []; Collector.Proto 3 []; Collector.Proto 5 []].

(* ------------------------------------------------------------------ *)
(** ** Calls with any number of plain arguments *)

(** An expression that is lowered to one load: a string literal, a number
    literal, a global identifier, or one of these under a name
    reference. *)
Inductive plain : node -> Prop :=
| plain_string s : plain (NODE_STRING s)
| plain_number v : plain (NODE_NUMBER v)
| plain_global s : plain (NODE_IDENTIFIER s true)
| plain_reference e : plain e -> plain (NODE_NAME_REFERENCE (Some e)).

(** [a] holds [k] plain expressions: nothing, one plain expression, or an
    expression list, nested in any way, whose two sides hold [k] of them
    together. *)
Inductive holds_plain : option node -> nat -> Prop :=
| holds_none : holds_plain None 0
| holds_one e : plain e -> holds_plain (Some e) 1
| holds_list init expression size k1 k2 :
    holds_plain init k1 ->
    holds_plain expression k2 ->
    holds_plain (Some (NODE_EXPRESSION_LIST init expression size)) (k1 + k2).

(** [f("a", 1.5)]: two arguments in an expression list of size 2. *)
Definition call_with_two_arguments : node :=
  NODE_CALL (Some (NODE_IDENTIFIER {| sym_id := 1 |} true))
    (Some (NODE_EXPRESSION_LIST (Some (NODE_STRING {| sym_id := 2 |}))
                                (Some (NODE_NUMBER one_half)) 2)).

(** [f(g())]: a call whose only argument is a call. *)
Definition call_of_call : node :=
  NODE_CALL (Some (NODE_IDENTIFIER {| sym_id := 1 |} true))
    (Some (NODE_CALL (Some (NODE_IDENTIFIER {| sym_id := 2 |} true)) None)).

(* ------------------------------------------------------------------ *)
(** ** Registering closures in the store *)

(** What the Builder does for each closure, on the store: a prototype from
    [ir_proto()] at the address [c], appended to the child list of
    [main]. *)
Definition register_fresh (h : Collector.store) (main c : positive)
  : option Collector.store :=
  Collector.register_child (PositiveMap.add c Collector.fresh h) main c.

Fixpoint register_all (h : Collector.store) (main : positive) (cs : list positive)
  : option Collector.store :=
  match cs with
  | [] => Some h
  | c :: rest => Collector.bind (register_fresh h main c) (fun h => register_all h main rest)
  end.

(** The child list of [main] in a store. *)
Definition child_list_of (h : Collector.store) (main : positive)
  : option Collector.ir_proto_list :=
  option_map Collector.protos (PositiveMap.find main h).

(** The child list of [main] after the closures [done] were registered:
    from the first to the last of them, with the size field still at 1,
    [main] itself in no list, and the closures chained in this order. *)
Definition registered (h : Collector.store) (main : positive) (done : list positive)
  : Prop :=
  child_list_of h main
  = Some {| Collector.first := hd_error done;
            Collector.last := match done with
                              | [] => None
                              | a :: _ => Some (last done a)
                              end;
            Collector.size := 1 |}
  /\ next_of h main = Some None
  /\ childless_chain h done.

(* ------------------------------------------------------------------ *)
(** ** Blocks of plain calls *)

(** A call of a plain callee with plain arguments, whose argument list has
    the size of their number, and for whose registers there is room above
    [top]. *)
Inductive plain_call (top : Z) : node -> Prop :=
| plain_call_of callee args k :
    plain callee ->
    holds_plain args k ->
    args_size args = Z.of_nat k ->
    top + Z.of_nat k + 1 <= 255 ->
    plain_call top (NODE_CALL (Some callee) args).

(** Nothing, a plain call as a statement, or a block of these. *)
Inductive plain_statements (top : Z) : option node -> Prop :=
| no_statement : plain_statements top None
| call_statement_of c :
    plain_call top c ->
    plain_statements top (Some (NODE_EXPRESSION_STATEMENT (Some c)))
| block_of init statement :
    plain_statements top init ->
    plain_statements top statement ->
    plain_statements top (Some (NODE_BLOCK init statement)).

(* ------------------------------------------------------------------ *)
(** ** Sections grown by appending *)

(** [section = ir_append(section, i)] for each instruction of [l] in
    turn. *)
Definition append_all (section : option ir_section) (l : list ir_instruction)
  : option ir_section :=
  fold_left (fun s i => Some (ir_append s i)) l section.

(* ================================================================== *)
(** * Properties *)

(** ** Register allocator *)

Lemma to_uchar_range z : 0 <= to_uchar z <= 255.
Proof. unfold to_uchar. pose proof (Z.mod_pos_bound z 256). lia. Qed.

Lemma to_uchar_small z : 0 <= z <= 255 -> to_uchar z = z.
Proof. intros H. unfold to_uchar. apply Z.mod_small. lia. Qed.

Lemma to_uchar_add_sub a n : to_uchar (to_uchar (a + n) - n) = to_uchar a.
Proof.
  unfold to_uchar.
  rewrite Zminus_mod_idemp_l. f_equal. lia.
Qed.

Lemma allocate_top context proto count :
  top_register (snd (ir_allocate_register context proto count))
  = to_uchar (top_register proto + count).
Proof.
  unfold ir_allocate_register. cbn.
  destruct (_ >? _); reflexivity.
Qed.

Lemma allocate_max context proto count :
  max_stack_size (snd (ir_allocate_register context proto count))
  = Z.max (max_stack_size proto) (to_uchar (top_register proto + count)).
Proof.
  unfold ir_allocate_register. cbn.
  destruct (_ >? _) eqn:E; cbn; lia.
Qed.

Lemma free_top context proto count :
  top_register (snd (ir_free_register context proto count))
  = to_uchar (top_register proto - count).
Proof. reflexivity. Qed.

Lemma free_max context proto count :
  max_stack_size (snd (ir_free_register context proto count)) = max_stack_size proto.
Proof. reflexivity. Qed.

Lemma run_matched_unfold count inner context proto :
  run_matched (Matched count inner) context proto
  = let '(_, context1, proto1) := ir_allocate_register context proto count in
    let '(context2, proto2, log) := run_sequence inner context1 proto1 in
    let '(context3, proto3) := ir_free_register context2 proto2 count in
    (context3, proto3, Allocated proto1 :: log ++ [Freed proto proto3]).
Proof.
  cbn [run_matched].
  destruct (ir_allocate_register context proto count) as [[r context1] proto1].
  match goal with
  | |- context [?f inner context1 proto1] =>
      assert (E : forall ms c p, f ms c p = run_sequence ms c p)
  end.
  { induction ms as [|m' rest IH]; intros c p; [reflexivity|].
    cbn [run_sequence]. destruct (run_matched m' c p) as [[c' p'] log].
    rewrite IH. reflexivity. }
  rewrite E. reflexivity.
Qed.

Lemma rising_app a l b l' c : rising a l b -> rising b l' c -> rising a (l ++ l') c.
Proof.
  revert a. induction l as [|e l IH]; intros a H1 H2; cbn in *.
  - destruct l' as [|e' l']; cbn in *; [lia|]. destruct H2. split; [lia|assumption].
  - destruct H1. split; [assumption|]. apply IH; assumption.
Qed.

Lemma rising_le a l b : rising a l b -> a <= b.
Proof.
  revert a. induction l as [|e l IH]; intros a H; cbn in *; [lia|].
  destruct H as [H1 H2]. apply IH in H2. lia.
Qed.

Lemma rising_non_decreasing a l b : rising a l b -> non_decreasing a l.
Proof.
  revert a. induction l as [|e l IH]; intros a H; cbn in *; [exact I|].
  destruct H. split; [assumption|]. apply IH. assumption.
Qed.

Lemma highest_app l l' z : highest (l ++ l') z = highest l' (highest l z).
Proof. unfold highest. apply fold_left_app. Qed.

Lemma highest_ge l z : z <= highest l z.
Proof.
  revert z. induction l as [|x l IH]; intros z; cbn; [lia|].
  specialize (IH (Z.max z x)). unfold highest in IH. lia.
Qed.

Lemma highest_max l a b : highest l (Z.max a b) = Z.max (highest l a) b.
Proof.
  revert a. induction l as [|x l IH]; intros a; cbn; [reflexivity|].
  unfold highest in IH. rewrite <- IH. f_equal. lia.
Qed.

Lemma run_sequence_round_trip ms :
  Forall (fun m => forall context proto,
            0 <= top_register proto <= 255 ->
            round_trip proto (run_matched m context proto)) ms ->
  forall context proto,
    0 <= top_register proto <= 255 ->
    round_trip proto (run_sequence ms context proto).
Proof.
  induction 1 as [|m rest Hm _ IH]; intros context proto Hr.
  - cbn. repeat split; auto; lia.
  - cbn [run_sequence].
    specialize (Hm context proto Hr).
    destruct (run_matched m context proto) as [[c1 p1] log1].
    destruct Hm as (T1 & R1 & M1 & I1).
    assert (Hr1 : 0 <= top_register p1 <= 255) by lia.
    specialize (IH c1 p1 Hr1).
    destruct (run_sequence rest c1 p1) as [[c2 p2] log2].
    destruct IH as (T2 & R2 & M2 & I2).
    unfold round_trip. repeat split.
    + lia.
    + apply Forall_app; split; assumption.
    + eapply rising_app; eassumption.
    + destruct (I1 H) as [E1 _].
      apply rising_le in M1.
      assert (L1 : top_register p1 <= max_stack_size p1) by lia.
      destruct (I2 L1) as [E2 _].
      unfold tops. rewrite map_app, highest_app. fold (tops log1) (tops log2).
      rewrite <- E1. exact E2.
    + destruct (I1 H) as [_ F1].
      apply rising_le in M1.
      assert (L1 : top_register p1 <= max_stack_size p1) by lia.
      destruct (I2 L1) as [_ F2].
      apply Forall_app; split; assumption.
Qed.

Lemma run_matched_round_trip m :
  forall context proto,
    0 <= top_register proto <= 255 ->
    round_trip proto (run_matched m context proto).
Proof.
  induction m as [count inner IH] using matched_nested_ind.
  intros context proto Hr.
  rewrite run_matched_unfold.
  pose proof (allocate_top context proto count) as A1.
  pose proof (allocate_max context proto count) as A2.
  destruct (ir_allocate_register context proto count) as [[r c1] p1]. cbn [snd] in A1, A2.
  assert (Hr1 : 0 <= top_register p1 <= 255)
    by (rewrite A1; apply to_uchar_range).
  pose proof (run_sequence_round_trip inner IH c1 p1 Hr1) as S.
  destruct (run_sequence inner c1 p1) as [[c2 p2] log].
  destruct S as (T2 & R2 & M2 & I2).
  pose proof (free_top c2 p2 count) as F1.
  pose proof (free_max c2 p2 count) as F2.
  destruct (ir_free_register c2 p2 count) as [c3 p3]. cbn [snd] in F1, F2.
  assert (T3 : top_register p3 = top_register proto).
  { rewrite F1, T2, A1, to_uchar_add_sub. apply to_uchar_small. exact Hr. }
  unfold round_trip. repeat split.
  - exact T3.
  - constructor; [exact I|]. apply Forall_app; split; [assumption|].
    constructor; [exact T3|constructor].
  - cbn. lia.
  - cbn [rising state_after].
    fold (rising (max_stack_size p1) (log ++ [Freed proto p3]) (max_stack_size p3)).
    eapply rising_app; [eassumption|]. cbn. lia.
  - assert (L1 : top_register p1 <= max_stack_size p1) by lia.
    destruct (I2 L1) as [E2 _].
    unfold tops. cbn [map state_after]. rewrite map_app. cbn [map state_after].
    fold (tops log). cbn [highest fold_left].
    fold (highest (tops log ++ [top_register p3])
                  (Z.max (max_stack_size proto) (top_register p1))).
    rewrite highest_app. cbn [highest fold_left].
    rewrite F2, E2, A2, A1.
    pose proof (highest_ge (tops log)
                  (Z.max (max_stack_size proto) (to_uchar (top_register proto + count)))).
    lia.
  - assert (L1 : top_register p1 <= max_stack_size p1) by lia.
    destruct (I2 L1) as [E2 G2].
    constructor; [cbn; lia|]. apply Forall_app; split; [assumption|].
    constructor; [|constructor]. cbn.
    pose proof (highest_ge (tops log) (max_stack_size p1)). lia.
Qed.

(** C6 (as amended).  A sequence of matched [allocate(n)]/[free(n)] pairs
    with no partial overlap, started from any prototype whose [top_register]
    is in the range of its 8-bit field: every free leaves [top_register]
    where the matching allocation found it, and so does the whole sequence;
    [max_stack_size] never decreases from one point of the sequence to the
    next, nor across any single allocation or free from any state; and when
    [max_stack_size >= top_register] holds at the start, it holds at every
    point of the sequence and [max_stack_size] ends as the larger of its
    starting value and the values [top_register] took along the sequence. *)
Theorem matched_sequence_round_trip ms context proto :
  0 <= top_register proto <= 255 ->
  let '(_, proto', log) := run_sequence ms context proto in
  top_register proto' = top_register proto
  /\ Forall restores_top log
  /\ non_decreasing (max_stack_size proto) log
  /\ (forall c p n,
        max_stack_size p <= max_stack_size (snd (ir_allocate_register c p n))
        /\ max_stack_size (snd (ir_free_register c p n)) = max_stack_size p)
  /\ (top_register proto <= max_stack_size proto ->
      max_stack_size proto' = highest (tops log) (max_stack_size proto)
      /\ Forall (fun e => top_register (state_after e) <= max_stack_size (state_after e))
                log).
Proof.
  intros Hr.
  assert (R : round_trip proto (run_sequence ms context proto)).
  { apply run_sequence_round_trip; [|exact Hr].
    apply Forall_forall. intros m _. apply run_matched_round_trip. }
  destruct (run_sequence ms context proto) as [[c' p'] log].
  destruct R as (T & F & M & I).
  repeat split.
  - exact T.
  - exact F.
  - eapply rising_non_decreasing; eassumption.
  - rewrite allocate_max. lia.
  - apply I; assumption.
  - apply I; assumption.
Qed.

(** Two pairs in a row with a nested pair each, the second one wrapping
    around 255, from a fresh prototype. *)
Lemma matched_sequence_round_trip_witness :
  let ms := [Matched 3 [Matched 2 []]; Matched 250 [Matched 10 []]] in
  let context := {| error_count := 0 |} in
  0 <= top_register ir_proto_new <= 255
  /\ let '(_, proto', log) := run_sequence ms context ir_proto_new in
     top_register proto' = 0
     /\ Forall restores_top log
     /\ max_stack_size proto' = 250.
Proof.
  intros ms context.
  assert (Hr : 0 <= top_register ir_proto_new <= 255) by (cbn; lia).
  split; [exact Hr|].
  pose proof (matched_sequence_round_trip ms context ir_proto_new Hr) as H.
  destruct (run_sequence ms context ir_proto_new) as [[c' p'] log] eqn:E.
  destruct H as (T & F & _ & _ & I).
  split; [exact T|]. split; [exact F|].
  destruct I as [M _]; [cbn; lia|].
  rewrite M. vm_compute in E. injection E as _ _ <-. reflexivity.
Defined.

(** C6 as stated fails: after one matched pair of 10 registers a fresh
    prototype is back at [top_register = 0] with [max_stack_size = 10];
    a sequence of one matched pair of 1 register started there ends with
    [max_stack_size = 10], while the largest value [top_register] took at
    any point of that sequence, its start included, is 1. *)
Lemma high_water_mark_above_tops_of_sequence :
  let '(context, start, _) :=
    run_sequence [Matched 10 []] {| error_count := 0 |} ir_proto_new in
  let '(_, proto', log) := run_sequence [Matched 1 []] context start in
  top_register start = 0
  /\ max_stack_size proto' = 10
  /\ highest (tops log) (top_register start) = 1
  /\ max_stack_size proto' <> highest (tops log) (top_register start).
Proof. vm_compute. repeat split; discriminate. Qed.

(** C7.  For every count an [unsigned char] parameter can hold,
    [ir_allocate_register] adds one to the error counter exactly when
    [top_register + count] exceeds 255 and leaves it alone otherwise;
    [ir_free_register] adds one exactly when [top_register - count] is
    below 0 and leaves it alone otherwise. *)
Theorem allocator_fault_counted context proto count :
  0 <= count <= 255 ->
  let '(_, after_allocate, _) := ir_allocate_register context proto count in
  let '(after_free, _) := ir_free_register context proto count in
  (error_count after_allocate = error_count context + 1
   <-> top_register proto + count > 255)
  /\ (error_count after_allocate = error_count context
      <-> top_register proto + count <= 255)
  /\ (error_count after_free = error_count context + 1
      <-> top_register proto - count < 0)
  /\ (error_count after_free = error_count context
      <-> 0 <= top_register proto - count).
Proof.
  intros _. unfold ir_allocate_register, ir_free_register, UCHAR_MAX.
  destruct (top_register proto + count >? 255) eqn:A;
    destruct (top_register proto - count <? 0) eqn:F;
    cbn [error_count count_error]; lia.
Qed.

(** A prototype with [top_register = 254] and the count 2: the allocation
    is a fault (256 > 255), the free is none (252 >= 0). *)
Lemma allocator_fault_counted_witness :
  let proto := snd (ir_allocate_register no_errors ir_proto_new 254) in
  0 <= 2 <= 255
  /\ top_register proto = 254
  /\ error_count (snd (fst (ir_allocate_register no_errors proto 2))) = 1
  /\ error_count (fst (ir_free_register no_errors proto 2)) = 0.
Proof.
  intros proto.
  assert (H : 0 <= 2 <= 255) by lia.
  pose proof (allocator_fault_counted no_errors proto 2 H) as K.
  destruct (ir_allocate_register no_errors proto 2) as [[r after_allocate] p1] eqn:A.
  destruct (ir_free_register no_errors proto 2) as [after_free p2] eqn:F.
  cbn [fst snd].
  destruct K as (K1 & _ & _ & K4).
  split; [exact H|]. split; [reflexivity|].
  split; [apply K1; vm_compute; reflexivity | apply K4; vm_compute; discriminate].
Defined.

(** C10.  On exhaustion [ir_allocate_register] still returns the former
    [top_register], moves [top_register] on by [count] modulo 256 and raises
    [max_stack_size] to the wrapped value when that is larger; on underflow
    [ir_free_register] still takes [count] off [top_register] modulo 256.
    In both cases [top_register] and the error counter end up different
    from what they were. *)
Theorem allocator_fault_still_mutates context proto count :
  0 <= top_register proto <= 255 ->
  0 <= count <= 255 ->
  (top_register proto + count > UCHAR_MAX ->
   let '(r, context', proto') := ir_allocate_register context proto count in
   r = top_register proto
   /\ top_register proto' = (top_register proto + count) mod 256
   /\ top_register proto' = top_register proto + count - 256
   /\ max_stack_size proto' = Z.max (max_stack_size proto) (top_register proto')
   /\ top_register proto' <> top_register proto
   /\ error_count context' = error_count context + 1)
  /\ (top_register proto - count < 0 ->
      let '(context', proto') := ir_free_register context proto count in
      top_register proto' = (top_register proto - count) mod 256
      /\ top_register proto' = top_register proto - count + 256
      /\ max_stack_size proto' = max_stack_size proto
      /\ top_register proto' <> top_register proto
      /\ error_count context' = error_count context + 1).
Proof.
  intros Ht Hc. unfold UCHAR_MAX. split; intros Hf.
  - pose proof (allocate_top context proto count) as T.
    pose proof (allocate_max context proto count) as M.
    assert (E : error_count (snd (fst (ir_allocate_register context proto count)))
                = error_count context + 1).
    { unfold ir_allocate_register, UCHAR_MAX. cbn.
      destruct (top_register proto + count >? 255) eqn:A; [reflexivity | lia]. }
    assert (R : fst (fst (ir_allocate_register context proto count)) = top_register proto)
      by reflexivity.
    destruct (ir_allocate_register context proto count) as [[r c'] p'].
    cbn [fst snd] in *.
    assert (W : to_uchar (top_register proto + count) = top_register proto + count - 256).
    { unfold to_uchar. symmetry. apply Z.mod_unique with (q := 1); lia. }
    unfold to_uchar in *. repeat split; try assumption; lia.
  - pose proof (free_top context proto count) as T.
    assert (E : error_count (fst (ir_free_register context proto count))
                = error_count context + 1).
    { unfold ir_free_register. cbn.
      destruct (top_register proto - count <? 0) eqn:A; [reflexivity | lia]. }
    pose proof (free_max context proto count) as M.
    destruct (ir_free_register context proto count) as [c' p'].
    cbn [fst snd] in *.
    assert (W : to_uchar (top_register proto - count) = top_register proto - count + 256).
    { unfold to_uchar. symmetry. apply Z.mod_unique with (q := -1); lia. }
    unfold to_uchar in *. repeat split; try assumption; lia.
Qed.

(** A fresh prototype after [free(1)] is at [top_register = 255] with
    [max_stack_size = 0]; allocating 2 registers there wraps [top_register]
    to 1 and raises [max_stack_size] from 0 to that wrapped value; freeing 2
    registers from [top_register = 1] wraps to 255. *)
Lemma allocator_fault_still_mutates_witness :
  let context := {| error_count := 0 |} in
  let '(context1, underflowed) := ir_free_register context ir_proto_new 1 in
  let '(r, context2, wrapped) := ir_allocate_register context1 underflowed 2 in
  let '(context3, again) := ir_free_register context2 wrapped 2 in
  (top_register underflowed = 255 /\ max_stack_size underflowed = 0)
  /\ (r = 255 /\ top_register wrapped = 1 /\ max_stack_size wrapped = 1
      /\ error_count context2 = error_count context1 + 1)
  /\ (top_register again = 255 /\ error_count context3 = error_count context2 + 1).
Proof.
  intros context.
  destruct (ir_free_register context ir_proto_new 1) as [context1 underflowed] eqn:E1.
  assert (U : top_register underflowed = 255 /\ max_stack_size underflowed = 0).
  { vm_compute in E1. injection E1 as _ <-. split; reflexivity. }
  destruct U as [U1 U2].
  assert (Ht : 0 <= top_register underflowed <= 255) by lia.
  assert (Hc : 0 <= 2 <= 255) by lia.
  pose proof (allocator_fault_still_mutates context1 underflowed 2 Ht Hc) as [A _].
  assert (Hf : top_register underflowed + 2 > UCHAR_MAX) by (unfold UCHAR_MAX; lia).
  specialize (A Hf).
  destruct (ir_allocate_register context1 underflowed 2) as [[r context2] wrapped].
  destruct A as (A1 & A2 & A3 & A4 & _ & A6).
  assert (Ht' : 0 <= top_register wrapped <= 255) by lia.
  pose proof (allocator_fault_still_mutates context2 wrapped 2 Ht' Hc) as [_ F].
  assert (Hu : top_register wrapped - 2 < 0) by lia.
  specialize (F Hu).
  destruct (ir_free_register context2 wrapped 2) as [context3 again].
  destruct F as (_ & F2 & _ & _ & F5).
  repeat split; try assumption; try lia.
Defined.

(** ** Constant pool *)

Lemma find_string_from_generic iter symbol_id index :
  find_string_from iter symbol_id index = find_from (is_string symbol_id) iter index.
Proof.
  revert index. induction iter as [|c rest IH]; intros index; [reflexivity|].
  destruct c; cbn; rewrite IH; reflexivity.
Qed.

Lemma find_number_from_generic iter number index :
  find_number_from iter number index = find_from (is_number number) iter index.
Proof.
  revert index. induction iter as [|c rest IH]; intros index; [reflexivity|].
  destruct c; cbn; rewrite IH; reflexivity.
Qed.

Lemma find_from_absent (test : ir_constant -> bool) iter index :
  Forall (fun c => test c = false) iter -> find_from test iter index = -1.
Proof.
  intros F. revert index. induction F as [|c rest T _ IH]; intros index; [reflexivity|].
  cbn. rewrite T. apply IH.
Qed.

Lemma find_from_present (test : ir_constant -> bool) iter index n c :
  nth_error iter n = Some c ->
  test c = true ->
  Forall (fun c => test c = false) (firstn n iter) ->
  find_from test iter index = index + Z.of_nat n.
Proof.
  revert index n. induction iter as [|c' rest IH]; intros index n N T F.
  - destruct n; discriminate.
  - destruct n as [|n].
    + cbn in N. injection N as ->. cbn. rewrite T. lia.
    + cbn in N, F. inversion F as [|? ? T' F']; subst.
      cbn. rewrite T'. rewrite (IH (index + 1) n N T F'). lia.
Qed.

(** Either no entry passes the test, or there is a first one that does. *)
Lemma first_match (test : ir_constant -> bool) iter :
  Forall (fun c => test c = false) iter
  \/ exists n c, nth_error iter n = Some c /\ test c = true
                 /\ Forall (fun c => test c = false) (firstn n iter).
Proof.
  induction iter as [|c rest IH].
  - left. constructor.
  - destruct (test c) eqn:T.
    + right. exists 0%nat, c. cbn. repeat split; auto.
    + destruct IH as [F | (n & c' & N & T' & F)].
      * left. constructor; assumption.
      * right. exists (S n), c'. cbn. repeat split; auto.
Qed.

Lemma ir_constant_string_intern proto symbol :
  ir_constant_string proto symbol
  = intern (is_string (sym_id symbol)) (CONSTANT_STRING (sym_id symbol)) proto.
Proof.
  unfold ir_constant_string, intern, ir_find_string_constant.
  rewrite find_string_from_generic. reflexivity.
Qed.

Lemma ir_constant_number_intern proto value :
  ir_constant_number proto value
  = intern (is_number value) (CONSTANT_NUMBER value) proto.
Proof.
  unfold ir_constant_number, intern, ir_find_number_constant.
  rewrite find_number_from_generic. reflexivity.
Qed.

Lemma ir_constant_list_add_app list c :
  ir_constant_list_add list c
  = {| constants := constants list ++ [c]; size := size list |}.
Proof. unfold ir_constant_list_add. destruct (constants list); reflexivity. Qed.

Lemma to_uint_small z : 0 <= z < 4294967296 -> to_uint z = z.
Proof. intros H. unfold to_uint. apply Z.mod_small. exact H. Qed.

(** Interning a constant no entry matches: it goes to the end of the pool
    and its index is the size the pool had. *)
Lemma intern_absent test c proto :
  pool_in_step (constant_list proto) ->
  absent test (constant_list proto) ->
  intern test c proto
  = (Z.of_nat (length (constants (constant_list proto))), with_new_constant proto c).
Proof.
  intros [S B] A. unfold intern.
  rewrite (find_from_absent test _ 0 A).
  change (to_uint (-1) =? to_uint (-1)) with true. cbv iota.
  unfold post_increment_size, with_new_constant.
  rewrite ir_constant_list_add_app. cbn.
  rewrite S, to_uint_small; [reflexivity|]. unfold UINT_MAX in B. lia.
Qed.

(** Interning a constant some entry matches: the index of the first such
    entry, and nothing changes. *)
Lemma intern_present test c proto n c' :
  Z.of_nat (length (constants (constant_list proto))) <= UINT_MAX ->
  nth_error (constants (constant_list proto)) n = Some c' ->
  test c' = true ->
  Forall (fun c => test c = false) (firstn n (constants (constant_list proto))) ->
  intern test c proto = (Z.of_nat n, proto).
Proof.
  intros B N T F. unfold intern.
  rewrite (find_from_present test _ 0 n c' N T F).
  assert (L : (n < length (constants (constant_list proto)))%nat)
    by (apply nth_error_Some; congruence).
  unfold UINT_MAX in B.
  rewrite to_uint_small by lia.
  change (to_uint (-1)) with 4294967295.
  destruct (0 + Z.of_nat n =? 4294967295) eqn:E; [lia|].
  f_equal.
Qed.

(** Interning [c] under [test] and then a constant under [test'], where
    [test'] accepts [c] and tells the entries of the pool apart the way
    [test] does: the second interning finds the index of the first and
    leaves the pool alone. *)
Lemma intern_again test test' c c' proto :
  pool_in_step (constant_list proto) ->
  test' c = true ->
  (forall x, In x (constants (constant_list proto)) -> test' x = test x) ->
  let '(index, proto1) := intern test c proto in
  intern test' c' proto1 = (index, proto1).
Proof.
  intros S T Agree.
  destruct (first_match test (constants (constant_list proto)))
    as [A | (n & x & N & Tx & F)].
  - rewrite (intern_absent test c proto S A).
    destruct S as [S B].
    apply intern_present with (c' := c).
    + cbn. rewrite length_app. cbn. lia.
    + cbn. rewrite nth_error_app2 by lia. rewrite Nat.sub_diag. reflexivity.
    + exact T.
    + cbn. rewrite firstn_app, Nat.sub_diag, firstn_all. cbn. rewrite app_nil_r.
      apply Forall_forall. intros y Hy. rewrite (Agree y Hy).
      unfold absent in A. rewrite Forall_forall in A. apply A. exact Hy.
  - destruct S as [S B].
    rewrite (intern_present test c proto n x) by (auto; lia).
    apply intern_present with (c' := x).
    + lia.
    + exact N.
    + rewrite Agree; [exact Tx|]. eapply nth_error_In; eassumption.
    + apply Forall_forall. intros y Hy. rewrite Agree.
      * rewrite Forall_forall in F. apply F. exact Hy.
      * rewrite <- (firstn_skipn n (constants (constant_list proto))).
        apply in_or_app. left. exact Hy.
Qed.

(** C8.  In a pool whose size counter is in step with its entries,
    interning the same symbol twice returns the same index both times and
    the second interning adds no entry; when no entry held the symbol, the
    first interning adds exactly one entry, at the index the size counter
    had, and moves the counter on by one. *)
Theorem string_interned_once proto symbol :
  pool_in_step (constant_list proto) ->
  let '(first_index, proto1) := ir_constant_string proto symbol in
  let '(second_index, proto2) := ir_constant_string proto1 symbol in
  second_index = first_index
  /\ proto2 = proto1
  /\ (absent (is_string (sym_id symbol)) (constant_list proto) ->
      first_index = size (constant_list proto)
      /\ constants (constant_list proto1)
         = constants (constant_list proto) ++ [CONSTANT_STRING (sym_id symbol)]
      /\ length (constants (constant_list proto1))
         = S (length (constants (constant_list proto)))
      /\ size (constant_list proto1) = size (constant_list proto) + 1).
Proof.
  intros S.
  pose proof (intern_again (is_string (sym_id symbol)) (is_string (sym_id symbol))
                (CONSTANT_STRING (sym_id symbol)) (CONSTANT_STRING (sym_id symbol))
                proto S) as Again.
  pose proof (intern_absent (is_string (sym_id symbol))
                (CONSTANT_STRING (sym_id symbol)) proto S) as Fresh.
  rewrite <- ir_constant_string_intern in Again, Fresh.
  destruct (ir_constant_string proto symbol) as [first_index proto1].
  rewrite <- ir_constant_string_intern in Again.
  rewrite Again; [| cbn; apply Z.eqb_refl | reflexivity].
  split; [reflexivity|]. split; [reflexivity|].
  intros A. specialize (Fresh A). injection Fresh as -> ->.
  destruct S as [S _]. cbn. rewrite length_app. cbn.
  repeat split; auto. lia.
Qed.

(** A fresh prototype and the symbol 7. *)
Lemma string_interned_once_witness :
  let symbol := {| sym_id := 7 |} in
  pool_in_step (constant_list ir_proto_new)
  /\ let '(first_index, proto1) := ir_constant_string ir_proto_new symbol in
     let '(second_index, proto2) := ir_constant_string proto1 symbol in
     second_index = first_index /\ proto2 = proto1.
Proof.
  intros symbol.
  assert (S : pool_in_step (constant_list ir_proto_new))
    by (split; [reflexivity | reflexivity]).
  split; [exact S|].
  pose proof (string_interned_once ir_proto_new symbol S) as H.
  destruct (ir_constant_string ir_proto_new symbol) as [first_index proto1].
  destruct (ir_constant_string proto1 symbol) as [second_index proto2].
  destruct H as (H1 & H2 & _). split; assumption.
Defined.

Lemma zeros_equal_to_the_same (x : double) :
  double_eq x negative_zero = double_eq x positive_zero.
Proof. destruct x as [s|s| |s m e]; try destruct s; reflexivity. Qed.

(** C4 (as amended).  Number constants are told apart by the [==] of
    doubles, under which the two zeros are equal: in a pool whose size
    counter is in step with its entries, interning 0.0 and then -0.0 yields
    the same index twice, and the second interning adds no entry. *)
Theorem zeros_share_one_constant proto :
  pool_in_step (constant_list proto) ->
  let '(first_index, proto1) := ir_constant_number proto positive_zero in
  let '(second_index, proto2) := ir_constant_number proto1 negative_zero in
  second_index = first_index /\ proto2 = proto1.
Proof.
  intros S.
  pose proof (intern_again (is_number positive_zero) (is_number negative_zero)
                (CONSTANT_NUMBER positive_zero) (CONSTANT_NUMBER negative_zero)
                proto S) as Again.
  rewrite <- ir_constant_number_intern in Again.
  destruct (ir_constant_number proto positive_zero) as [first_index proto1].
  rewrite <- ir_constant_number_intern in Again.
  rewrite Again; [split; reflexivity | reflexivity |].
  intros x _. destruct x as [sid|v]; [reflexivity|].
  cbn. apply zeros_equal_to_the_same.
Qed.

(** A fresh prototype. *)
Lemma zeros_share_one_constant_witness :
  pool_in_step (constant_list ir_proto_new)
  /\ let '(first_index, proto1) := ir_constant_number ir_proto_new positive_zero in
     let '(second_index, proto2) := ir_constant_number proto1 negative_zero in
     second_index = first_index /\ proto2 = proto1.
Proof.
  assert (S : pool_in_step (constant_list ir_proto_new))
    by (split; [reflexivity | reflexivity]).
  split; [exact S|].
  exact (zeros_share_one_constant ir_proto_new S).
Defined.

(** C4 as stated fails: interning 0.0 and then -0.0 into the pool of a fresh
    prototype returns index 0 both times and leaves a single entry. *)
Lemma zeros_not_told_apart :
  let '(first_index, proto1) := ir_constant_number ir_proto_new positive_zero in
  let '(second_index, proto2) := ir_constant_number proto1 negative_zero in
  first_index = 0 /\ second_index = 0
  /\ constants (constant_list proto2) = [CONSTANT_NUMBER positive_zero]
  /\ ~ (second_index <> first_index
        /\ length (constants (constant_list proto2)) = 2%nat).
Proof. vm_compute. repeat split. intros [H _]. apply H. reflexivity. Qed.

(** A NaN is equal to nothing, itself included: interned twice into the
    pool of a fresh prototype it gets the indices 0 and 1. *)
Lemma nan_interned_twice :
  let '(first_index, proto1) := ir_constant_number ir_proto_new S754_nan in
  let '(second_index, proto2) := ir_constant_number proto1 S754_nan in
  first_index = 0 /\ second_index = 1
  /\ constants (constant_list proto2) = [CONSTANT_NUMBER S754_nan; CONSTANT_NUMBER S754_nan].
Proof. vm_compute. split; [|split]; reflexivity. Qed.

(** ** Builder *)

(** [ir_build] lowers the body of the chunk into [main_prototype], which
    has its code section, and appends the final return. *)
Lemma ir_build_from_main_prototype context exprlist body :
  ir_build context (NODE_FUNCTION_BODY exprlist body)
  = do (lower context main_prototype body) as context', proto in
    Some (context',
          set_code proto (Some (ir_append (code proto) (ir_instruction_ABC IR_RETURN 0 1 0)))).
Proof. destruct body; reflexivity. Qed.

Lemma ir_append_instructions s i :
  instructions (ir_append (Some s) i) = instructions s ++ [i].
Proof. unfold ir_append. destruct (instructions s); reflexivity. Qed.

Lemma append_code_some proto s i :
  code proto = Some s ->
  code (append_code proto i) = Some (ir_append (Some s) i).
Proof. intros H. unfold append_code. rewrite H. reflexivity. Qed.

(** What [append_code] leaves alone. *)
Lemma append_code_frame proto i :
  top_register (append_code proto i) = top_register proto
  /\ max_stack_size (append_code proto i) = max_stack_size proto
  /\ constant_list (append_code proto i) = constant_list proto
  /\ protos (append_code proto i) = protos proto
  /\ protos_size (append_code proto i) = protos_size proto.
Proof. unfold append_code. destruct (code proto); repeat split. Qed.

(** One register allocated and one instruction appended. *)
Lemma emit_with_register_spec context proto make s :
  code proto = Some s ->
  let '(_, proto') := emit_with_register context proto make in
  code proto' = Some (ir_append (Some s) (make (top_register proto)))
  /\ top_register proto' = to_uchar (top_register proto + 1)
  /\ constant_list proto' = constant_list proto
  /\ protos proto' = protos proto
  /\ protos_size proto' = protos_size proto.
Proof.
  intros H. unfold emit_with_register, ir_allocate_register, append_code.
  destruct (top_register proto + 1 >? UCHAR_MAX);
    cbn; destruct (_ >? max_stack_size proto); cbn; rewrite H; repeat split.
Qed.

Lemma emit_with_register_context context proto make :
  error_count (fst (emit_with_register context proto make))
  = if top_register proto + 1 >? UCHAR_MAX then error_count context + 1
    else error_count context.
Proof.
  unfold emit_with_register, ir_allocate_register.
  destruct (top_register proto + 1 >? UCHAR_MAX); cbn; reflexivity.
Qed.

(** Interning reads and writes the pool only. *)
Lemma intern_frame test c proto :
  top_register (snd (intern test c proto)) = top_register proto
  /\ max_stack_size (snd (intern test c proto)) = max_stack_size proto
  /\ code (snd (intern test c proto)) = code proto
  /\ protos (snd (intern test c proto)) = protos proto
  /\ protos_size (snd (intern test c proto)) = protos_size proto.
Proof. unfold intern. destruct (_ =? _); repeat split. Qed.

Lemma intern_same_pool test c proto proto' :
  constant_list proto' = constant_list proto ->
  fst (intern test c proto') = fst (intern test c proto)
  /\ constant_list (snd (intern test c proto'))
     = constant_list (snd (intern test c proto)).
Proof.
  intros H. unfold intern, post_increment_size. rewrite H.
  destruct (_ =? _); cbn; split; auto.
Qed.

Lemma to_uint_range z : 0 <= to_uint z < 4294967296.
Proof. unfold to_uint. apply Z.mod_pos_bound. lia. Qed.

Lemma intern_index_unsigned test c proto :
  0 <= fst (intern test c proto) < 4294967296.
Proof.
  unfold intern, post_increment_size.
  destruct (_ =? _); cbn; apply to_uint_range.
Qed.

(** In a pool in step, an interned index is at most the number of entries
    there were, at most one entry is added, and the pool stays in step as
    long as it does not reach [UINT_MAX] entries. *)
Lemma intern_in_step test c proto :
  pool_in_step (constant_list proto) ->
  let n := Z.of_nat (length (constants (constant_list proto))) in
  let '(index, proto') := intern test c proto in
  0 <= index <= n
  /\ Z.of_nat (length (constants (constant_list proto'))) <= n + 1
  /\ size (constant_list proto') = Z.of_nat (length (constants (constant_list proto'))).
Proof.
  intros S n.
  destruct (first_match test (constants (constant_list proto)))
    as [A | (k & x & N & Tx & F)].
  - rewrite (intern_absent test c proto S A). destruct S as [S B].
    cbn. rewrite length_app. cbn. subst n. repeat split; lia.
  - destruct S as [S B].
    rewrite (intern_present test c proto k x) by (auto; lia).
    assert (L : (k < length (constants (constant_list proto)))%nat)
      by (apply nth_error_Some; congruence).
    subst n. repeat split; lia.
Qed.

(** Interning adds the constant at the end or adds nothing; the size
    counter moves with the entries; nothing else of the prototype moves. *)
Lemma intern_grows test c proto :
  let proto' := snd (intern test c proto) in
  exists tail,
    constants (constant_list proto') = constants (constant_list proto) ++ tail
    /\ (tail = [] \/ tail = [c])
    /\ size (constant_list proto')
       = size (constant_list proto) + Z.of_nat (length tail).
Proof.
  unfold intern, post_increment_size. destruct (_ =? _); cbn.
  - exists [c]. rewrite ir_constant_list_add_app. cbn. repeat split; auto.
  - exists []. rewrite app_nil_r. repeat split; auto. cbn. lia.
Qed.

(** In a pool in step, the entry at an interned index passes the test of
    the search or is the constant that was just added. *)
Lemma intern_found test c proto :
  pool_in_step (constant_list proto) ->
  let '(index, proto') := intern test c proto in
  0 <= index
  /\ exists entry,
       nth_error (constants (constant_list proto')) (Z.to_nat index) = Some entry
       /\ (test entry = true
           \/ entry = c /\ absent test (constant_list proto)).
Proof.
  intros S.
  destruct (first_match test (constants (constant_list proto)))
    as [A | (n & x & N & Tx & F)].
  - rewrite (intern_absent test c proto S A).
    split; [lia|]. exists c. split; [|right; split; [reflexivity | exact A]].
    rewrite Nat2Z.id. cbn. rewrite nth_error_app2 by lia.
    rewrite Nat.sub_diag. reflexivity.
  - destruct S as [S B].
    rewrite (intern_present test c proto n x) by (auto; lia).
    split; [lia|]. exists x. rewrite Nat2Z.id. split; [exact N | left; exact Tx].
Qed.

(** The entry at the index of an interned string is the string constant
    of its symbol. *)
Lemma interned_string_found proto symbol :
  pool_in_step (constant_list proto) ->
  nth_error (constants (constant_list
                          (snd (intern (is_string (sym_id symbol))
                                  (CONSTANT_STRING (sym_id symbol)) proto))))
    (Z.to_nat (fst (intern (is_string (sym_id symbol))
                      (CONSTANT_STRING (sym_id symbol)) proto)))
  = Some (CONSTANT_STRING (sym_id symbol)).
Proof.
  intros S.
  pose proof (intern_found (is_string (sym_id symbol))
                (CONSTANT_STRING (sym_id symbol)) proto S) as H.
  destruct (intern _ _ proto) as [index proto']. cbn [fst snd].
  destruct H as (_ & entry & N & [T | [E _]]).
  - rewrite N. destruct entry as [sid|v]; [|discriminate].
    cbn in T. apply Z.eqb_eq in T. subst sid. reflexivity.
  - rewrite N, E. reflexivity.
Qed.

Lemma to_ushort_small z : 0 <= z <= 65535 -> to_ushort z = z.
Proof. intros H. unfold to_ushort. apply Z.mod_small. lia. Qed.

Lemma build_global context proto s :
  ir_build_proto context proto (NODE_IDENTIFIER s true)
  = Some (emit_with_register context (snd (ir_constant_string proto s))
            (fun r => ir_instruction_ABx IR_GETGLOBAL r (fst (ir_constant_string proto s)))).
Proof. cbn. destruct (ir_constant_string proto s). reflexivity. Qed.

Lemma build_string context proto s :
  ir_build_proto context proto (NODE_STRING s)
  = Some (emit_with_register context (snd (ir_constant_string proto s))
            (fun r => ir_instruction_ABx IR_LOADK r (fst (ir_constant_string proto s)))).
Proof. cbn. destruct (ir_constant_string proto s). reflexivity. Qed.

Lemma build_global_reference context proto s wrapped :
  ir_build_proto context proto (global_reference s wrapped)
  = ir_build_proto context proto (NODE_IDENTIFIER s true).
Proof. destruct wrapped; reflexivity. Qed.

Lemma build_single_argument context proto s listed :
  ir_build_proto context proto (single_argument s listed)
  = ir_build_proto context proto (NODE_STRING s).
Proof.
  destruct listed; [|reflexivity].
  cbn [single_argument ir_build_proto].
  destruct (ir_constant_string proto s) as [index p].
  cbn [and_then]. destruct (emit_with_register context p _). reflexivity.
Qed.

Lemma args_size_single s listed : args_size (Some (single_argument s listed)) = 1.
Proof. destruct listed; reflexivity. Qed.

Lemma build_call_statement context proto callee argument wrapped listed :
  ir_build_proto context proto (call_statement callee argument wrapped listed)
  = do (ir_build_proto context proto (NODE_IDENTIFIER callee true)) as context1, proto1 in
    do (ir_build_proto context1 proto1 (NODE_STRING argument)) as context2, proto2 in
    let '(context3, proto3) := ir_free_register context2 proto2 2 in
    Some (context3, append_code proto3 (ir_instruction_ABC IR_CALL (top_register proto) 2 1)).
Proof.
  destruct wrapped, listed;
    cbn [ir_build_proto and_then args_size call_statement global_reference
         single_argument];
    destruct (ir_constant_string proto callee) as [i1 p1]; cbn [and_then];
    destruct (emit_with_register context p1 _) as [c1 p1']; cbn [and_then];
    destruct (ir_constant_string p1' argument) as [i2 p2]; cbn [and_then];
    destruct (emit_with_register c1 p2 _) as [c2 p2']; cbn [and_then];
    reflexivity.
Qed.

Lemma free_frame context proto count :
  code (snd (ir_free_register context proto count)) = code proto
  /\ constant_list (snd (ir_free_register context proto count)) = constant_list proto
  /\ protos (snd (ir_free_register context proto count)) = protos proto.
Proof. repeat split. Qed.

(** C2 (as amended).  In a prototype that has its code section, with
    [top_register] R below 255 and a pool in step that holds fewer than
    65535 entries, lowering the statement [callee("argument")] appends
    exactly a load-global to register R with the interned index of the
    callee, a load-constant to register R+1 with the interned index of the
    argument and a call with base R, B = 2 and C = 1, in this order;
    [top_register] is R again afterwards; and in the pool afterwards the
    entries at the two indices are the string constants of the callee and
    of the argument. *)
Theorem call_with_string_argument
  context proto section callee argument wrapped listed :
  code proto = Some section ->
  0 <= top_register proto < 255 ->
  pool_in_step (constant_list proto) ->
  Z.of_nat (length (constants (constant_list proto))) < 65535 ->
  let R := top_register proto in
  let '(callee_index, proto1) := ir_constant_string proto callee in
  let '(argument_index, proto2) := ir_constant_string proto1 argument in
  exists context' proto' section',
    ir_build_proto context proto (call_statement callee argument wrapped listed)
    = Some (context', proto')
    /\ code proto' = Some section'
    /\ instructions section'
       = instructions section
         ++ [iABx IR_GETGLOBAL R callee_index;
             iABx IR_LOADK (R + 1) argument_index;
             iABC IR_CALL R 2 1]
    /\ top_register proto' = R
    /\ constant_list proto' = constant_list proto2
    /\ nth_error (constants (constant_list proto')) (Z.to_nat callee_index)
       = Some (CONSTANT_STRING (sym_id callee))
    /\ nth_error (constants (constant_list proto')) (Z.to_nat argument_index)
       = Some (CONSTANT_STRING (sym_id argument)).
Proof.
  intros Hcode Htop Hstep Hlen R.
  rewrite build_call_statement, build_global.
  rewrite ir_constant_string_intern.
  pose proof (interned_string_found proto callee Hstep) as N1.
  pose proof (intern_frame (is_string (sym_id callee)) (CONSTANT_STRING (sym_id callee))
                proto) as (Ft & _ & Fc & _).
  pose proof (intern_in_step (is_string (sym_id callee)) (CONSTANT_STRING (sym_id callee))
                proto Hstep) as In1.
  destruct (intern (is_string (sym_id callee)) (CONSTANT_STRING (sym_id callee)) proto)
    as [i1 q1].
  cbn [fst snd and_then] in *. cbv zeta in In1. destruct In1 as (B1 & L1 & S1).
  rewrite Hcode in Fc.
  pose proof (emit_with_register_spec context q1
                (fun r => ir_instruction_ABx IR_GETGLOBAL r i1) section Fc) as Em1.
  destruct (emit_with_register context q1 _) as [c1 p1].
  destruct Em1 as (C1 & T1 & P1 & _).
  rewrite build_string. cbn [and_then].
  rewrite !ir_constant_string_intern.
  pose proof (intern_same_pool (is_string (sym_id argument))
                (CONSTANT_STRING (sym_id argument)) q1 p1 P1) as (Ei & Ep).
  pose proof (intern_frame (is_string (sym_id argument))
                (CONSTANT_STRING (sym_id argument)) p1) as (Gt & _ & Gc & _).
  assert (Hstep1 : pool_in_step (constant_list q1))
    by (split; [exact S1 | unfold UINT_MAX; lia]).
  pose proof (intern_in_step (is_string (sym_id argument))
                (CONSTANT_STRING (sym_id argument)) q1 Hstep1) as In2.
  pose proof (interned_string_found q1 argument Hstep1) as N2.
  pose proof (intern_grows (is_string (sym_id argument))
                (CONSTANT_STRING (sym_id argument)) q1) as (grown & Gr & _).
  destruct (intern (is_string (sym_id argument)) (CONSTANT_STRING (sym_id argument)) q1)
    as [i2 q2].
  destruct (intern (is_string (sym_id argument)) (CONSTANT_STRING (sym_id argument)) p1)
    as [i2' p2].
  cbn [fst snd] in *. subst i2'. cbv zeta in In2. destruct In2 as (B2 & _ & _).
  rewrite C1 in Gc.
  pose proof (emit_with_register_spec c1 p2
                (fun r => ir_instruction_ABx IR_LOADK r i2) _ Gc) as Em2.
  destruct (emit_with_register c1 p2 _) as [c2 p2'].
  destruct Em2 as (C2 & T2 & P2 & _).
  pose proof (free_frame c2 p2' 2) as (Rc & Rp & _).
  pose proof (free_top c2 p2' 2) as Rt.
  destruct (ir_free_register c2 p2' 2) as [c3 p3]. cbn [snd] in *.
  rewrite C2 in Rc.
  eexists c3, _, _. split; [reflexivity|].
  pose proof (append_code_frame p3 (ir_instruction_ABC IR_CALL (top_register proto) 2 1))
    as (At & _ & Ap & _).
  split; [apply append_code_some; exact Rc|].
  assert (U1 : to_uchar (top_register proto + 1) = top_register proto + 1)
    by (apply to_uchar_small; lia).
  repeat split.
  - rewrite !ir_append_instructions, <- !app_assoc. cbn [app].
    unfold ir_instruction_ABx, ir_instruction_ABC, R.
    rewrite !to_ushort_small by lia.
    rewrite Gt, T1, Ft, U1. reflexivity.
  - rewrite At, Rt, T2, Gt, T1, Ft.
    replace (to_uchar (to_uchar (top_register proto + 1) + 1) - 2)
      with (to_uchar (top_register proto + 2) - 2).
    + rewrite to_uchar_add_sub. apply to_uchar_small. unfold R. lia.
    + f_equal. unfold to_uchar. rewrite Zplus_mod_idemp_l. f_equal. lia.
  - rewrite Ap, Rp, P2. exact Ep.
  - rewrite Ap, Rp, P2, Ep, Gr. rewrite nth_error_app1; [exact N1|].
    apply nth_error_Some. rewrite N1. discriminate.
  - rewrite Ap, Rp, P2, Ep. exact N2.
Qed.

(** A prototype after [ir_build]'s prologue, the global 1 called with the
    string 2: [print("hi")] as the first statement of a chunk. *)
Lemma call_with_string_argument_witness :
  let callee := {| sym_id := 1 |} in
  let argument := {| sym_id := 2 |} in
  code main_prototype = Some (ir_section_new (iABC IR_VARARGPREP 0 0 0))
  /\ 0 <= top_register main_prototype < 255
  /\ pool_in_step (constant_list main_prototype)
  /\ Z.of_nat (length (constants (constant_list main_prototype))) < 65535
  /\ exists context' proto' section',
       ir_build_proto no_errors main_prototype (call_statement callee argument true false)
       = Some (context', proto')
       /\ code proto' = Some section'
       /\ instructions section'
          = [iABC IR_VARARGPREP 0 0 0; iABx IR_GETGLOBAL 0 0; iABx IR_LOADK 1 1;
             iABC IR_CALL 0 2 1]
       /\ top_register proto' = 0
       /\ constants (constant_list proto') = [CONSTANT_STRING 1; CONSTANT_STRING 2].
Proof.
  intros callee argument.
  assert (H1 : code main_prototype = Some (ir_section_new (iABC IR_VARARGPREP 0 0 0)))
    by reflexivity.
  assert (H2 : 0 <= top_register main_prototype < 255) by (cbn; lia).
  assert (H3 : pool_in_step (constant_list main_prototype))
    by (split; reflexivity).
  assert (H4 : Z.of_nat (length (constants (constant_list main_prototype))) < 65535)
    by reflexivity.
  repeat (split; [assumption|]).
  pose proof (call_with_string_argument no_errors main_prototype _ callee argument
                true false H1 H2 H3 H4) as H.
  vm_compute in H. destruct H as (c & p & s & E & C & I & T & P & _).
  exists c, p, s. vm_compute.
  exact (conj E (conj C (conj I (conj T (f_equal constants P))))).
Defined.

(** C2 as stated fails where [top_register] is 255, a state the Builder
    reaches by itself: lowering [f(g())] as the first statement of a chunk
    leaves [top_register] at 255, since the call in argument position has
    given its register back before the outer call frees two.  Lowering
    [print("hi")] there, R being 255, loads the global into register 255
    and the string constant into register 0, not R + 1, and counts two
    faults. *)
Lemma call_at_last_register_wraps :
  let print := {| sym_id := 3 |} in
  let hi := {| sym_id := 4 |} in
  exists context proto section context' proto' section',
    ir_build_proto no_errors main_prototype
      (NODE_EXPRESSION_STATEMENT (Some call_of_call)) = Some (context, proto)
    /\ code proto = Some section
    /\ top_register proto = 255
    /\ ir_build_proto context proto (call_statement print hi false false)
       = Some (context', proto')
    /\ code proto' = Some section'
    /\ instructions section'
       = instructions section
         ++ [iABx IR_GETGLOBAL 255 2; iABx IR_LOADK 0 3; iABC IR_CALL 255 2 1]
    /\ 0 <> top_register proto + 1
    /\ error_count context' = error_count context + 2.
Proof.
  intros print hi.
  destruct (ir_build_proto no_errors main_prototype
              (NODE_EXPRESSION_STATEMENT (Some call_of_call)))
    as [[context proto]|] eqn:E1; [|vm_compute in E1; discriminate].
  pose proof E1 as V1. vm_compute in V1. injection V1 as Vc Vp.
  destruct (ir_build_proto context proto (call_statement print hi false false))
    as [[context' proto']|] eqn:E2;
    [|rewrite <- Vc, <- Vp in E2; vm_compute in E2; discriminate].
  pose proof E2 as V2. rewrite <- Vc, <- Vp in V2. vm_compute in V2.
  injection V2 as Wc Wp.
  subst context proto context' proto'.
  eexists _, _, _, _, _, _.
  split; [reflexivity|]. split; [reflexivity|]. split; [reflexivity|].
  split; [exact E2|]. split; [reflexivity|]. split; [reflexivity|].
  split; [vm_compute; discriminate | reflexivity].
Qed.



(** C5 (what the code does).  In a prototype that has its code section,
    lowering a reference to an identifier that is not global leaves the
    context, and with it the error counter, as it was, and appends the
    instruction pointer that was never assigned. *)
Theorem local_identifier_appends_unassigned context proto section s :
  code proto = Some section ->
  exists proto' section',
    ir_build_proto context proto (NODE_IDENTIFIER s false) = Some (context, proto')
    /\ code proto' = Some section'
    /\ instructions section' = instructions section ++ [indeterminate]
    /\ top_register proto' = top_register proto
    /\ constant_list proto' = constant_list proto.
Proof.
  intros Hcode. cbn [ir_build_proto].
  pose proof (append_code_frame proto indeterminate) as (At & _ & Ap & _).
  eexists _, _. repeat split.
  - apply append_code_some. exact Hcode.
  - apply ir_append_instructions.
  - exact At.
  - exact Ap.
Qed.

(** A reference to the local 3 right after [ir_build]'s prologue. *)
Lemma local_identifier_appends_unassigned_witness :
  code main_prototype = Some (ir_section_new (iABC IR_VARARGPREP 0 0 0))
  /\ exists proto' section',
       ir_build_proto no_errors main_prototype (NODE_IDENTIFIER {| sym_id := 3 |} false)
       = Some (no_errors, proto')
       /\ code proto' = Some section'
       /\ instructions section' = [iABC IR_VARARGPREP 0 0 0; indeterminate].
Proof.
  assert (H1 : code main_prototype = Some (ir_section_new (iABC IR_VARARGPREP 0 0 0)))
    by reflexivity.
  split; [exact H1|].
  destruct (local_identifier_appends_unassigned no_errors main_prototype _
              {| sym_id := 3 |} H1) as (p & s & E & C & I & _).
  exists p, s. exact (conj E (conj C I)).
Defined.

Lemma keeps_refl proto : keeps proto proto.
Proof. split; auto. Qed.

Lemma keeps_trans p1 p2 p3 : keeps p1 p2 -> keeps p2 p3 -> keeps p1 p3.
Proof. intros [A1 B1] [A2 B2]. split; [auto | congruence]. Qed.

Lemma keeps_append_code proto i : keeps proto (append_code proto i).
Proof.
  unfold keeps, append_code. destruct (code proto); cbn; split; auto. discriminate.
Qed.

Lemma keeps_emit context proto make :
  keeps proto (snd (emit_with_register context proto make)).
Proof.
  unfold emit_with_register, ir_allocate_register, append_code, keeps.
  destruct (top_register proto + 1 >? UCHAR_MAX);
    cbn; destruct (_ >? max_stack_size proto); cbn;
    destruct (code proto); cbn; split; auto; discriminate.
Qed.

Lemma keeps_intern test c proto : keeps proto (snd (intern test c proto)).
Proof.
  destruct (intern_frame test c proto) as (_ & _ & C & _ & S).
  split; [rewrite C; auto | exact S].
Qed.

Lemma keeps_free context proto count :
  keeps proto (snd (ir_free_register context proto count)).
Proof. split; auto. Qed.

Lemma keeps_proto_append proto child : keeps proto (ir_proto_append proto child).
Proof. unfold ir_proto_append. destruct (protos proto); split; auto. Qed.

(** Whatever the Builder lowers, it leaves the code section of the
    prototype in place and the size field of its child list where it was. *)
Lemma ir_build_proto_keeps n :
  forall context proto context' proto',
    ir_build_proto context proto n = Some (context', proto') ->
    keeps proto proto'.
Proof.
  assert (Behind : forall o, holds_behind
            (fun n => forall context proto context' proto',
                        ir_build_proto context proto n = Some (context', proto') ->
                        keeps proto proto') o ->
          forall context proto context' proto',
            lower context proto o = Some (context', proto') -> keeps proto proto').
  { intros [n'|] H context proto context' proto' E; cbn in *.
    - eapply H; eassumption.
    - injection E as _ <-. apply keeps_refl. }
  induction n as [e He | f a Hf Ha | s | i Hi | v | s g | i st Hi Hst
                 | params b Hb | i e k Hi He | ] using node_nested_ind;
    intros context proto context' proto' E; cbn [ir_build_proto] in E.
  - exact (Behind e He _ _ _ _ E).
  - fold (lower context proto f) in E.
    destruct (lower context proto f) as [[c1 p1]|] eqn:E1; [|discriminate].
    cbn [and_then] in E. fold (lower c1 p1 a) in E.
    destruct (lower c1 p1 a) as [[c2 p2]|] eqn:E2; [|discriminate].
    cbn [and_then] in E.
    pose proof (keeps_free c2 p2 (to_uchar (args_size a + 1))) as K.
    destruct (ir_free_register c2 p2 _) as [c3 p3]. injection E as _ <-.
    eapply keeps_trans; [exact (Behind f Hf _ _ _ _ E1)|].
    eapply keeps_trans; [exact (Behind a Ha _ _ _ _ E2)|].
    eapply keeps_trans; [exact K | apply keeps_append_code].
  - rewrite ir_constant_string_intern in E.
    pose proof (keeps_intern (is_string (sym_id s)) (CONSTANT_STRING (sym_id s)) proto) as K.
    destruct (intern _ _ proto) as [index q]. cbn [snd] in K.
    pose proof (keeps_emit context q (fun r => ir_instruction_ABx IR_LOADK r index)) as K'.
    destruct (emit_with_register context q _) as [c1 p1]. injection E as _ <-.
    eapply keeps_trans; eassumption.
  - exact (Behind i Hi _ _ _ _ E).
  - destruct (fits_sBx v).
    + pose proof (keeps_emit context proto
                    (fun r => ir_instruction_AsBx IR_LOADI r (double_to_short v))) as K.
      destruct (emit_with_register context proto _) as [c1 p1]. injection E as _ <-.
      exact K.
    + rewrite ir_constant_number_intern in E.
      pose proof (keeps_intern (is_number v) (CONSTANT_NUMBER v) proto) as K.
      destruct (intern _ _ proto) as [index q]. cbn [snd] in K.
      destruct (index <=? UINT16_MAX).
      * pose proof (keeps_emit context q (fun r => ir_instruction_ABx IR_LOADK r index))
          as K'.
        destruct (emit_with_register context q _) as [c1 p1]. injection E as _ <-.
        eapply keeps_trans; eassumption.
      * pose proof (keeps_emit context q (fun r => ir_instruction_ABx IR_LOADKX r 0))
          as K'.
        destruct (emit_with_register context q _) as [c1 p1]. injection E as _ <-.
        eapply keeps_trans; [exact K|].
        eapply keeps_trans; [exact K' | apply keeps_append_code].
  - destruct g.
    + rewrite ir_constant_string_intern in E.
      pose proof (keeps_intern (is_string (sym_id s)) (CONSTANT_STRING (sym_id s)) proto)
        as K.
      destruct (intern _ _ proto) as [index q]. cbn [snd] in K.
      pose proof (keeps_emit context q (fun r => ir_instruction_ABx IR_GETGLOBAL r index))
        as K'.
      destruct (emit_with_register context q _) as [c1 p1]. injection E as _ <-.
      eapply keeps_trans; eassumption.
    + injection E as _ <-. apply keeps_append_code.
  - fold (lower context proto i) in E.
    destruct (lower context proto i) as [[c1 p1]|] eqn:E1; [|discriminate].
    cbn [and_then] in E. fold (lower c1 p1 st) in E.
    eapply keeps_trans; [exact (Behind i Hi _ _ _ _ E1)|].
    exact (Behind st Hst _ _ _ _ E).
  - destruct params as [params|]; [|discriminate].
    destruct (namelist params) as [names|]; [|discriminate].
    fold (lower context proto b) in E.
    destruct (lower context proto b) as [[c1 p1]|] eqn:E1; [|discriminate].
    cbn [and_then] in E.
    match type of E with
    | Some (emit_with_register ?c ?q ?make) = _ =>
        pose proof (keeps_emit c q make) as K;
        destruct (emit_with_register c q make) as [c2 p2]
    end.
    injection E as _ <-.
    eapply keeps_trans; [exact (Behind b Hb _ _ _ _ E1)|].
    eapply keeps_trans; [apply keeps_append_code|].
    eapply keeps_trans; [apply keeps_proto_append | exact K].
  - fold (lower context proto i) in E.
    destruct (lower context proto i) as [[c1 p1]|] eqn:E1; [|discriminate].
    cbn [and_then] in E. fold (lower c1 p1 e) in E.
    eapply keeps_trans; [exact (Behind i Hi _ _ _ _ E1)|].
    exact (Behind e He _ _ _ _ E).
  - injection E as _ <-. apply keeps_refl.
Qed.

(** C1 (what the code does).  When the enclosing prototype has its code
    section and the body of a nested function has been lowered, the body
    went into the enclosing prototype, which then receives a return with
    zero results and a make-closure whose index is the size field of its
    child list minus one, a field that lowering leaves where it was; the
    child that is registered last in the child list carries the vararg flag
    and the parameter count but has no code section at all: neither the
    argument preparation, nor the body, nor the return. *)
Theorem function_body_lowered_into_enclosing
  context proto section params names body context1 proto1 :
  code proto = Some section ->
  namelist params = Some names ->
  lower context proto body = Some (context1, proto1) ->
  exists context' proto' section1 section' child,
    ir_build_proto context proto (NODE_FUNCTION_BODY (Some params) body)
    = Some (context', proto')
    /\ code proto1 = Some section1
    /\ code proto' = Some section'
    /\ instructions section'
       = instructions section1
         ++ [iABC IR_RETURN 0 1 0;
             iABx IR_CLOSURE (top_register proto1) (to_ushort (protos_size proto - 1))]
    /\ protos proto' = protos proto1 ++ [child]
    /\ protos_size proto' = protos_size proto
    /\ code child = None
    /\ is_vararg child = vararg params
    /\ parameters_size child = name_list_size names.
Proof.
  intros Hsection Hnames Hbody.
  assert (K : keeps proto proto1).
  { destruct body as [b|]; cbn in Hbody.
    - eapply ir_build_proto_keeps; eassumption.
    - injection Hbody as _ <-. apply keeps_refl. }
  destruct K as [Kc Ks].
  destruct (code proto1) as [section1|] eqn:Hcode;
    [|exfalso; apply Kc; [rewrite Hsection; discriminate | reflexivity]].
  cbn [ir_build_proto]. rewrite Hnames.
  unfold lower in Hbody.
  replace (match body with
           | Some b => ir_build_proto context proto b
           | None => Some (context, proto)
           end) with (Some (context1, proto1))
    by (rewrite <- Hbody; destruct body; reflexivity).
  cbn [and_then].
  set (child := Build_ir_proto (vararg params) (name_list_size names) _ _ _ _ _ _).
  pose proof (append_code_some proto1 section1 (ir_instruction_ABC IR_RETURN 0 1 0) Hcode)
    as C1.
  pose proof (append_code_frame proto1 (ir_instruction_ABC IR_RETURN 0 1 0))
    as (T1 & _ & _ & P1 & S1).
  set (returned := append_code proto1 (ir_instruction_ABC IR_RETURN 0 1 0)) in *.
  assert (A : code (ir_proto_append returned child) = code returned
              /\ top_register (ir_proto_append returned child) = top_register returned
              /\ protos (ir_proto_append returned child) = protos returned ++ [child]
              /\ protos_size (ir_proto_append returned child) = protos_size returned).
  { unfold ir_proto_append. destruct (protos returned); cbn; auto. }
  destruct A as (A1 & A2 & A3 & A4).
  rewrite C1 in A1.
  pose proof (emit_with_register_spec context1 (ir_proto_append returned child)
                (fun r => ir_instruction_ABx IR_CLOSURE r
                            (protos_size (ir_proto_append returned child) - 1))
                (ir_append (Some section1) (ir_instruction_ABC IR_RETURN 0 1 0)) A1)
    as Em.
  destruct (emit_with_register context1 (ir_proto_append returned child) _) as [c2 p2].
  destruct Em as (E1 & _ & _ & E4 & E5).
  eexists c2, p2, section1, _, child.
  split; [reflexivity|]. split; [reflexivity|]. split; [exact E1|].
  split.
  { rewrite !ir_append_instructions, <- app_assoc. cbn [app].
    rewrite A2, A4, T1, S1, Ks. reflexivity. }
  split; [rewrite E4, A3, P1; reflexivity|].
  split; [rewrite E5, A4, S1, Ks; reflexivity|].
  split; [reflexivity|]. split; reflexivity.
Qed.

(** [function() print("hi") end] right after [ir_build]'s prologue: the
    three instructions of the call, the return and the make-closure all
    land in the main prototype, and the child has no code. *)
Lemma function_body_lowered_into_enclosing_witness :
  code main_prototype = Some (ir_section_new (iABC IR_VARARGPREP 0 0 0))
  /\ exists context1 proto1,
    lower no_errors main_prototype
      (Some (call_statement {| sym_id := 1 |} {| sym_id := 2 |} true false))
    = Some (context1, proto1)
    /\ exists context' proto' section' child,
         ir_build_proto no_errors main_prototype closure_of_call = Some (context', proto')
         /\ code proto' = Some section'
         /\ instructions section'
            = [iABC IR_VARARGPREP 0 0 0; iABx IR_GETGLOBAL 0 0; iABx IR_LOADK 1 1;
               iABC IR_CALL 0 2 1; iABC IR_RETURN 0 1 0; iABx IR_CLOSURE 0 0]
         /\ protos proto' = [child]
         /\ code child = None.
Proof.
  assert (H1 : code main_prototype = Some (ir_section_new (iABC IR_VARARGPREP 0 0 0)))
    by reflexivity.
  split; [exact H1|].
  destruct (lower no_errors main_prototype
              (Some (call_statement {| sym_id := 1 |} {| sym_id := 2 |} true false)))
    as [[context1 proto1]|] eqn:Hbody; [|vm_compute in Hbody; discriminate].
  pose proof Hbody as Hb. vm_compute in Hb. injection Hb as Hc Hp.
  exists context1, proto1.
  split; [reflexivity|].
  destruct (function_body_lowered_into_enclosing no_errors main_prototype _
              {| namelist := Some {| name_list_size := 0 |}; vararg := false |}
              {| name_list_size := 0 |} _ _ _ H1 eq_refl Hbody)
    as (c & p & s1 & s & child & E & C1 & C & I & P & _ & N & _).
  exists c, p, s, child.
  rewrite <- Hp in C1, I, P. vm_compute in C1. injection C1 as C1.
  rewrite <- C1 in I.
  exact (conj E (conj C (conj I (conj P N)))).
Defined.

(** Two closures in a row in one chunk: the second child is at position 1
    of the child list of the main prototype, and its make-closure carries
    the index 0 like the first; both children are without code, and all
    the instructions are in the main prototype. *)
Lemma second_closure_indexed_zero :
  exists context proto section first_child second_child,
    ir_build no_errors
      (NODE_FUNCTION_BODY None (Some (NODE_BLOCK (Some closure_of_call)
                                                 (Some closure_of_call))))
    = Some (context, proto)
    /\ code proto = Some section
    /\ instructions section
       = [iABC IR_VARARGPREP 0 0 0;
          iABx IR_GETGLOBAL 0 0; iABx IR_LOADK 1 1; iABC IR_CALL 0 2 1;
          iABC IR_RETURN 0 1 0; iABx IR_CLOSURE 0 0;
          iABx IR_GETGLOBAL 1 0; iABx IR_LOADK 2 1; iABC IR_CALL 1 2 1;
          iABC IR_RETURN 0 1 0; iABx IR_CLOSURE 1 0;
          iABC IR_RETURN 0 1 0]
    /\ protos proto = [first_child; second_child]
    /\ code first_child = None
    /\ code second_child = None.
Proof. vm_compute. repeat eexists. Qed.

(** ** Prototype collector *)

(** More fuel does not change a result. *)
Lemma collect_children_more collect collect' rounds :
  (forall h a r, collect h a = Some r -> collect' h a = Some r) ->
  forall h list iter r,
    Collector.collect_children collect rounds h list iter = Some r ->
    forall rounds', (rounds <= rounds')%nat ->
    Collector.collect_children collect' rounds' h list iter = Some r.
Proof.
  intros Hc. induction rounds as [|rounds IH]; intros h list iter r H rounds' Hle.
  - destruct iter; [discriminate|]. destruct rounds'; exact H.
  - destruct iter as [child|]; [|destruct rounds'; exact H].
    destruct rounds' as [|rounds']; [lia|].
    cbn [Collector.collect_children] in *.
    destruct (collect h child) as [[h1 l1]|] eqn:E; [|discriminate].
    rewrite (Hc _ _ _ E). cbn [Collector.bind] in *.
    destruct (Collector.ir_proto_join h1 list l1) as [[h2 l2]|]; [|discriminate].
    cbn [Collector.bind] in *.
    destruct (Collector.get_next h2 (Some child)) as [following|]; [|discriminate].
    cbn [Collector.bind] in *.
    apply IH; [exact H | lia].
Qed.

Lemma ir_collect_protos_more fuel :
  forall h main r,
    Collector.ir_collect_protos fuel h main = Some r ->
    forall fuel', (fuel <= fuel')%nat ->
    Collector.ir_collect_protos fuel' h main = Some r.
Proof.
  induction fuel as [|fuel IH]; intros h main r H fuel' Hle; [discriminate|].
  destruct fuel' as [|fuel']; [lia|].
  cbn [Collector.ir_collect_protos] in *.
  destruct (PositiveMap.find main h) as [m|]; [|discriminate].
  cbn [Collector.bind] in *.
  destruct (Collector.collect_children (Collector.ir_collect_protos fuel) fuel h None
              (Collector.first (Collector.protos m))) as [[h1 l1]|] eqn:E; [|discriminate].
  rewrite (collect_children_more _ (Collector.ir_collect_protos fuel') fuel
             (fun h a r Hr => IH h a r Hr fuel' ltac:(lia)) _ _ _ _ E fuel' ltac:(lia)).
  exact H.
Qed.

Lemma walk_more fuel :
  forall h iter l,
    Collector.walk fuel h iter = Some l ->
    forall fuel', (fuel <= fuel')%nat -> Collector.walk fuel' h iter = Some l.
Proof.
  induction fuel as [|fuel IH]; intros h iter l H fuel' Hle.
  - destruct iter; [discriminate|]. destruct fuel'; exact H.
  - destruct iter as [a|]; [|destruct fuel'; exact H].
    destruct fuel' as [|fuel']; [lia|].
    cbn [Collector.walk] in *.
    destruct (Collector.get_next h (Some a)) as [following|]; [|discriminate].
    cbn [Collector.bind] in *.
    destruct (Collector.walk fuel h following) as [l'|] eqn:E; [|discriminate].
    rewrite (IH _ _ _ E fuel') by lia. exact H.
Qed.

Lemma collected_more fuel h main l :
  Collector.collected fuel h main = Some l ->
  forall fuel', (fuel <= fuel')%nat -> Collector.collected fuel' h main = Some l.
Proof.
  unfold Collector.collected. intros H fuel' Hle.
  destruct (Collector.ir_collect_protos fuel h main) as [[h1 l1]|] eqn:E; [|discriminate].
  rewrite (ir_collect_protos_more _ _ _ _ E fuel' Hle).
  cbn [Collector.bind] in *. eapply walk_more; eassumption.
Qed.

Lemma collect_tree_more fuel t l :
  collect_tree fuel t = Some l ->
  forall fuel', (fuel <= fuel')%nat -> collect_tree fuel' t = Some l.
Proof.
  unfold collect_tree. intros H fuel' Hle.
  destruct (Collector.lay_out _ t) as [h|]; [|discriminate].
  cbn [Collector.bind] in *. eapply collected_more; eassumption.
Qed.

(** Two closures side by side are chained in declaration order, before
    the main prototype, in the list the collector holds at its end. *)
Lemma two_closures_collected fuel :
  (3 <= fuel)%nat ->
  collect_tree fuel two_closures = Some [2; 3; 1]%positive
  /\ Collector.post_order two_closures = [2; 3; 1]%positive.
Proof.
  intros Hle. split; [|reflexivity].
  apply (collect_tree_more 3); [vm_compute; reflexivity | exact Hle].
Qed.

(** A closure inside the last closure is chained too. *)
Lemma closure_in_second_collected fuel :
  (4 <= fuel)%nat ->
  collect_tree fuel closure_in_second = Some [2; 4; 3; 1]%positive
  /\ Collector.post_order closure_in_second = [2; 4; 3; 1]%positive.
Proof.
  intros Hle. split; [|reflexivity].
  apply (collect_tree_more 4); [vm_compute; reflexivity | exact Hle].
Qed.

(** On a tree two levels deep, which the Builder does not make (it
    registers every closure in the prototype it was given), the list the
    collector holds at its end misses a prototype.  For a main prototype 1
    with the closures 2 and 3, of which 2 has the closure 4 of its own, it
    is, whatever fuel is given beyond 4, the sequence 4, 2, 1: appending 2
    after its child 4 overwrites the [next] link that led from 2 to its
    sibling 3, the loop over the children of 1 stops there, and 3 is never
    collected.  The post-order of the tree is 4, 2, 3, 1. *)
Lemma collector_loses_sibling_of_parent fuel :
  (4 <= fuel)%nat ->
  collect_tree fuel closure_in_first = Some [4; 2; 1]%positive
  /\ Collector.post_order closure_in_first = [4; 2; 3; 1]%positive
  /\ collect_tree fuel closure_in_first <> Some (Collector.post_order closure_in_first).
Proof.
  intros Hle.
  assert (E : collect_tree fuel closure_in_first = Some [4; 2; 1]%positive)
    by (apply (collect_tree_more 4); [vm_compute; reflexivity | exact Hle]).
  split; [exact E|]. split; [reflexivity|].
  rewrite E. discriminate.
Qed.

(* ================================================================== *)
(** * Further properties *)

(** ** Register allocator, operation by operation *)

Lemma ir_proto_eq p q :
  is_vararg p = is_vararg q -> parameters_size p = parameters_size q ->
  max_stack_size p = max_stack_size q -> top_register p = top_register q ->
  code p = code q -> constant_list p = constant_list q ->
  protos p = protos q -> protos_size p = protos_size q ->
  p = q.
Proof. destruct p, q; cbn; intros; subst; reflexivity. Qed.

(** What an allocation leaves alone. *)
Lemma allocate_frame context proto count :
  let proto' := snd (ir_allocate_register context proto count) in
  is_vararg proto' = is_vararg proto
  /\ parameters_size proto' = parameters_size proto
  /\ code proto' = code proto
  /\ constant_list proto' = constant_list proto
  /\ protos proto' = protos proto
  /\ protos_size proto' = protos_size proto.
Proof.
  unfold ir_allocate_register. cbn.
  destruct (_ >? max_stack_size proto); repeat split.
Qed.

Lemma allocate_result context proto count :
  fst (fst (ir_allocate_register context proto count)) = top_register proto
  /\ snd (fst (ir_allocate_register context proto count))
     = if top_register proto + count >? UCHAR_MAX then count_error context else context.
Proof. split; reflexivity. Qed.

(** X1.  Without a fault two allocations in a row are one allocation of the
    sum: the second block starts right after the first, the error counter
    is untouched, and the prototype ends as after a single allocation of
    [a + b] registers. *)
Theorem allocations_are_contiguous context proto a b :
  0 <= top_register proto ->
  0 <= a -> 0 <= b ->
  top_register proto + a + b <= 255 ->
  let '(first_base, context1, proto1) := ir_allocate_register context proto a in
  let '(second_base, context2, proto2) := ir_allocate_register context1 proto1 b in
  first_base = top_register proto
  /\ second_base = first_base + a
  /\ context2 = context
  /\ proto2 = snd (ir_allocate_register context proto (a + b)).
Proof.
  intros Ht Ha Hb Hsum.
  pose proof (allocate_result context proto a) as [R1 C1].
  pose proof (allocate_top context proto a) as T1.
  pose proof (allocate_max context proto a) as M1.
  pose proof (allocate_frame context proto a) as F1.
  destruct (ir_allocate_register context proto a) as [[r1 c1] p1].
  cbn [fst snd] in *.
  pose proof (allocate_result c1 p1 b) as [R2 C2].
  pose proof (allocate_top c1 p1 b) as T2.
  pose proof (allocate_max c1 p1 b) as M2.
  pose proof (allocate_frame c1 p1 b) as F2.
  destruct (ir_allocate_register c1 p1 b) as [[r2 c2] p2].
  cbn [fst snd] in *.
  pose proof (allocate_top context proto (a + b)) as T3.
  pose proof (allocate_max context proto (a + b)) as M3.
  pose proof (allocate_frame context proto (a + b)) as F3.
  set (p3 := snd (ir_allocate_register context proto (a + b))) in *.
  rewrite to_uchar_small in T1 by lia. rewrite to_uchar_small in M1 by lia.
  rewrite T1 in T2, M2, R2, C2.
  rewrite to_uchar_small in T2 by lia. rewrite to_uchar_small in M2 by lia.
  rewrite to_uchar_small in T3 by lia. rewrite to_uchar_small in M3 by lia.
  unfold UCHAR_MAX in *.
  destruct (top_register proto + a >? 255) eqn:E1; [lia|].
  destruct (top_register proto + a + b >? 255) eqn:E2; [lia|].
  cbv zeta in F1, F2, F3.
  destruct F1 as (A1 & A2 & A3 & A4 & A5 & A6).
  destruct F2 as (B1 & B2 & B3 & B4 & B5 & B6).
  destruct F3 as (D1 & D2 & D3 & D4 & D5 & D6).
  split; [exact R1|]. split; [rewrite R2, R1; reflexivity|].
  split; [rewrite C2; exact C1|].
  apply ir_proto_eq; try congruence; lia.
Qed.

(** Three registers, then four, from a fresh prototype. *)
Lemma allocations_are_contiguous_witness :
  let '(first_base, context1, proto1) := ir_allocate_register no_errors ir_proto_new 3 in
  let '(second_base, context2, proto2) := ir_allocate_register context1 proto1 4 in
  first_base = 0 /\ second_base = 3 /\ top_register proto2 = 7
  /\ max_stack_size proto2 = 7.
Proof.
  assert (H0 : 0 <= top_register ir_proto_new) by (cbn; lia).
  assert (H1 : 0 <= 3) by lia.
  assert (H2 : 0 <= 4) by lia.
  assert (H3 : top_register ir_proto_new + 3 + 4 <= 255) by (cbn; lia).
  pose proof (allocations_are_contiguous no_errors ir_proto_new 3 4 H0 H1 H2 H3) as H.
  destruct (ir_allocate_register no_errors ir_proto_new 3) as [[r1 c1] p1].
  destruct (ir_allocate_register c1 p1 4) as [[r2 c2] p2].
  destruct H as (E1 & E2 & _ & E4).
  rewrite E4, E2, E1. vm_compute. repeat split.
Defined.

(** X2.  Whatever the state before, an allocation leaves [top_register]
    within 0..255 and not above [max_stack_size], and never lowers
    [max_stack_size]; a free leaves [top_register] within 0..255 and
    [max_stack_size] as it was. *)
Theorem allocator_keeps_registers_in_range context proto count :
  let '(_, _, allocated) := ir_allocate_register context proto count in
  let '(_, freed) := ir_free_register context proto count in
  0 <= top_register allocated <= 255
  /\ top_register allocated <= max_stack_size allocated
  /\ max_stack_size proto <= max_stack_size allocated
  /\ 0 <= top_register freed <= 255
  /\ max_stack_size freed = max_stack_size proto.
Proof.
  pose proof (allocate_top context proto count) as T.
  pose proof (allocate_max context proto count) as M.
  pose proof (free_top context proto count) as F.
  destruct (ir_allocate_register context proto count) as [[r c1] p1].
  destruct (ir_free_register context proto count) as [c2 p2] eqn:E.
  cbn [snd] in *.
  pose proof (to_uchar_range (top_register proto + count)).
  pose proof (to_uchar_range (top_register proto - count)).
  assert (M2 : max_stack_size p2 = max_stack_size proto)
    by (change p2 with (snd (c2, p2)); rewrite <- E; reflexivity).
  repeat split; lia.
Qed.

(** ** Constant pool, entry by entry *)

(** X3.  Interning never removes or moves an entry: the pool afterwards is
    the pool before with at most one entry more at its end, and the size
    counter has moved by the number of entries added, for strings and for
    numbers alike. *)
Theorem interning_only_appends proto symbol value :
  (let '(_, proto') := ir_constant_string proto symbol in
   exists tail,
     constants (constant_list proto') = constants (constant_list proto) ++ tail
     /\ (tail = [] \/ tail = [CONSTANT_STRING (sym_id symbol)])
     /\ size (constant_list proto')
        = size (constant_list proto) + Z.of_nat (length tail))
  /\ (let '(_, proto') := ir_constant_number proto value in
      exists tail,
        constants (constant_list proto') = constants (constant_list proto) ++ tail
        /\ (tail = [] \/ tail = [CONSTANT_NUMBER value])
        /\ size (constant_list proto')
           = size (constant_list proto) + Z.of_nat (length tail)).
Proof.
  split.
  - rewrite ir_constant_string_intern.
    pose proof (intern_grows (is_string (sym_id symbol))
                  (CONSTANT_STRING (sym_id symbol)) proto) as G.
    destruct (intern _ _ proto) as [index proto']. exact G.
  - rewrite ir_constant_number_intern.
    pose proof (intern_grows (is_number value) (CONSTANT_NUMBER value) proto) as G.
    destruct (intern _ _ proto) as [index proto']. exact G.
Qed.

(** X4.  In a pool in step, the entry at the index [ir_constant_string]
    returns is the string constant of the symbol that was interned. *)
Theorem interned_string_is_at_its_index proto symbol :
  pool_in_step (constant_list proto) ->
  let '(index, proto') := ir_constant_string proto symbol in
  0 <= index
  /\ nth_error (constants (constant_list proto')) (Z.to_nat index)
     = Some (CONSTANT_STRING (sym_id symbol)).
Proof.
  intros S. rewrite ir_constant_string_intern.
  pose proof (intern_found (is_string (sym_id symbol))
                (CONSTANT_STRING (sym_id symbol)) proto S) as H.
  destruct (intern _ _ proto) as [index proto'].
  destruct H as (P & entry & N & [T | [E _]]).
  - split; [exact P|]. rewrite N. destruct entry as [sid|v]; [|discriminate].
    cbn in T. apply Z.eqb_eq in T. subst sid. reflexivity.
  - split; [exact P|]. rewrite N, E. reflexivity.
Qed.

(** The symbol 5 after ir_build's prologue. *)
Lemma interned_string_is_at_its_index_witness :
  pool_in_step (constant_list main_prototype)
  /\ let '(index, proto') := ir_constant_string main_prototype {| sym_id := 5 |} in
     0 <= index
     /\ nth_error (constants (constant_list proto')) (Z.to_nat index)
        = Some (CONSTANT_STRING 5).
Proof.
  assert (S : pool_in_step (constant_list main_prototype)) by (split; reflexivity).
  split; [exact S|].
  exact (interned_string_is_at_its_index main_prototype {| sym_id := 5 |} S).
Defined.

(** X5.  In a pool in step, the entry at the index [ir_constant_number]
    returns is a number constant: one that is [==] to the value that was
    interned, or, when no entry is, the value itself, just added. *)
Theorem interned_number_is_at_its_index proto value :
  pool_in_step (constant_list proto) ->
  let '(index, proto') := ir_constant_number proto value in
  0 <= index
  /\ exists held,
       nth_error (constants (constant_list proto')) (Z.to_nat index)
       = Some (CONSTANT_NUMBER held)
       /\ (double_eq held value = true
           \/ held = value /\ absent (is_number value) (constant_list proto)).
Proof.
  intros S. rewrite ir_constant_number_intern.
  pose proof (intern_found (is_number value) (CONSTANT_NUMBER value) proto S) as H.
  destruct (intern _ _ proto) as [index proto'].
  destruct H as (P & entry & N & [T | [E A]]).
  - split; [exact P|]. destruct entry as [sid|v]; [discriminate|].
    exists v. split; [exact N | left; exact T].
  - split; [exact P|]. exists value. rewrite N, E. split; [reflexivity|].
    right. split; [reflexivity | exact A].
Qed.

(** 0.5 after ir_build's prologue. *)
Lemma interned_number_is_at_its_index_witness :
  pool_in_step (constant_list main_prototype)
  /\ let '(index, proto') := ir_constant_number main_prototype one_half in
     0 <= index
     /\ exists held,
          nth_error (constants (constant_list proto')) (Z.to_nat index)
          = Some (CONSTANT_NUMBER held)
          /\ (double_eq held one_half = true
              \/ held = one_half /\ absent (is_number one_half) (constant_list main_prototype)).
Proof.
  assert (S : pool_in_step (constant_list main_prototype)) by (split; reflexivity).
  split; [exact S|].
  exact (interned_number_is_at_its_index main_prototype one_half S).
Defined.

(** ** The Builder, step by step *)

(** A relation between the state before and the state after that is
    reflexive, transitive and holds across each elementary step of the
    Builder holds across the lowering of any node. *)
Section builder_steps.
Variable R : ir_context -> ir_proto -> ir_context -> ir_proto -> Prop.
Hypothesis R_refl : forall c p, R c p c p.
Hypothesis R_trans :
  forall c1 p1 c2 p2 c3 p3, R c1 p1 c2 p2 -> R c2 p2 c3 p3 -> R c1 p1 c3 p3.
Hypothesis R_allocate :
  forall c p, R c p (snd (fst (ir_allocate_register c p 1)))
                    (snd (ir_allocate_register c p 1)).
Hypothesis R_free :
  forall c p count, 0 <= count <= 255 ->
    R c p (fst (ir_free_register c p count)) (snd (ir_free_register c p count)).
Hypothesis R_string : forall c p s, R c p c (snd (ir_constant_string p s)).
Hypothesis R_number : forall c p v, R c p c (snd (ir_constant_number p v)).
Hypothesis R_append : forall c p i, emitted p i -> R c p c (append_code p i).
Hypothesis R_child : forall c p child, blank child -> R c p c (ir_proto_append p child).

Lemma R_emit c p make :
  (forall r, emitted (snd (ir_allocate_register c p 1)) (make r)) ->
  R c p (fst (emit_with_register c p make)) (snd (emit_with_register c p make)).
Proof.
  intros E. unfold emit_with_register.
  pose proof (R_allocate c p) as A.
  destruct (ir_allocate_register c p 1) as [[r c1] p1]. cbn [fst snd] in *.
  eapply R_trans; [exact A | apply R_append; apply E].
Qed.

Lemma ir_build_proto_steps n :
  forall context proto context' proto',
    ir_build_proto context proto n = Some (context', proto') ->
    R context proto context' proto'.
Proof.
  assert (Behind : forall o, holds_behind
            (fun n => forall context proto context' proto',
                        ir_build_proto context proto n = Some (context', proto') ->
                        R context proto context' proto') o ->
          forall context proto context' proto',
            lower context proto o = Some (context', proto') ->
            R context proto context' proto').
  { intros [n'|] H context proto context' proto' E; cbn in *.
    - eapply H; eassumption.
    - injection E as <- <-. apply R_refl. }
  assert (Plain : forall p op (r index : Z),
             op <> IR_CLOSURE -> emitted p (ir_instruction_ABx op r index)).
  { intros p op r index Hop. destruct op; cbn; auto. congruence. }
  induction n as [e He | f a Hf Ha | s | i Hi | v | s g | i st Hi Hst
                 | params b Hb | i e k Hi He | ] using node_nested_ind;
    intros context proto context' proto' E; cbn [ir_build_proto] in E.
  - exact (Behind e He _ _ _ _ E).
  - fold (lower context proto f) in E.
    destruct (lower context proto f) as [[c1 p1]|] eqn:E1; [|discriminate].
    cbn [and_then] in E. fold (lower c1 p1 a) in E.
    destruct (lower c1 p1 a) as [[c2 p2]|] eqn:E2; [|discriminate].
    cbn [and_then] in E.
    pose proof (R_free c2 p2 (to_uchar (args_size a + 1))
                  (to_uchar_range _)) as K.
    destruct (ir_free_register c2 p2 _) as [c3 p3]. cbn [fst snd] in K.
    injection E as <- <-.
    eapply R_trans; [exact (Behind f Hf _ _ _ _ E1)|].
    eapply R_trans; [exact (Behind a Ha _ _ _ _ E2)|].
    eapply R_trans; [exact K | apply R_append; exact I].
  - pose proof (R_string context proto s) as K.
    destruct (ir_constant_string proto s) as [index q]. cbn [snd] in K.
    pose proof (R_emit context q (fun r => ir_instruction_ABx IR_LOADK r index)) as K'.
    destruct (emit_with_register context q _) as [c1 p1]. injection E as <- <-.
    eapply R_trans; [exact K | apply K'].
    intros r. apply Plain; discriminate.
  - exact (Behind i Hi _ _ _ _ E).
  - destruct (fits_sBx v).
    + pose proof (R_emit context proto
                    (fun r => ir_instruction_AsBx IR_LOADI r (double_to_short v))) as K.
      destruct (emit_with_register context proto _) as [c1 p1]. injection E as <- <-.
      apply K. intros r. exact I.
    + pose proof (R_number context proto v) as K.
      destruct (ir_constant_number proto v) as [index q]. cbn [snd] in K.
      destruct (index <=? UINT16_MAX).
      * pose proof (R_emit context q (fun r => ir_instruction_ABx IR_LOADK r index))
          as K'.
        destruct (emit_with_register context q _) as [c1 p1]. injection E as <- <-.
        eapply R_trans; [exact K | apply K'].
        intros r. apply Plain; discriminate.
      * pose proof (R_emit context q (fun r => ir_instruction_ABx IR_LOADKX r 0))
          as K'.
        destruct (emit_with_register context q _) as [c1 p1]. injection E as <- <-.
        cbn [fst snd] in K'.
        eapply R_trans; [exact K|].
        eapply R_trans; [apply K'; intros r; apply Plain; discriminate|].
        apply R_append. exact I.
  - destruct g.
    + pose proof (R_string context proto s) as K.
      destruct (ir_constant_string proto s) as [index q]. cbn [snd] in K.
      pose proof (R_emit context q (fun r => ir_instruction_ABx IR_GETGLOBAL r index))
        as K'.
      destruct (emit_with_register context q _) as [c1 p1]. injection E as <- <-.
      eapply R_trans; [exact K | apply K'].
      intros r. apply Plain; discriminate.
    + injection E as <- <-. apply R_append. exact I.
  - fold (lower context proto i) in E.
    destruct (lower context proto i) as [[c1 p1]|] eqn:E1; [|discriminate].
    cbn [and_then] in E. fold (lower c1 p1 st) in E.
    eapply R_trans; [exact (Behind i Hi _ _ _ _ E1)|].
    exact (Behind st Hst _ _ _ _ E).
  - destruct params as [params|]; [|discriminate].
    destruct (namelist params) as [names|]; [|discriminate].
    fold (lower context proto b) in E.
    destruct (lower context proto b) as [[c1 p1]|] eqn:E1; [|discriminate].
    cbn [and_then] in E.
    match type of E with
    | Some (emit_with_register ?c ?q ?make) = _ =>
        pose proof (R_emit c q make) as K;
        destruct (emit_with_register c q make) as [c2 p2]
    end.
    injection E as <- <-. cbn [fst snd] in K.
    eapply R_trans; [exact (Behind b Hb _ _ _ _ E1)|].
    eapply R_trans;
      [apply (R_append c1 p1 (ir_instruction_ABC IR_RETURN 0 1 0)); exact I|].
    eapply R_trans; [|apply K].
    { apply R_child. repeat split. }
    intros r. unfold ir_instruction_ABx, emitted.
    destruct (allocate_frame c1
                (ir_proto_append (append_code p1 (ir_instruction_ABC IR_RETURN 0 1 0))
                   (Build_ir_proto (vararg params) (name_list_size names)
                      (max_stack_size ir_proto_new) (top_register ir_proto_new)
                      (code ir_proto_new) (constant_list ir_proto_new)
                      (protos ir_proto_new) (protos_size ir_proto_new))) 1)
      as (_ & _ & _ & _ & _ & S).
    cbv zeta in S. rewrite S. reflexivity.
  - fold (lower context proto i) in E.
    destruct (lower context proto i) as [[c1 p1]|] eqn:E1; [|discriminate].
    cbn [and_then] in E. fold (lower c1 p1 e) in E.
    eapply R_trans; [exact (Behind i Hi _ _ _ _ E1)|].
    exact (Behind e He _ _ _ _ E).
  - injection E as <- <-. apply R_refl.
Qed.
End builder_steps.

(** A step that leaves the code, the pool and the children alone. *)
Lemma lowered_registers context proto context' proto' :
  error_count context <= error_count context' ->
  is_vararg proto' = is_vararg proto ->
  parameters_size proto' = parameters_size proto ->
  protos_size proto' = protos_size proto ->
  max_stack_size proto <= max_stack_size proto' ->
  0 <= top_register proto' <= 255 ->
  code proto' = code proto ->
  constant_list proto' = constant_list proto ->
  protos proto' = protos proto ->
  lowered context proto context' proto'.
Proof.
  intros He Hv Hp Hs Hm Ht Hc Hl Hch.
  unfold lowered. rewrite Hc, Hl, Hch.
  split; [exact He|]. split; [exact Hv|]. split; [exact Hp|]. split; [exact Hs|].
  split; [exact Hm|]. split; [intros _; exact Ht|]. split; [auto|].
  split.
  { intros s E. exists s, []. rewrite app_nil_r. cbn.
    split; [exact E|]. split; [reflexivity|]. split; [lia | constructor]. }
  split.
  { exists []. rewrite app_nil_r. cbn. split; [reflexivity | lia]. }
  split; [auto|].
  exists []. rewrite app_nil_r. split; [reflexivity | constructor].
Qed.

Lemma lowered_refl context proto : lowered context proto context proto.
Proof.
  unfold lowered.
  split; [lia|]. split; [reflexivity|]. split; [reflexivity|]. split; [reflexivity|].
  split; [lia|]. split; [auto|]. split; [auto|].
  split.
  { intros s E. exists s, []. rewrite app_nil_r. cbn.
    split; [exact E|]. split; [reflexivity|]. split; [lia | constructor]. }
  split.
  { exists []. rewrite app_nil_r. cbn. split; [reflexivity | lia]. }
  split; [auto|].
  exists []. rewrite app_nil_r. split; [reflexivity | constructor].
Qed.

Lemma emitted_same_size p q i : protos_size p = protos_size q -> emitted p i -> emitted q i.
Proof. intros E. unfold emitted. rewrite E. auto. Qed.

Lemma lowered_trans c1 p1 c2 p2 c3 p3 :
  lowered c1 p1 c2 p2 -> lowered c2 p2 c3 p3 -> lowered c1 p1 c3 p3.
Proof.
  intros (E1 & V1 & P1 & S1 & M1 & T1 & N1 & C1 & (t1 & L1 & Z1) & D1 & (n1 & H1 & B1))
         (E2 & V2 & P2 & S2 & M2 & T2 & N2 & C2 & (t2 & L2 & Z2) & D2 & (n2 & H2 & B2)).
  unfold lowered.
  split; [lia|]. split; [congruence|]. split; [congruence|]. split; [congruence|].
  split; [lia|]. split; [auto|]. split; [auto|].
  split.
  { intros s E. destruct (C1 s E) as (s1 & tail1 & Ea & Ia & Za & Fa).
    destruct (C2 s1 Ea) as (s2 & tail2 & Eb & Ib & Zb & Fb).
    exists s2, (tail1 ++ tail2).
    split; [exact Eb|]. split; [rewrite Ib, Ia, app_assoc; reflexivity|].
    split; [rewrite length_app; lia|].
    apply Forall_app. split; [exact Fa|].
    eapply Forall_impl; [|exact Fb]. intros i. apply emitted_same_size. exact S1. }
  split.
  { exists (t1 ++ t2). split; [rewrite L2, L1, app_assoc; reflexivity|].
    rewrite length_app. lia. }
  split.
  { intros Hb Hs Hd.
    assert (B : Z.of_nat (length (constants (constant_list p2))) < UINT_MAX).
    { rewrite L2, length_app in Hb. lia. }
    apply D2; [exact Hb | | apply D1; assumption].
    rewrite Z1, L1, length_app. lia. }
  exists (n1 ++ n2). split; [rewrite H2, H1, app_assoc; reflexivity|].
  apply Forall_app. split; assumption.
Qed.

Lemma lowered_allocate c p :
  lowered c p (snd (fst (ir_allocate_register c p 1))) (snd (ir_allocate_register c p 1)).
Proof.
  destruct (allocate_frame c p 1) as (F1 & F2 & F3 & F4 & F5 & F6).
  destruct (allocate_result c p 1) as [_ C].
  apply lowered_registers; try assumption.
  - rewrite C. destruct (_ >? _); cbn; lia.
  - rewrite allocate_max. lia.
  - rewrite allocate_top. apply to_uchar_range.
Qed.

Lemma lowered_free c p count :
  0 <= count <= 255 ->
  lowered c p (fst (ir_free_register c p count)) (snd (ir_free_register c p count)).
Proof.
  intros _. apply lowered_registers.
  - unfold ir_free_register. cbn. destruct (_ <? _); cbn; lia.
  - reflexivity.
  - reflexivity.
  - reflexivity.
  - rewrite free_max. lia.
  - rewrite free_top. apply to_uchar_range.
  - reflexivity.
  - reflexivity.
  - reflexivity.
Qed.

Lemma lowered_append c p i : emitted p i -> lowered c p c (append_code p i).
Proof.
  intros Em. unfold lowered.
  destruct (append_code_frame p i) as (T & M & L & Ch & S).
  assert (V : is_vararg (append_code p i) = is_vararg p
              /\ parameters_size (append_code p i) = parameters_size p)
    by (unfold append_code; destruct (code p); split; reflexivity).
  destruct V as [V P].
  rewrite T, M, L, Ch, S, V, P.
  split; [lia|]. split; [reflexivity|]. split; [reflexivity|]. split; [reflexivity|].
  split; [lia|]. split; [auto|].
  split; [intros N; unfold append_code; rewrite N; exact N|].
  split.
  { intros s E. exists (ir_append (Some s) i), [i].
    split; [apply append_code_some; exact E|].
    split; [apply ir_append_instructions|].
    split; [unfold ir_append; destruct (instructions s); cbn; lia|].
    constructor; [exact Em | constructor]. }
  split.
  { exists []. rewrite app_nil_r. cbn. split; [reflexivity | lia]. }
  split; [auto|].
  exists []. rewrite app_nil_r. split; [reflexivity | constructor].
Qed.

Lemma lowered_child c p child : blank child -> lowered c p c (ir_proto_append p child).
Proof.
  intros B. unfold lowered.
  assert (F : is_vararg (ir_proto_append p child) = is_vararg p
              /\ parameters_size (ir_proto_append p child) = parameters_size p
              /\ protos_size (ir_proto_append p child) = protos_size p
              /\ max_stack_size (ir_proto_append p child) = max_stack_size p
              /\ top_register (ir_proto_append p child) = top_register p
              /\ code (ir_proto_append p child) = code p
              /\ constant_list (ir_proto_append p child) = constant_list p
              /\ protos (ir_proto_append p child) = protos p ++ [child]).
  { unfold ir_proto_append. destruct (protos p); cbn; repeat split. }
  destruct F as (F1 & F2 & F3 & F4 & F5 & F6 & F7 & F8).
  rewrite F1, F2, F3, F4, F5, F6, F7, F8.
  split; [lia|]. split; [reflexivity|]. split; [reflexivity|]. split; [reflexivity|].
  split; [lia|]. split; [auto|]. split; [auto|].
  split.
  { intros s E. exists s, []. rewrite app_nil_r. cbn.
    split; [exact E|]. split; [reflexivity|]. split; [lia | constructor]. }
  split.
  { exists []. rewrite app_nil_r. cbn. split; [reflexivity | lia]. }
  split; [auto|].
  exists [child]. split; [reflexivity|]. constructor; [exact B | constructor].
Qed.

Lemma string_ids_app l l' : string_ids (l ++ l') = string_ids l ++ string_ids l'.
Proof. unfold string_ids. apply flat_map_app. Qed.

Lemma number_values_app l l' :
  number_values (l ++ l') = number_values l ++ number_values l'.
Proof. unfold number_values. apply flat_map_app. Qed.

Lemma absent_string_not_in symbol_id l :
  Forall (fun c => is_string symbol_id c = false) l -> ~ In symbol_id (string_ids l).
Proof.
  induction 1 as [|c l T _ IH]; cbn; [auto|].
  destruct c as [sid|v]; cbn in *; [|exact IH].
  intros [E | H]; [|exact (IH H)].
  subst. rewrite Z.eqb_refl in T. discriminate.
Qed.

Lemma absent_number_all_differ value l :
  Forall (fun c => is_number value c = false) l ->
  Forall (fun held => double_eq held value = false) (number_values l).
Proof.
  induction 1 as [|c l T _ IH]; cbn; [constructor|].
  destruct c as [sid|v]; cbn in *; [exact IH|].
  constructor; assumption.
Qed.

Lemma NoDup_snoc (l : list Z) x : NoDup l -> ~ In x l -> NoDup (l ++ [x]).
Proof.
  intros N H. induction N as [|y l Hy N IH]; cbn.
  - constructor; [auto | constructor].
  - constructor.
    + intros K. apply in_app_or in K. destruct K as [K | [K | []]].
      * exact (Hy K).
      * subst. apply H. left. reflexivity.
    + apply IH. intros K. apply H. right. exact K.
Qed.

Lemma ForallOrdPairs_snoc (R : double -> double -> Prop) l v :
  ForallOrdPairs R l -> Forall (fun x => R x v) l -> ForallOrdPairs R (l ++ [v]).
Proof.
  intros F A. induction F as [|x l Hx F IH]; cbn.
  - constructor; constructor.
  - inversion A as [|? ? Rx A']; subst.
    constructor; [|apply IH; exact A'].
    apply Forall_app. split; [exact Hx | constructor; [exact Rx | constructor]].
Qed.

(** Interning a string keeps a pool in step free of duplicates, as long as
    it ends below [UINT_MAX] entries. *)
Lemma string_keeps_deduplicated proto symbol :
  Z.of_nat (length (constants (constant_list (snd (ir_constant_string proto symbol)))))
  < UINT_MAX ->
  size (constant_list proto) = Z.of_nat (length (constants (constant_list proto))) ->
  deduplicated (constant_list proto) ->
  deduplicated (constant_list (snd (ir_constant_string proto symbol))).
Proof.
  rewrite ir_constant_string_intern. intros B S [Ds Dn].
  destruct (intern_grows (is_string (sym_id symbol)) (CONSTANT_STRING (sym_id symbol)) proto)
    as (tail & G & _ & _).
  assert (St : pool_in_step (constant_list proto)).
  { split; [exact S|]. rewrite G, length_app in B. lia. }
  destruct (first_match (is_string (sym_id symbol)) (constants (constant_list proto)))
    as [A | (n & x & N & Tx & F)].
  - rewrite (intern_absent _ _ proto St A). unfold deduplicated. cbn.
    rewrite string_ids_app, number_values_app. cbn. rewrite app_nil_r.
    split; [|exact Dn].
    apply NoDup_snoc; [exact Ds | apply absent_string_not_in; exact A].
  - destruct St as [_ B'].
    rewrite (intern_present _ _ proto n x) by (auto; lia).
    split; assumption.
Qed.

(** The same for a number. *)
Lemma number_keeps_deduplicated proto value :
  Z.of_nat (length (constants (constant_list (snd (ir_constant_number proto value)))))
  < UINT_MAX ->
  size (constant_list proto) = Z.of_nat (length (constants (constant_list proto))) ->
  deduplicated (constant_list proto) ->
  deduplicated (constant_list (snd (ir_constant_number proto value))).
Proof.
  rewrite ir_constant_number_intern. intros B S [Ds Dn].
  destruct (intern_grows (is_number value) (CONSTANT_NUMBER value) proto)
    as (tail & G & _ & _).
  assert (St : pool_in_step (constant_list proto)).
  { split; [exact S|]. rewrite G, length_app in B. lia. }
  destruct (first_match (is_number value) (constants (constant_list proto)))
    as [A | (n & x & N & Tx & F)].
  - rewrite (intern_absent _ _ proto St A). unfold deduplicated. cbn.
    rewrite string_ids_app, number_values_app. cbn. rewrite app_nil_r.
    split; [exact Ds|].
    apply ForallOrdPairs_snoc; [exact Dn | apply absent_number_all_differ; exact A].
  - destruct St as [_ B'].
    rewrite (intern_present _ _ proto n x) by (auto; lia).
    split; assumption.
Qed.

Lemma intern_meta test c proto :
  is_vararg (snd (intern test c proto)) = is_vararg proto
  /\ parameters_size (snd (intern test c proto)) = parameters_size proto.
Proof. unfold intern. destruct (_ =? _); split; reflexivity. Qed.

(** A step that only interns. *)
Lemma lowered_intern test k c p :
  (Z.of_nat (length (constants (constant_list (snd (intern test k p))))) < UINT_MAX ->
   size (constant_list p) = Z.of_nat (length (constants (constant_list p))) ->
   deduplicated (constant_list p) ->
   deduplicated (constant_list (snd (intern test k p)))) ->
  lowered c p c (snd (intern test k p)).
Proof.
  intros D. unfold lowered.
  destruct (intern_frame test k p) as (T & M & C & Ch & S).
  destruct (intern_meta test k p) as (V & P).
  destruct (intern_grows test k p) as (tail & G & _ & Z).
  rewrite T, M, C, Ch, S, V, P.
  split; [lia|]. split; [reflexivity|]. split; [reflexivity|]. split; [reflexivity|].
  split; [lia|]. split; [auto|]. split; [auto|].
  split.
  { intros s E. exists s, []. rewrite app_nil_r. cbn.
    split; [exact E|]. split; [reflexivity|]. split; [lia | constructor]. }
  split; [exists tail; split; assumption|].
  split; [exact D|].
  exists []. rewrite app_nil_r. split; [reflexivity | constructor].
Qed.

Lemma lowered_string c p s : lowered c p c (snd (ir_constant_string p s)).
Proof.
  pose proof (string_keeps_deduplicated p s) as D.
  rewrite ir_constant_string_intern in *. apply lowered_intern. exact D.
Qed.

Lemma lowered_number c p v : lowered c p c (snd (ir_constant_number p v)).
Proof.
  pose proof (number_keeps_deduplicated p v) as D.
  rewrite ir_constant_number_intern in *. apply lowered_intern. exact D.
Qed.

(** Lowering any node changes the context and the prototype in the ways
    [lowered] lists, and in no other. *)
Lemma ir_build_proto_lowered n context proto context' proto' :
  ir_build_proto context proto n = Some (context', proto') ->
  lowered context proto context' proto'.
Proof.
  apply (ir_build_proto_steps lowered lowered_refl lowered_trans lowered_allocate
           lowered_free lowered_string lowered_number lowered_append lowered_child).
Qed.

Lemma lower_lowered o context proto context' proto' :
  lower context proto o = Some (context', proto') ->
  lowered context proto context' proto'.
Proof.
  destruct o as [n|]; cbn.
  - apply ir_build_proto_lowered.
  - intros E. injection E as <- <-. apply lowered_refl.
Qed.

(** X6.  Lowering a node never removes, replaces or reorders an
    instruction: a code section only receives instructions at its end, its
    size counter moves by their number, and a prototype without code
    section is left without one. *)
Theorem lowering_only_appends_instructions n context proto context' proto' :
  ir_build_proto context proto n = Some (context', proto') ->
  appends_instructions proto proto'.
Proof.
  intros E. apply ir_build_proto_lowered in E.
  destruct E as (_ & _ & _ & _ & _ & _ & N & C & _).
  split; [exact N|].
  intros s Hs. destruct (C s Hs) as (s' & tail & A & B & D & _).
  exists s', tail. auto.
Qed.

Lemma lowering_only_appends_instructions_witness :
  exists context' proto',
    ir_build_proto no_errors main_prototype print_hi = Some (context', proto')
    /\ appends_instructions main_prototype proto'.
Proof.
  destruct (ir_build_proto no_errors main_prototype print_hi) as [[c' p']|] eqn:E;
    [|vm_compute in E; discriminate].
  exists c', p'. split; [reflexivity|].
  exact (lowering_only_appends_instructions _ _ _ _ _ E).
Defined.

(** X7.  Lowering a node never removes or moves a constant: the pool only
    receives constants at its end and its size counter moves by their
    number, so a size counter that agrees with the number of entries still
    does afterwards. *)
Theorem lowering_only_appends_constants n context proto context' proto' :
  ir_build_proto context proto n = Some (context', proto') ->
  appends_constants proto proto'
  /\ (size (constant_list proto) = Z.of_nat (length (constants (constant_list proto))) ->
      size (constant_list proto')
      = Z.of_nat (length (constants (constant_list proto')))).
Proof.
  intros E. apply ir_build_proto_lowered in E.
  destruct E as (_ & _ & _ & _ & _ & _ & _ & _ & (tail & L & Z) & _).
  split; [exists tail; auto|].
  intros S. rewrite Z, L, length_app. lia.
Qed.

Lemma lowering_only_appends_constants_witness :
  exists context' proto',
    ir_build_proto no_errors main_prototype print_hi = Some (context', proto')
    /\ appends_constants main_prototype proto'
    /\ size (constant_list proto') = 2.
Proof.
  destruct (ir_build_proto no_errors main_prototype print_hi) as [[c' p']|] eqn:E;
    [|vm_compute in E; discriminate].
  exists c', p'. split; [reflexivity|].
  destruct (lowering_only_appends_constants _ _ _ _ _ E) as [A S].
  split; [exact A|].
  rewrite (S eq_refl). vm_compute in E. injection E as _ <-. reflexivity.
Defined.

(** X8.  A pool in step and without duplicates is still without duplicates
    after any lowering that leaves it with fewer than [UINT_MAX] entries:
    no symbol is held by two string constants and no number constant is
    [==] to a later one. *)
Theorem lowering_keeps_pool_deduplicated n context proto context' proto' :
  ir_build_proto context proto n = Some (context', proto') ->
  Z.of_nat (length (constants (constant_list proto'))) < UINT_MAX ->
  size (constant_list proto) = Z.of_nat (length (constants (constant_list proto))) ->
  deduplicated (constant_list proto) ->
  deduplicated (constant_list proto').
Proof.
  intros E. apply ir_build_proto_lowered in E.
  destruct E as (_ & _ & _ & _ & _ & _ & _ & _ & _ & D & _). exact D.
Qed.

(** [print("hi"); print("hi")]: the two names are interned once each. *)
Lemma lowering_keeps_pool_deduplicated_witness :
  let twice := NODE_BLOCK (Some print_hi) (Some print_hi) in
  exists context' proto',
    ir_build_proto no_errors main_prototype twice = Some (context', proto')
    /\ constants (constant_list proto') = [CONSTANT_STRING 1; CONSTANT_STRING 2]
    /\ deduplicated (constant_list proto').
Proof.
  intros twice.
  destruct (ir_build_proto no_errors main_prototype twice) as [[c' p']|] eqn:E;
    [|vm_compute in E; discriminate].
  exists c', p'. split; [reflexivity|].
  assert (P : constants (constant_list p') = [CONSTANT_STRING 1; CONSTANT_STRING 2]).
  { pose proof E as E'. vm_compute in E'. injection E' as _ <-. reflexivity. }
  split; [exact P|].
  apply (lowering_keeps_pool_deduplicated _ _ _ _ _ E).
  - rewrite P. reflexivity.
  - reflexivity.
  - split; constructor.
Defined.

(** X9.  Lowering a node never lowers the error counter nor
    [max_stack_size], keeps a [top_register] that is within 0..255 within
    0..255, and leaves the vararg flag and the parameter count of the
    prototype alone. *)
Theorem lowering_keeps_counters n context proto context' proto' :
  ir_build_proto context proto n = Some (context', proto') ->
  error_count context <= error_count context'
  /\ max_stack_size proto <= max_stack_size proto'
  /\ (0 <= top_register proto <= 255 -> 0 <= top_register proto' <= 255)
  /\ is_vararg proto' = is_vararg proto
  /\ parameters_size proto' = parameters_size proto.
Proof.
  intros E. apply ir_build_proto_lowered in E.
  destruct E as (A & B & C & _ & D & F & _). auto.
Qed.

Lemma lowering_keeps_counters_witness :
  exists context' proto',
    ir_build_proto no_errors main_prototype print_hi = Some (context', proto')
    /\ error_count no_errors <= error_count context'
    /\ max_stack_size main_prototype <= max_stack_size proto'
    /\ max_stack_size proto' = 2.
Proof.
  destruct (ir_build_proto no_errors main_prototype print_hi) as [[c' p']|] eqn:E;
    [|vm_compute in E; discriminate].
  exists c', p'. split; [reflexivity|].
  destruct (lowering_keeps_counters _ _ _ _ _ E) as (A & B & _).
  split; [exact A|]. split; [exact B|].
  vm_compute in E. injection E as _ <-. reflexivity.
Defined.

Lemma emit_children context proto make :
  protos (snd (emit_with_register context proto make)) = protos proto.
Proof.
  unfold emit_with_register.
  pose proof (allocate_frame context proto 1) as F. cbv zeta in F.
  destruct F as (_ & _ & _ & _ & A & _).
  destruct (ir_allocate_register context proto 1) as [[r c1] p1]. cbn [snd] in *.
  destruct (append_code_frame p1 (make r)) as (_ & _ & _ & B & _).
  rewrite B. exact A.
Qed.

Lemma string_children proto s : protos (snd (ir_constant_string proto s)) = protos proto.
Proof. rewrite ir_constant_string_intern. apply intern_frame. Qed.

Lemma number_children proto v : protos (snd (ir_constant_number proto v)) = protos proto.
Proof. rewrite ir_constant_number_intern. apply intern_frame. Qed.

(** From [proto] to [proto'] the child list has received [k] prototypes at
    its end. *)
Lemma children_refl (proto : ir_proto) :
  exists new, protos proto = protos proto ++ new /\ length new = 0%nat.
Proof. exists []. rewrite app_nil_r. split; reflexivity. Qed.

Lemma children_trans (p1 p2 p3 : ir_proto) k1 k2 :
  (exists new, protos p2 = protos p1 ++ new /\ length new = k1) ->
  (exists new, protos p3 = protos p2 ++ new /\ length new = k2) ->
  exists new, protos p3 = protos p1 ++ new /\ length new = (k1 + k2)%nat.
Proof.
  intros (n1 & E1 & L1) (n2 & E2 & L2). exists (n1 ++ n2).
  rewrite E2, E1, <- app_assoc, length_app, L1, L2. split; reflexivity.
Qed.

Lemma children_same (p1 p2 : ir_proto) :
  protos p2 = protos p1 ->
  exists new, protos p2 = protos p1 ++ new /\ length new = 0%nat.
Proof. intros E. exists []. rewrite app_nil_r. split; [exact E | reflexivity]. Qed.

(** One child per function body. *)
Lemma function_bodies_registered n :
  forall context proto context' proto',
    ir_build_proto context proto n = Some (context', proto') ->
    exists new, protos proto' = protos proto ++ new /\ length new = function_bodies n.
Proof.
  assert (Behind : forall o, holds_behind
            (fun n => forall context proto context' proto',
                        ir_build_proto context proto n = Some (context', proto') ->
                        exists new, protos proto' = protos proto ++ new
                                    /\ length new = function_bodies n) o ->
          forall context proto context' proto',
            lower context proto o = Some (context', proto') ->
            exists new, protos proto' = protos proto ++ new
                        /\ length new = function_bodies_behind o).
  { intros [n'|] H context proto context' proto' E; cbn in *.
    - eapply H; eassumption.
    - injection E as _ <-. apply children_refl. }
  induction n as [e He | f a Hf Ha | s | i Hi | v | s g | i st Hi Hst
                 | params b Hb | i e k Hi He | ] using node_nested_ind;
    intros context proto context' proto' E; cbn [ir_build_proto] in E;
    cbn [function_bodies];
    repeat match goal with
    | |- context [match ?o with None => 0%nat | Some n' => function_bodies n' end] =>
        change (match o with None => 0%nat | Some n' => function_bodies n' end)
          with (function_bodies_behind o)
    end.
  - exact (Behind e He _ _ _ _ E).
  - fold (lower context proto f) in E.
    destruct (lower context proto f) as [[c1 p1]|] eqn:E1; [|discriminate].
    cbn [and_then] in E. fold (lower c1 p1 a) in E.
    destruct (lower c1 p1 a) as [[c2 p2]|] eqn:E2; [|discriminate].
    cbn [and_then] in E.
    destruct (free_frame c2 p2 (to_uchar (args_size a + 1))) as (_ & _ & K).
    destruct (ir_free_register c2 p2 _) as [c3 p3]. cbn [snd] in K.
    injection E as _ <-.
    apply (children_trans proto p1 _ _ _ (Behind f Hf _ _ _ _ E1)).
    destruct (Behind a Ha _ _ _ _ E2) as (new & A & L).
    exists new. split; [|exact L].
    destruct (append_code_frame p3 (ir_instruction_ABC IR_CALL (top_register proto)
                                      (args_size a + 1) 1)) as (_ & _ & _ & B & _).
    rewrite B, K. exact A.
  - pose proof (string_children proto s) as K.
    destruct (ir_constant_string proto s) as [index q]. cbn [snd] in K.
    pose proof (emit_children context q (fun r => ir_instruction_ABx IR_LOADK r index))
      as K'.
    destruct (emit_with_register context q _) as [c1 p1]. injection E as _ <-.
    apply children_same. cbn [snd] in K'. congruence.
  - exact (Behind i Hi _ _ _ _ E).
  - destruct (fits_sBx v).
    + pose proof (emit_children context proto
                    (fun r => ir_instruction_AsBx IR_LOADI r (double_to_short v))) as K.
      destruct (emit_with_register context proto _) as [c1 p1]. injection E as _ <-.
      apply children_same. exact K.
    + pose proof (number_children proto v) as K.
      destruct (ir_constant_number proto v) as [index q]. cbn [snd] in K.
      destruct (index <=? UINT16_MAX).
      * pose proof (emit_children context q (fun r => ir_instruction_ABx IR_LOADK r index))
          as K'.
        destruct (emit_with_register context q _) as [c1 p1]. injection E as _ <-.
        apply children_same. cbn [snd] in K'. congruence.
      * pose proof (emit_children context q (fun r => ir_instruction_ABx IR_LOADKX r 0))
          as K'.
        destruct (emit_with_register context q _) as [c1 p1]. injection E as _ <-.
        cbn [snd] in K'.
        destruct (append_code_frame p1 (ir_instruction_sub index)) as (_ & _ & _ & B & _).
        apply children_same. congruence.
  - destruct g.
    + pose proof (string_children proto s) as K.
      destruct (ir_constant_string proto s) as [index q]. cbn [snd] in K.
      pose proof (emit_children context q (fun r => ir_instruction_ABx IR_GETGLOBAL r index))
        as K'.
      destruct (emit_with_register context q _) as [c1 p1]. injection E as _ <-.
      apply children_same. cbn [snd] in K'. congruence.
    + injection E as _ <-. apply children_same.
      apply (append_code_frame proto indeterminate).
  - fold (lower context proto i) in E.
    destruct (lower context proto i) as [[c1 p1]|] eqn:E1; [|discriminate].
    cbn [and_then] in E. fold (lower c1 p1 st) in E.
    exact (children_trans proto p1 _ _ _ (Behind i Hi _ _ _ _ E1)
             (Behind st Hst _ _ _ _ E)).
  - destruct params as [params|]; [|discriminate].
    destruct (namelist params) as [names|]; [|discriminate].
    fold (lower context proto b) in E.
    destruct (lower context proto b) as [[c1 p1]|] eqn:E1; [|discriminate].
    cbn [and_then] in E.
    match type of E with
    | Some (emit_with_register ?c ?q ?make) = _ =>
        pose proof (emit_children c q make) as K;
        destruct (emit_with_register c q make) as [c2 p2]
    end.
    injection E as _ <-. cbn [snd] in K.
    replace (Datatypes.S (function_bodies_behind b))
      with (function_bodies_behind b + 1)%nat by lia.
    apply (children_trans proto p1 _ _ _ (Behind b Hb _ _ _ _ E1)).
    eexists [_]. split; [|reflexivity].
    rewrite K.
    assert (F : forall p child, protos (ir_proto_append p child) = protos p ++ [child])
      by (intros p child; unfold ir_proto_append; destruct (protos p); reflexivity).
    rewrite F.
    destruct (append_code_frame p1 (ir_instruction_ABC IR_RETURN 0 1 0))
      as (_ & _ & _ & B & _).
    rewrite B. reflexivity.
  - fold (lower context proto i) in E.
    destruct (lower context proto i) as [[c1 p1]|] eqn:E1; [|discriminate].
    cbn [and_then] in E. fold (lower c1 p1 e) in E.
    exact (children_trans proto p1 _ _ _ (Behind i Hi _ _ _ _ E1)
             (Behind e He _ _ _ _ E)).
  - injection E as _ <-. apply children_refl.
Qed.

(** X10.  Lowering registers every function body of the tree in the
    prototype it was given: the child list of that prototype receives, at
    its end, one prototype per function body, the bodies nested in other
    bodies included, so that all closures end up side by side; the entries
    that were there stay, and the size field of the list stays where it
    was. *)
Theorem lowering_registers_every_function_body n context proto context' proto' :
  ir_build_proto context proto n = Some (context', proto') ->
  exists new,
    protos proto' = protos proto ++ new
    /\ length new = function_bodies n
    /\ protos_size proto' = protos_size proto.
Proof.
  intros E.
  destruct (function_bodies_registered n _ _ _ _ E) as (new & A & L).
  destruct (ir_build_proto_keeps n _ _ _ _ E) as [_ S].
  exists new. split; [exact A|]. split; [exact L | exact S].
Qed.

(** A closure whose body holds a closure: both end up side by side in the
    child list of the main prototype. *)
Lemma lowering_registers_every_function_body_witness :
  let nested :=
    NODE_FUNCTION_BODY
      (Some {| namelist := Some {| name_list_size := 1 |}; vararg := true |})
      (Some closure_of_call) in
  exists context' proto' new,
    ir_build_proto no_errors main_prototype nested = Some (context', proto')
    /\ protos proto' = protos main_prototype ++ new
    /\ length new = 2%nat
    /\ protos_size proto' = 1.
Proof.
  intros nested.
  destruct (ir_build_proto no_errors main_prototype nested) as [[c' p']|] eqn:E;
    [|vm_compute in E; discriminate].
  destruct (lowering_registers_every_function_body _ _ _ _ _ E) as (new & A & L & S).
  exists c', p', new. split; [reflexivity|]. split; [exact A|].
  split; [exact L | exact S].
Defined.

(** X11.  In a prototype whose child list has the size field 1, as
    [ir_proto] makes it, every make-closure instruction that lowering
    appends carries the index 0, however many children are registered. *)
Theorem closures_always_indexed_zero n context proto context' proto' s :
  ir_build_proto context proto n = Some (context', proto') ->
  protos_size proto = 1 ->
  code proto = Some s ->
  exists s' tail,
    code proto' = Some s'
    /\ instructions s' = instructions s ++ tail
    /\ closures_indexed_zero tail.
Proof.
  intros E S Hs. apply ir_build_proto_lowered in E.
  destruct E as (_ & _ & _ & _ & _ & _ & _ & C & _).
  destruct (C s Hs) as (s' & tail & A & B & _ & F).
  exists s', tail. split; [exact A|]. split; [exact B|].
  eapply Forall_impl; [|exact F].
  intros i. unfold emitted. rewrite S.
  destruct i as [| op r bx | | |]; auto; destruct op; auto.
Qed.

(** Two closures in a row: both make-closure instructions carry 0. *)
Lemma closures_always_indexed_zero_witness :
  let two := NODE_BLOCK (Some closure_of_call) (Some closure_of_call) in
  exists context' proto' s' tail,
    ir_build_proto no_errors main_prototype two = Some (context', proto')
    /\ code proto' = Some s'
    /\ instructions s' = [iABC IR_VARARGPREP 0 0 0] ++ tail
    /\ closures_indexed_zero tail
    /\ length (protos proto') = 2%nat.
Proof.
  intros two.
  destruct (ir_build_proto no_errors main_prototype two) as [[c' p']|] eqn:E;
    [|vm_compute in E; discriminate].
  destruct (closures_always_indexed_zero two no_errors main_prototype c' p'
              (ir_section_new (iABC IR_VARARGPREP 0 0 0)) E eq_refl eq_refl)
    as (s' & tail & A & B & F).
  exists c', p', s', tail. split; [reflexivity|]. split; [exact A|].
  split; [exact B|]. split; [exact F|].
  vm_compute in E. injection E as _ <-. reflexivity.
Defined.

(** ** Constant pool, pairs of internings *)

Lemma double_eq_refl (v : double) : v <> S754_nan -> double_eq v v = true.
Proof.
  intros H. destruct v as [s|s| |s m e]; try (destruct s; reflexivity).
  - congruence.
  - unfold double_eq, SFeqb, SFcompare.
    destruct s; rewrite Z.compare_refl, Pos.compare_cont_refl; reflexivity.
Qed.

(** X15.  In a pool in step, interning the same number twice returns the
    same index both times and the second interning leaves the pool alone,
    for every number that is not a NaN. *)
Theorem number_interned_once proto value :
  pool_in_step (constant_list proto) ->
  value <> S754_nan ->
  let '(first_index, proto1) := ir_constant_number proto value in
  let '(second_index, proto2) := ir_constant_number proto1 value in
  second_index = first_index /\ proto2 = proto1.
Proof.
  intros S N.
  pose proof (intern_again (is_number value) (is_number value)
                (CONSTANT_NUMBER value) (CONSTANT_NUMBER value) proto S) as Again.
  rewrite <- ir_constant_number_intern in Again.
  destruct (ir_constant_number proto value) as [first_index proto1].
  rewrite <- ir_constant_number_intern in Again.
  rewrite Again; [split; reflexivity | | reflexivity].
  cbn. apply double_eq_refl. exact N.
Qed.

(** 0.5 twice after ir_build's prologue. *)
Lemma number_interned_once_witness :
  pool_in_step (constant_list main_prototype)
  /\ one_half <> S754_nan
  /\ let '(first_index, proto1) := ir_constant_number main_prototype one_half in
     let '(second_index, proto2) := ir_constant_number proto1 one_half in
     second_index = first_index /\ proto2 = proto1.
Proof.
  assert (S : pool_in_step (constant_list main_prototype)) by (split; reflexivity).
  assert (N : one_half <> S754_nan) by discriminate.
  split; [exact S|]. split; [exact N|].
  exact (number_interned_once main_prototype one_half S N).
Defined.

(** X16.  A NaN is never found in a pool: in a pool in step every
    interning of a NaN adds an entry of its own at the end, and returns the
    size the pool had. *)
Theorem nan_always_added proto :
  pool_in_step (constant_list proto) ->
  let '(index, proto') := ir_constant_number proto S754_nan in
  index = size (constant_list proto)
  /\ constants (constant_list proto')
     = constants (constant_list proto) ++ [CONSTANT_NUMBER S754_nan]
  /\ size (constant_list proto') = size (constant_list proto) + 1.
Proof.
  intros S. rewrite ir_constant_number_intern.
  assert (A : absent (is_number S754_nan) (constant_list proto)).
  { apply Forall_forall. intros c _. destruct c as [sid|v]; [reflexivity|].
    destruct v as [s|s| |s m e]; reflexivity. }
  rewrite (intern_absent _ _ proto S A). destruct S as [S _].
  cbn. repeat split; auto.
Qed.

(** A NaN into a pool that already holds one. *)
Lemma nan_always_added_witness :
  let proto := snd (ir_constant_number main_prototype S754_nan) in
  pool_in_step (constant_list proto)
  /\ let '(index, proto') := ir_constant_number proto S754_nan in
     index = 1
     /\ constants (constant_list proto')
        = [CONSTANT_NUMBER S754_nan; CONSTANT_NUMBER S754_nan].
Proof.
  intros proto.
  assert (S : pool_in_step (constant_list proto)) by (split; reflexivity).
  split; [exact S|].
  pose proof (nan_always_added proto S) as H.
  destruct (ir_constant_number proto S754_nan) as [index proto'].
  destruct H as (I & C & _). split; [rewrite I; reflexivity | rewrite C; reflexivity].
Defined.

(** X17.  In a pool in step with room for one more entry, two different
    symbols interned one after the other get two different indices. *)
Theorem different_symbols_different_indices proto a b :
  pool_in_step (constant_list proto) ->
  Z.of_nat (length (constants (constant_list proto))) + 1 < UINT_MAX ->
  sym_id a <> sym_id b ->
  let '(index_a, proto1) := ir_constant_string proto a in
  let '(index_b, proto2) := ir_constant_string proto1 b in
  index_a <> index_b.
Proof.
  intros S B D. rewrite ir_constant_string_intern.
  pose proof (intern_found (is_string (sym_id a)) (CONSTANT_STRING (sym_id a)) proto S)
    as Fa.
  pose proof (intern_in_step (is_string (sym_id a)) (CONSTANT_STRING (sym_id a)) proto S)
    as Ia.
  destruct (intern _ _ proto) as [index_a proto1].
  cbv zeta in Ia. destruct Ia as (_ & La & Sa).
  assert (S1 : pool_in_step (constant_list proto1)) by (split; [exact Sa | lia]).
  rewrite ir_constant_string_intern.
  pose proof (intern_found (is_string (sym_id b)) (CONSTANT_STRING (sym_id b)) proto1 S1)
    as Fb.
  pose proof (intern_grows (is_string (sym_id b)) (CONSTANT_STRING (sym_id b)) proto1)
    as (tail & G & _).
  destruct (intern _ _ proto1) as [index_b proto2]. cbn [snd] in G.
  destruct Fa as (Pa & ea & Na & Ta).
  destruct Fb as (Pb & eb & Nb & Tb).
  intros E. subst index_b.
  assert (Na' : nth_error (constants (constant_list proto2)) (Z.to_nat index_a) = Some ea).
  { rewrite G. rewrite nth_error_app1; [exact Na|].
    apply nth_error_Some. congruence. }
  rewrite Na' in Nb. injection Nb as <-.
  assert (Ha : ea = CONSTANT_STRING (sym_id a)).
  { destruct Ta as [T | [T _]]; [|exact T].
    destruct ea as [sid|v]; [|discriminate].
    cbn in T. apply Z.eqb_eq in T. congruence. }
  assert (Hb : ea = CONSTANT_STRING (sym_id b)).
  { destruct Tb as [T | [T _]]; [|exact T].
    destruct ea as [sid|v]; [|discriminate].
    cbn in T. apply Z.eqb_eq in T. congruence. }
  congruence.
Qed.

(** The symbols 1 and 2 after ir_build's prologue. *)
Lemma different_symbols_different_indices_witness :
  let a := {| sym_id := 1 |} in
  let b := {| sym_id := 2 |} in
  pool_in_step (constant_list main_prototype)
  /\ Z.of_nat (length (constants (constant_list main_prototype))) + 1 < UINT_MAX
  /\ sym_id a <> sym_id b
  /\ let '(index_a, proto1) := ir_constant_string main_prototype a in
     let '(index_b, proto2) := ir_constant_string proto1 b in
     index_a <> index_b.
Proof.
  intros a b.
  assert (S : pool_in_step (constant_list main_prototype)) by (split; reflexivity).
  assert (B : Z.of_nat (length (constants (constant_list main_prototype))) + 1 < UINT_MAX)
    by reflexivity.
  assert (D : sym_id a <> sym_id b) by discriminate.
  split; [exact S|]. split; [exact B|]. split; [exact D|].
  exact (different_symbols_different_indices main_prototype a b S B D).
Defined.

(** ** Number literals of the first tier *)

Lemma immediate_from_all n :
  forall z, immediate_from n z = true ->
  forall i, z <= i < z + Z.of_nat n -> immediate i = true.
Proof.
  induction n as [|n IH]; intros z H i Hi; [lia|].
  cbn [immediate_from] in H. apply andb_prop in H. destruct H as [H0 H1].
  destruct (Z.eq_dec i z) as [->|Hne]; [exact H0|].
  apply (IH (z + 1) H1). lia.
Qed.

Lemma every_short_is_immediate z :
  SHRT_MIN <= z <= SHRT_MAX -> immediate z = true.
Proof.
  intros H. unfold SHRT_MIN, SHRT_MAX in H.
  apply (immediate_from_all (Z.to_nat 65536) (-32768)); [vm_compute; reflexivity | lia].
Qed.

(** X18.  Every integer literal from -32768 to 32767 is lowered to a
    load-immediate that carries the integer itself, into the register that
    was on top, and the pool is left as it is. *)
Theorem short_integers_are_loaded_immediately context proto section z :
  code proto = Some section ->
  SHRT_MIN <= z <= SHRT_MAX ->
  exists context' proto' section',
    ir_build_proto context proto (NODE_NUMBER (double_of_int z)) = Some (context', proto')
    /\ code proto' = Some section'
    /\ instructions section'
       = instructions section ++ [iAsBx IR_LOADI (top_register proto) z]
    /\ constant_list proto' = constant_list proto.
Proof.
  intros Hcode Hz.
  pose proof (every_short_is_immediate z Hz) as I.
  unfold immediate in I. apply andb_prop in I. destruct I as [Fit Back].
  apply Z.eqb_eq in Back.
  cbn [ir_build_proto]. rewrite Fit.
  pose proof (emit_with_register_spec context proto
                (fun r => ir_instruction_AsBx IR_LOADI r
                            (double_to_short (double_of_int z))) section Hcode) as Em.
  destruct (emit_with_register context proto _) as [c1 p1].
  destruct Em as (C1 & _ & P1 & _).
  eexists c1, p1, _. split; [reflexivity|]. split; [exact C1|].
  split; [|exact P1].
  rewrite ir_append_instructions, Back. reflexivity.
Qed.

(** The literal -32768 after ir_build's prologue. *)
Lemma short_integers_are_loaded_immediately_witness :
  code main_prototype = Some (ir_section_new (iABC IR_VARARGPREP 0 0 0))
  /\ SHRT_MIN <= -32768 <= SHRT_MAX
  /\ exists context' proto' section',
       ir_build_proto no_errors main_prototype (NODE_NUMBER (double_of_int (-32768)))
       = Some (context', proto')
       /\ code proto' = Some section'
       /\ instructions section'
          = instructions (ir_section_new (iABC IR_VARARGPREP 0 0 0))
            ++ [iAsBx IR_LOADI (top_register main_prototype) (-32768)]
       /\ constant_list proto' = constant_list main_prototype.
Proof.
  assert (H1 : code main_prototype = Some (ir_section_new (iABC IR_VARARGPREP 0 0 0)))
    by reflexivity.
  assert (H2 : SHRT_MIN <= -32768 <= SHRT_MAX) by (unfold SHRT_MIN, SHRT_MAX; lia).
  split; [exact H1|]. split; [exact H2|].
  exact (short_integers_are_loaded_immediately no_errors main_prototype _ (-32768) H1 H2).
Defined.

(** ** The collector on flat trees *)

Lemma set_next_links h a v :
  next_of h a <> None ->
  exists h', Collector.set_next h a v = Some h'
             /\ next_of h' a = Some v
             /\ (forall b, b <> a -> next_of h' b = next_of h b)
             /\ (forall b, first_child_of h' b = first_child_of h b).
Proof.
  unfold next_of, first_child_of, Collector.set_next.
  destruct (PositiveMap.find a h) as [c|] eqn:E; [|intros H; exfalso; apply H; reflexivity].
  intros _. eexists. split; [reflexivity|].
  split; [rewrite PositiveMap.gss; reflexivity|].
  split.
  - intros b Hb. rewrite PositiveMap.gso by exact Hb. reflexivity.
  - intros b. destruct (Pos.eq_dec b a) as [->|Hb].
    + rewrite PositiveMap.gss, E. reflexivity.
    + rewrite PositiveMap.gso by exact Hb. reflexivity.
Qed.

Lemma set_prev_links h a v :
  next_of h a <> None ->
  exists h', Collector.set_prev h a v = Some h' /\ same_links h h'.
Proof.
  unfold same_links, next_of, first_child_of, Collector.set_prev.
  destruct (PositiveMap.find a h) as [c|] eqn:E; [|intros H; exfalso; apply H; reflexivity].
  intros _. eexists. split; [reflexivity|].
  intros b. destruct (Pos.eq_dec b a) as [->|Hb].
  - rewrite PositiveMap.gss, E. split; reflexivity.
  - rewrite PositiveMap.gso by exact Hb. split; reflexivity.
Qed.

Lemma same_links_refl h : same_links h h.
Proof. intros a. split; reflexivity. Qed.

Lemma same_links_trans h1 h2 h3 :
  same_links h1 h2 -> same_links h2 h3 -> same_links h1 h3.
Proof.
  intros A B a. destruct (A a) as [A1 A2]. destruct (B a) as [B1 B2].
  split; congruence.
Qed.

Lemma childless_chain_same_links h h' cs :
  same_links h h' -> childless_chain h cs -> childless_chain h' cs.
Proof.
  intros S. induction cs as [|c rest IH]; cbn; [auto|].
  intros (A & B & C). destruct (S c) as [S1 S2].
  split; [congruence|]. split; [congruence | apply IH; exact C].
Qed.

(** A prototype without children is collected as the list of itself, and
    the store is not touched. *)
Lemma collect_childless f h c :
  first_child_of h c = Some None ->
  Collector.ir_collect_protos (S f) h c
  = Some (h, Collector.ir_proto_list_new (Some c) (Some c)).
Proof.
  unfold first_child_of. intros H. cbn [Collector.ir_collect_protos].
  destruct (PositiveMap.find c h) as [cell|]; [|discriminate].
  cbn in H. injection H as H. cbn [Collector.bind]. rewrite H.
  destruct f; reflexivity.
Qed.

Lemma next_of_some h a v : next_of h a = Some v -> next_of h a <> None.
Proof. congruence. Qed.

Lemma first_child_next_of h a v : first_child_of h a = Some v -> next_of h a <> None.
Proof.
  unfold first_child_of, next_of. destruct (PositiveMap.find a h); [discriminate | discriminate].
Qed.

Lemma last_snoc (l : list positive) c d : last (l ++ [c]) d = c.
Proof. apply last_last. Qed.

(** The loop over a chain of childless children, whose collection gives
    the list of the child alone and leaves the store as it is: the loop
    leaves every link of the store as it was and ends with the list of all
    of them. *)
Lemma collect_children_chain collect rest :
  (forall h c, first_child_of h c = Some None ->
               collect h c = Some (h, Collector.ir_proto_list_new (Some c) (Some c))) ->
  forall done h list rounds,
    childless_chain h rest ->
    list_of done list ->
    (forall a, done <> [] -> next_of h (last done a) = Some (hd_error rest)) ->
    (length rest <= rounds)%nat ->
    exists h' list',
      Collector.collect_children collect rounds h list (hd_error rest) = Some (h', list')
      /\ same_links h h'
      /\ list_of (done ++ rest) list'.
Proof.
  intros Hc.
  induction rest as [|c rest IH]; intros done h list rounds Ch Ld Ln Hr.
  - exists h, list. rewrite app_nil_r. cbn.
    split; [destruct rounds; reflexivity|]. split; [apply same_links_refl | exact Ld].
  - destruct rounds as [|rounds]; [cbn in Hr; lia|].
    cbn [hd_error Collector.collect_children].
    destruct Ch as (Fc & Nc & Ch).
    rewrite (Hc h c Fc). cbn [Collector.bind].
    assert (J : exists h2 joined,
               Collector.ir_proto_join h list
                 (Collector.ir_proto_list_new (Some c) (Some c)) = Some (h2, joined)
               /\ same_links h h2
               /\ list_of (done ++ [c]) (Some joined)).
    { destruct done as [|a done'].
      - cbn in Ld. subst list. exists h, (Collector.ir_proto_list_new (Some c) (Some c)).
        split; [reflexivity|]. split; [apply same_links_refl|].
        cbn. exists 1. reflexivity.
      - destruct Ld as (sz & ->).
        specialize (Ln a ltac:(discriminate)).
        set (t := last (a :: done') a) in *.
        destruct (set_next_links h t (Some c) (next_of_some _ _ _ Ln))
          as (h1 & E1 & N1 & O1 & F1).
        assert (Sl : same_links h h1).
        { intros b. split; [|apply F1].
          destruct (Pos.eq_dec b t) as [->|Hb]; [|apply O1; exact Hb].
          rewrite N1, Ln. reflexivity. }
        assert (Cc : next_of h1 c <> None).
        { destruct (Sl c) as [S1 _]. rewrite S1. eapply next_of_some. exact Nc. }
        destruct (set_prev_links h1 c (Some t) Cc) as (h2 & E2 & S2).
        exists h2. eexists.
        unfold Collector.ir_proto_join. cbn [Collector.last Collector.first
          Collector.ir_proto_list_new]. rewrite E1. cbn [Collector.bind]. rewrite E2.
        cbn [Collector.bind].
        split; [reflexivity|]. split; [eapply same_links_trans; eassumption|].
        change ((a :: done') ++ [c]) with (a :: (done' ++ [c])).
        cbn [list_of]. eexists. f_equal. f_equal.
        change (a :: done' ++ [c]) with ((a :: done') ++ [c]).
        rewrite last_snoc. reflexivity. }
    destruct J as (h2 & joined & Ej & Sj & Lj).
    rewrite Ej. cbn [Collector.bind].
    assert (Nc2 : next_of h2 c = Some (hd_error rest)).
    { destruct (Sj c) as [S1 _]. rewrite S1. exact Nc. }
    change (Collector.get_next h2 (Some c)) with (next_of h2 c).
    rewrite Nc2. cbn [Collector.bind].
    destruct (IH (done ++ [c]) h2 (Some joined) rounds) as (h' & list' & E & S & L).
    + eapply childless_chain_same_links; eassumption.
    + exact Lj.
    + intros a _. rewrite last_snoc. exact Nc2.
    + cbn in Hr. lia.
    + exists h', list'. split; [exact E|].
      split; [eapply same_links_trans; eassumption|].
      rewrite <- app_assoc in L. exact L.
Qed.

Lemma childless_chain_last h cs a :
  childless_chain h cs -> cs <> [] -> next_of h (last cs a) = Some None.
Proof.
  induction cs as [|c rest IH]; [congruence|].
  intros (_ & N & Ch) _. destruct rest as [|c' rest]; [exact N|].
  apply IH; [exact Ch | discriminate].
Qed.

Lemma last_in (l : list positive) a : l <> [] -> In (last l a) l.
Proof.
  induction l as [|x l IH]; [congruence|]. intros _.
  destruct l as [|y l]; [left; reflexivity|].
  right. apply IH. discriminate.
Qed.

(** Once [main] is appended after the last child, the children and [main]
    are linked in this order. *)
Lemma linked_after_append h h3 main cs a :
  childless_chain h cs ->
  cs <> [] ->
  NoDup (main :: cs) ->
  next_of h3 (last cs a) = Some (Some main) ->
  next_of h3 main = Some None ->
  (forall b, b <> main -> b <> last cs a -> next_of h3 b = next_of h b) ->
  linked h3 (cs ++ [main]).
Proof.
  induction cs as [|c rest IH]; [congruence|].
  intros (_ & N & Ch) _ D Hl Hm Ho.
  destruct rest as [|c' rest].
  - cbn in *. split; [exact Hl|]. split; [exact Hm | exact I].
  - change (linked h3 (c :: (c' :: rest) ++ [main])).
    cbn [linked]. split.
    + change (hd_error ((c' :: rest) ++ [main])) with (Some c').
      rewrite Ho; [exact N | |].
      * inversion D as [|? ? Hn _]; subst. intros ->. apply Hn. left. reflexivity.
      * inversion D as [|? ? _ D']; subst. inversion D' as [|? ? Hn _]; subst.
        intros E. apply Hn. rewrite E.
        change (last (c :: c' :: rest) a) with (last (c' :: rest) a).
        apply last_in. discriminate.
    + apply IH.
      * exact Ch.
      * discriminate.
      * inversion D as [|? ? Hn D']; subst. inversion D' as [|? ? Hn' D'']; subst.
        constructor; [|exact D''].
        intros K. apply Hn. right. exact K.
      * exact Hl.
      * exact Hm.
      * exact Ho.
Qed.

Lemma walk_linked h l :
  linked h l -> Collector.walk (length l) h (hd_error l) = Some l.
Proof.
  induction l as [|a rest IH]; [reflexivity|].
  intros [N L]. cbn [length hd_error Collector.walk].
  change (Collector.get_next h (Some a)) with (next_of h a).
  rewrite N. cbn [Collector.bind]. rewrite (IH L). reflexivity.
Qed.

(** Appending [main] to the list of its children, in a store whose links
    are those of a flat tree: the children and [main] are linked in this
    order afterwards, and the child list of [main] still starts where it
    did. *)
Lemma append_main_links h h' main c rest sz :
  flat h main (c :: rest) ->
  same_links h h' ->
  exists h3 l,
    Collector.ir_proto_append h'
      (Some {| Collector.first := Some c;
               Collector.last := Some (last (c :: rest) c);
               Collector.size := sz |}) main = Some (h3, l)
    /\ Collector.first l = Some c
    /\ linked h3 ((c :: rest) ++ [main])
    /\ first_child_of h3 main = Some (Some c).
Proof.
  intros (Fm & Nm & Ch & D) Sl.
  destruct (Sl main) as [Sm Sf].
  set (t := last (c :: rest) c) in *.
  assert (Nt : next_of h' t = Some None).
  { destruct (Sl t) as [St _]. rewrite St.
    apply childless_chain_last; [exact Ch | discriminate]. }
  assert (Tm : t <> main).
  { inversion D as [|? ? Hn _]; subst. intros E'. apply Hn. rewrite <- E'.
    apply last_in. discriminate. }
  destruct (set_next_links h' main None) as (h1 & E1 & N1 & O1 & F1).
  { rewrite Sm, Nm. discriminate. }
  destruct (set_next_links h1 t (Some main)) as (h2 & E2 & N2 & O2 & F2).
  { rewrite O1 by exact Tm. rewrite Nt. discriminate. }
  destruct (set_prev_links h2 main (Some t)) as (h3 & E3 & S3).
  { rewrite O2 by (intros K; apply Tm; symmetry; exact K). rewrite N1. discriminate. }
  unfold Collector.ir_proto_append. cbn [Collector.first Collector.last].
  change (Collector.get_next h' (Some t)) with (next_of h' t).
  rewrite Nt. cbn [Collector.bind]. rewrite E1. cbn [Collector.bind].
  rewrite E2. cbn [Collector.bind]. rewrite E3. cbn [Collector.bind].
  eexists _, _. split; [reflexivity|]. split; [reflexivity|].
  split.
  - subst t.
    apply (linked_after_append h h3 main (c :: rest) c Ch); [discriminate | exact D | | |].
    + destruct (S3 (last (c :: rest) c)) as [A _]. rewrite A. exact N2.
    + destruct (S3 main) as [A _]. rewrite A.
      rewrite O2 by (intros K; apply Tm; symmetry; exact K). exact N1.
    + intros b Hb Hb'. destruct (S3 b) as [A _]. rewrite A.
      rewrite O2 by exact Hb'. rewrite O1 by exact Hb.
      destruct (Sl b) as [B _]. exact B.
  - destruct (S3 main) as [_ A]. rewrite A, F2, F1, Sf. exact Fm.
Qed.

(** Collecting a flat tree: the list held at the end starts at the first
    child, or at [main] when there is none; in the store afterwards the
    children and [main] are linked in this order; and the child list of
    [main] still starts where it did. *)
Lemma collect_flat_store h main cs :
  flat h main cs ->
  exists h3 l,
    Collector.ir_collect_protos (S (length cs)) h main = Some (h3, l)
    /\ Collector.first l = hd_error (cs ++ [main])
    /\ linked h3 (cs ++ [main])
    /\ first_child_of h3 main = Some (hd_error cs).
Proof.
  intros F. pose proof F as (Fm & Nm & Ch & D).
  cbn [Collector.ir_collect_protos].
  pose proof Fm as Fm'. unfold first_child_of in Fm'.
  destruct (PositiveMap.find main h) as [cm|] eqn:Em; [|discriminate].
  cbn in Fm'. injection Fm' as Fm'. cbn [Collector.bind]. rewrite Fm'.
  destruct cs as [|c rest].
  - cbn [length hd_error Collector.collect_children Collector.bind].
    eexists _, _. split; [reflexivity|].
    split; [reflexivity|]. split; [|exact Fm].
    cbn. split; [exact Nm | exact I].
  - cbn [length].
    destruct (collect_children_chain
                (Collector.ir_collect_protos (Datatypes.S (length rest))) (c :: rest)
                (collect_childless (length rest)) [] h None
                (Datatypes.S (length rest)) Ch eq_refl)
      as (h' & list' & E & Sl & L); [congruence | cbn; lia |].
    rewrite E. cbn [Collector.bind].
    destruct L as (sz & ->).
    destruct (append_main_links h h' main c rest sz F Sl) as (h3 & l & A & B & C & G).
    exists h3, l. split; [exact A|]. split; [exact B|]. split; [exact C | exact G].
Qed.

(** A prototype without children hands back the list of itself, and the
    store is not touched. *)
Lemma call_childless f h c :
  first_child_of h c = Some None ->
  Collector.value_of (Collector.ir_collect_protos_call (S f) h c)
  = Some (h, Collector.ir_proto_list_new (Some c) (Some c)).
Proof.
  unfold first_child_of. intros H. cbn [Collector.ir_collect_protos_call].
  destruct (PositiveMap.find c h) as [cell|]; [|discriminate].
  cbn in H. injection H as H. cbn [Collector.bind]. rewrite H.
  destruct f; reflexivity.
Qed.



(** X20.  Collecting is destructive: after the collection of a flat tree
    with at least one child, the child list of [main], walked from
    [main->protos->first] along [next], no longer ends after the last
    child but runs on into [main] itself. *)
Theorem collection_chains_main_into_its_children h main cs fuel :
  flat h main cs ->
  cs <> [] ->
  (length cs + 1 <= fuel)%nat ->
  exists h' l first_child,
    Collector.ir_collect_protos fuel h main = Some (h', l)
    /\ first_child_of h' main = Some first_child
    /\ Collector.walk fuel h' first_child = Some (cs ++ [main]).
Proof.
  intros F N Hf.
  destruct (collect_flat_store h main cs F) as (h3 & l & E & _ & Lk & Fc).
  exists h3, l, (hd_error cs).
  split; [apply (ir_collect_protos_more _ _ _ _ E); lia|].
  split; [exact Fc|].
  replace (hd_error cs) with (hd_error (cs ++ [main]))
    by (destruct cs; [congruence | reflexivity]).
  apply (walk_more _ _ _ _ (walk_linked h3 _ Lk)).
  rewrite length_app. cbn [length]. lia.
Qed.

Lemma collection_chains_main_into_its_children_witness :
  exists h,
    Collector.lay_out (PositiveMap.empty _) three_closures = Some h
    /\ flat h 1 [2; 3; 5]%positive
    /\ exists h' l first_child,
         Collector.ir_collect_protos 4 h 1 = Some (h', l)
         /\ first_child_of h' 1 = Some first_child
         /\ Collector.walk 4 h' first_child = Some ([2; 3; 5] ++ [1])%positive.
Proof.
  destruct (Collector.lay_out (PositiveMap.empty _) three_closures) as [h|] eqn:E;
    [|vm_compute in E; discriminate].
  exists h. split; [reflexivity|].
  assert (F : flat h 1 [2; 3; 5]%positive).
  { vm_compute in E. injection E as <-.
    split; [reflexivity|]. split; [reflexivity|].
    split; [cbn; repeat split|].
    repeat constructor; cbn; intuition discriminate. }
  split; [exact F|].
  apply (collection_chains_main_into_its_children h 1 [2; 3; 5]%positive 4 F);
    [discriminate | cbn; lia].
Defined.

(** ** Calls and their registers *)

(** One register taken without a fault. *)
Lemma emit_takes_one context proto make :
  0 <= top_register proto < 255 ->
  let '(context', proto') := emit_with_register context proto make in
  context' = context
  /\ top_register proto' = top_register proto + 1
  /\ top_register proto' <= max_stack_size proto'.
Proof.
  intros Ht. unfold emit_with_register.
  destruct (allocate_result context proto 1) as [_ C].
  pose proof (allocate_top context proto 1) as T.
  pose proof (allocate_max context proto 1) as M.
  destruct (ir_allocate_register context proto 1) as [[r c1] p1]. cbn [fst snd] in *.
  destruct (append_code_frame p1 (make r)) as (At & Am & _).
  rewrite to_uchar_small in T, M by lia.
  unfold UCHAR_MAX in C. destruct (top_register proto + 1 >? 255) eqn:E; [lia|].
  split; [exact C|]. split; [rewrite At; exact T|]. rewrite At, Am. lia.
Qed.

(** A plain expression takes one register and counts no error. *)
Lemma plain_takes_one e :
  plain e ->
  forall context proto,
    0 <= top_register proto < 255 ->
    exists proto',
      ir_build_proto context proto e = Some (context, proto')
      /\ top_register proto' = top_register proto + 1
      /\ top_register proto' <= max_stack_size proto'.
Proof.
  induction 1 as [s | v | s | e _ IH]; intros context proto Ht.
  - rewrite build_string, ir_constant_string_intern.
    destruct (intern_frame (is_string (sym_id s)) (CONSTANT_STRING (sym_id s)) proto)
      as (T & _).
    destruct (intern _ _ proto) as [index q]. cbn [fst snd] in *.
    pose proof (emit_takes_one context q (fun r => ir_instruction_ABx IR_LOADK r index)
                  ltac:(lia)) as E.
    destruct (emit_with_register context q _) as [c1 p1].
    destruct E as (-> & E1 & E2). exists p1. split; [reflexivity|]. split; [lia | exact E2].
  - cbn [ir_build_proto]. destruct (fits_sBx v).
    + pose proof (emit_takes_one context proto
                    (fun r => ir_instruction_AsBx IR_LOADI r (double_to_short v)) Ht) as E.
      destruct (emit_with_register context proto _) as [c1 p1].
      destruct E as (-> & E1 & E2). exists p1. split; [reflexivity|]. split; assumption.
    + rewrite ir_constant_number_intern.
      destruct (intern_frame (is_number v) (CONSTANT_NUMBER v) proto) as (T & _).
      destruct (intern _ _ proto) as [index q]. cbn [fst snd] in *.
      destruct (index <=? UINT16_MAX).
      * pose proof (emit_takes_one context q
                      (fun r => ir_instruction_ABx IR_LOADK r index) ltac:(lia)) as E.
        destruct (emit_with_register context q _) as [c1 p1].
        destruct E as (-> & E1 & E2). exists p1.
        split; [reflexivity|]. split; [lia | exact E2].
      * pose proof (emit_takes_one context q
                      (fun r => ir_instruction_ABx IR_LOADKX r 0) ltac:(lia)) as E.
        destruct (emit_with_register context q _) as [c1 p1].
        destruct E as (-> & E1 & E2).
        destruct (append_code_frame p1 (ir_instruction_sub index)) as (At & Am & _).
        eexists. split; [reflexivity|]. rewrite At, Am. split; [lia | exact E2].
  - rewrite build_global, ir_constant_string_intern.
    destruct (intern_frame (is_string (sym_id s)) (CONSTANT_STRING (sym_id s)) proto)
      as (T & _).
    destruct (intern _ _ proto) as [index q]. cbn [fst snd] in *.
    pose proof (emit_takes_one context q (fun r => ir_instruction_ABx IR_GETGLOBAL r index)
                  ltac:(lia)) as E.
    destruct (emit_with_register context q _) as [c1 p1].
    destruct E as (-> & E1 & E2). exists p1. split; [reflexivity|]. split; [lia | exact E2].
  - cbn [ir_build_proto]. apply IH. exact Ht.
Qed.

(** [k] plain expressions take [k] registers and count no error. *)
Lemma holds_plain_takes a k :
  holds_plain a k ->
  forall context proto,
    0 <= top_register proto ->
    top_register proto + Z.of_nat k <= 255 ->
    exists proto',
      lower context proto a = Some (context, proto')
      /\ top_register proto' = top_register proto + Z.of_nat k
      /\ max_stack_size proto <= max_stack_size proto'
      /\ (top_register proto <= max_stack_size proto ->
          top_register proto' <= max_stack_size proto').
Proof.
  induction 1 as [| e P | init expression size k1 k2 _ IH1 _ IH2];
    intros context proto H0 Hk.
  - exists proto. cbn. repeat split; auto; lia.
  - destruct (plain_takes_one e P context proto ltac:(lia)) as (p' & E & T & M).
    exists p'. cbn [lower]. split; [exact E|]. split; [lia|].
    apply ir_build_proto_lowered in E. destruct E as (_ & _ & _ & _ & Mx & _).
    split; [exact Mx | intros _; exact M].
  - rewrite Nat2Z.inj_add in *.
    destruct (IH1 context proto H0 ltac:(lia)) as (p1 & E1 & T1 & M1 & I1).
    destruct (IH2 context p1 ltac:(lia) ltac:(lia)) as (p2 & E2 & T2 & M2 & I2).
    exists p2. cbn [lower ir_build_proto].
    fold (lower context proto init). rewrite E1. cbn [and_then].
    fold (lower context p1 expression).
    split; [exact E2|]. split; [lia|]. split; [lia | auto].
Qed.

(** A call of a plain callee with [k] plain arguments, the size of the
    argument list being [k]. *)
Lemma call_balanced context proto callee args k :
  plain callee ->
  holds_plain args k ->
  args_size args = Z.of_nat k ->
  0 <= top_register proto ->
  top_register proto + Z.of_nat k + 1 <= 255 ->
  exists proto',
    ir_build_proto context proto (NODE_CALL (Some callee) args) = Some (context, proto')
    /\ top_register proto' = top_register proto
    /\ top_register proto + Z.of_nat k + 1 <= max_stack_size proto'
    /\ (forall s, code proto = Some s ->
        exists s' loads,
          code proto' = Some s'
          /\ instructions s'
             = instructions s ++ loads
               ++ [iABC IR_CALL (top_register proto) (Z.of_nat k + 1) 1]).
Proof.
  intros Pc Pa Hs H0 Hk.
  destruct (plain_takes_one callee Pc context proto ltac:(lia)) as (p1 & E1 & T1 & M1).
  destruct (holds_plain_takes args k Pa context p1 ltac:(lia) ltac:(lia))
    as (p2 & E2 & T2 & M2 & I2).
  cbn [ir_build_proto]. rewrite E1. cbn [and_then].
  fold (lower context p1 args). rewrite E2. cbn [and_then]. rewrite Hs.
  rewrite (to_uchar_small (Z.of_nat k + 1)) by lia.
  assert (Fr : ir_free_register context p2 (Z.of_nat k + 1)
               = (context, set_top_register p2 (top_register proto))).
  { unfold ir_free_register.
    replace (top_register p2 - (Z.of_nat k + 1)) with (top_register proto) by lia.
    destruct (top_register proto <? 0) eqn:E; [lia|].
    rewrite to_uchar_small by lia. reflexivity. }
  rewrite Fr.
  set (call := ir_instruction_ABC IR_CALL (top_register proto) (Z.of_nat k + 1) 1).
  destruct (append_code_frame (set_top_register p2 (top_register proto)) call)
    as (At & Am & _).
  eexists. split; [reflexivity|].
  split; [rewrite At; reflexivity|].
  split; [rewrite Am; cbn; specialize (I2 M1); lia|].
  intros s Hcode.
  pose proof (ir_build_proto_lowered _ _ _ _ _ E1) as L1.
  pose proof (lower_lowered _ _ _ _ _ E2) as L2.
  destruct (lowered_trans _ _ _ _ _ _ L1 L2) as (_ & _ & _ & _ & _ & _ & _ & C & _).
  destruct (C s Hcode) as (s2 & loads & A & B & _).
  exists (ir_append (Some s2) call), loads.
  split; [apply append_code_some; exact A|].
  rewrite ir_append_instructions, B, <- app_assoc. reflexivity.
Qed.



(** X22.  A call in argument position gives its registers back like any
    call, yet the enclosing call frees one register for it: after
    [f(g(...))], with plain callees and plain arguments, [top_register] is
    one below where it started and no error is counted; started from
    [top_register = 0] the free underflows, one error is counted and
    [top_register] ends at 255. *)
Theorem call_as_argument_unbalances context proto f g args k :
  plain f -> plain g ->
  holds_plain args k ->
  args_size args = Z.of_nat k ->
  0 <= top_register proto ->
  top_register proto + Z.of_nat k + 2 <= 255 ->
  exists context' proto',
    ir_build_proto context proto (NODE_CALL (Some f) (Some (NODE_CALL (Some g) args)))
    = Some (context', proto')
    /\ (1 <= top_register proto ->
        context' = context /\ top_register proto' = top_register proto - 1)
    /\ (top_register proto = 0 ->
        error_count context' = error_count context + 1 /\ top_register proto' = 255).
Proof.
  intros Pf Pg Pa Hs H0 Hk.
  destruct (plain_takes_one f Pf context proto ltac:(lia)) as (p1 & E1 & T1 & _).
  destruct (call_balanced context p1 g args k Pg Pa Hs ltac:(lia) ltac:(lia))
    as (p2 & E2 & T2 & _).
  cbn [ir_build_proto args_size] in *. rewrite E1. cbn [and_then]. rewrite E2.
  cbn [and_then].
  change (to_uchar (1 + 1)) with 2.
  pose proof (free_top context p2 2) as Ft.
  assert (Fc : fst (ir_free_register context p2 2)
               = if top_register p2 - 2 <? 0 then count_error context else context)
    by reflexivity.
  destruct (ir_free_register context p2 2) as [c3 p3]. cbn [fst snd] in *.
  destruct (append_code_frame p3 (ir_instruction_ABC IR_CALL (top_register proto) (1 + 1) 1))
    as (At & _).
  eexists _, _. split; [reflexivity|]. rewrite At, Ft, Fc, T2, T1.
  split.
  - intros H1. destruct (top_register proto + 1 - 2 <? 0) eqn:E; [lia|].
    split; [reflexivity|].
    replace (top_register proto + 1 - 2) with (top_register proto - 1) by lia.
    apply to_uchar_small. lia.
  - intros ->. cbn. split; reflexivity.
Qed.

(** [f(g())] after ir_build's prologue, where [top_register] is 0. *)
Lemma call_as_argument_unbalances_witness :
  exists context' proto',
    ir_build_proto no_errors main_prototype call_of_call = Some (context', proto')
    /\ error_count context' = 1
    /\ top_register proto' = 255.
Proof.
  assert (Pf : plain (NODE_IDENTIFIER {| sym_id := 1 |} true)) by constructor.
  assert (Pg : plain (NODE_IDENTIFIER {| sym_id := 2 |} true)) by constructor.
  assert (H0 : 0 <= top_register main_prototype) by (cbn; lia).
  assert (Hk : top_register main_prototype + Z.of_nat 0 + 2 <= 255) by (cbn; lia).
  destruct (call_as_argument_unbalances no_errors main_prototype _ _ None 0%nat
              Pf Pg holds_none eq_refl H0 Hk) as (c' & p' & E & _ & Z).
  exists c', p'. split; [exact E|]. exact (Z eq_refl).
Defined.

(** ** The child list in the store *)

Lemma add_fresh_links h c :
  next_of (PositiveMap.add c Collector.fresh h) c = Some None
  /\ first_child_of (PositiveMap.add c Collector.fresh h) c = Some None
  /\ (forall b, b <> c ->
      next_of (PositiveMap.add c Collector.fresh h) b = next_of h b
      /\ first_child_of (PositiveMap.add c Collector.fresh h) b = first_child_of h b
      /\ child_list_of (PositiveMap.add c Collector.fresh h) b = child_list_of h b).
Proof.
  unfold next_of, first_child_of, child_list_of.
  split; [rewrite PositiveMap.gss; reflexivity|].
  split; [rewrite PositiveMap.gss; reflexivity|].
  intros b Hb. rewrite PositiveMap.gso by exact Hb. repeat split.
Qed.

Lemma set_next_child_list h a v h' :
  Collector.set_next h a v = Some h' ->
  forall b, child_list_of h' b = child_list_of h b.
Proof.
  unfold Collector.set_next, child_list_of.
  destruct (PositiveMap.find a h) as [c|] eqn:E; [|discriminate].
  intros H b. injection H as <-.
  destruct (Pos.eq_dec b a) as [->|Hb].
  - rewrite PositiveMap.gss, E. reflexivity.
  - rewrite PositiveMap.gso by exact Hb. reflexivity.
Qed.

Lemma set_prev_child_list h a v h' :
  Collector.set_prev h a v = Some h' ->
  forall b, child_list_of h' b = child_list_of h b.
Proof.
  unfold Collector.set_prev, child_list_of.
  destruct (PositiveMap.find a h) as [c|] eqn:E; [|discriminate].
  intros H b. injection H as <-.
  destruct (Pos.eq_dec b a) as [->|Hb].
  - rewrite PositiveMap.gss, E. reflexivity.
  - rewrite PositiveMap.gso by exact Hb. reflexivity.
Qed.

Lemma set_protos_links h a l :
  next_of h a <> None ->
  exists h', Collector.set_protos h a l = Some h'
             /\ child_list_of h' a = Some l
             /\ first_child_of h' a = Some (Collector.first l)
             /\ (forall b, next_of h' b = next_of h b)
             /\ (forall b, b <> a -> first_child_of h' b = first_child_of h b).
Proof.
  unfold next_of, first_child_of, child_list_of, Collector.set_protos.
  destruct (PositiveMap.find a h) as [c|] eqn:E; [|intros H; exfalso; apply H; reflexivity].
  intros _. eexists. split; [reflexivity|].
  split; [rewrite PositiveMap.gss; reflexivity|].
  split; [rewrite PositiveMap.gss; reflexivity|].
  split.
  - intros b. destruct (Pos.eq_dec b a) as [->|Hb].
    + rewrite PositiveMap.gss, E. reflexivity.
    + rewrite PositiveMap.gso by exact Hb. reflexivity.
  - intros b Hb. rewrite PositiveMap.gso by exact Hb. reflexivity.
Qed.

(** A chain stays a chain in a store that changed no link of its
    prototypes; one more childless prototype can be chained behind it. *)
Lemma childless_chain_kept h h' cs :
  (forall b, In b cs ->
             next_of h' b = next_of h b /\ first_child_of h' b = first_child_of h b) ->
  childless_chain h cs -> childless_chain h' cs.
Proof.
  induction cs as [|c rest IH]; cbn; [auto|].
  intros K (A & B & C). destruct (K c (or_introl eq_refl)) as [K1 K2].
  split; [congruence|]. split; [congruence|].
  apply IH; [|exact C]. intros b Hb. apply K. right. exact Hb.
Qed.

Lemma childless_chain_snoc h h' cs c a :
  childless_chain h cs ->
  cs <> [] ->
  NoDup cs ->
  next_of h' (last cs a) = Some (Some c) ->
  (forall b, In b cs -> first_child_of h' b = first_child_of h b) ->
  (forall b, In b cs -> b <> last cs a -> next_of h' b = next_of h b) ->
  next_of h' c = Some None ->
  first_child_of h' c = Some None ->
  childless_chain h' (cs ++ [c]).
Proof.
  induction cs as [|x rest IH]; [congruence|].
  intros (F & N & Ch) _ D Hl Hf Hn Nc Fc.
  destruct rest as [|y rest].
  - cbn in *. split; [rewrite Hf by auto; exact F|].
    split; [exact Hl|]. split; [exact Fc|]. split; [exact Nc | exact I].
  - change (childless_chain h' (x :: (y :: rest) ++ [c])). cbn [childless_chain].
    split; [rewrite Hf by (left; reflexivity); exact F|].
    split.
    + change (hd_error ((y :: rest) ++ [c])) with (Some y).
      rewrite Hn; [exact N | left; reflexivity |].
      inversion D as [|? ? Hx _]; subst. intros E. apply Hx. rewrite E.
      change (last (x :: y :: rest) a) with (last (y :: rest) a).
      apply last_in. discriminate.
    + apply IH.
      * exact Ch.
      * discriminate.
      * inversion D; assumption.
      * exact Hl.
      * intros b Hb. apply Hf. right. exact Hb.
      * intros b Hb Hb'. apply Hn; [right; exact Hb | exact Hb'].
      * exact Nc.
      * exact Fc.
Qed.

(** Registering one more closure. *)
Lemma register_fresh_registered h main done c :
  registered h main done ->
  NoDup (main :: done ++ [c]) ->
  exists h', register_fresh h main c = Some h' /\ registered h' main (done ++ [c]).
Proof.
  intros (L & Nm & Ch) D.
  assert (Cm : c <> main).
  { inversion D as [|? ? Hn _]; subst. intros ->. apply Hn.
    apply in_or_app. right. left. reflexivity. }
  assert (Cd : ~ In c done).
  { inversion D as [|? ? _ D']; subst. apply NoDup_remove_2 in D'.
    rewrite app_nil_r in D'. exact D'. }
  assert (Dd : NoDup done).
  { inversion D as [|? ? _ D']; subst. apply NoDup_remove_1 in D'.
    rewrite app_nil_r in D'. exact D'. }
  assert (Md : ~ In main done).
  { inversion D as [|? ? Hn _]; subst. intros K. apply Hn.
    apply in_or_app. left. exact K. }
  unfold register_fresh, Collector.register_child.
  set (h1 := PositiveMap.add c Collector.fresh h).
  destruct (add_fresh_links h c) as (N1 & F1 & O1). fold h1 in N1, F1, O1.
  destruct (O1 main (fun E => Cm (eq_sym E))) as (Nm1 & _ & Lm1).
  rewrite L in Lm1. rewrite Nm in Nm1.
  unfold child_list_of in Lm1.
  destruct (PositiveMap.find main h1) as [cm|] eqn:Em; [|discriminate].
  cbn in Lm1. injection Lm1 as Lm1. cbn [Collector.bind]. rewrite Lm1.
  assert (Ch1 : childless_chain h1 done).
  { apply (childless_chain_kept h); [|exact Ch].
    intros b Hb. destruct (O1 b) as (A & B & _); [intros ->; exact (Cd Hb)|].
    split; assumption. }
  destruct done as [|a done'].
  - unfold Collector.ir_proto_append. cbn [Collector.first Collector.last hd_error].
    destruct (set_prev_links h1 c None) as (h2 & E2 & S2); [rewrite N1; discriminate|].
    destruct (set_next_links h2 c None) as (h3 & E3 & N3 & O3 & F3).
    { destruct (S2 c) as [A _]. rewrite A, N1. discriminate. }
    rewrite E2. cbn [Collector.bind]. rewrite E3. cbn [Collector.bind Collector.size].
    destruct (set_protos_links h3 main
                {| Collector.first := Some c; Collector.last := Some c;
                   Collector.size := 1 |})
      as (h4 & E4 & L4 & Fm4 & N4 & F4).
    { rewrite O3 by (intros E; exact (Cm (eq_sym E))).
      destruct (S2 main) as [A _]. rewrite A, Nm1. discriminate. }
    rewrite E4. exists h4. split; [reflexivity|].
    split; [exact L4|].
    split.
    { rewrite N4, O3 by (intros E; exact (Cm (eq_sym E))).
      destruct (S2 main) as [A _]. rewrite A. exact Nm1. }
    cbn. split; [|split; [rewrite N4; exact N3 | exact I]].
    rewrite F4 by exact Cm. rewrite F3. destruct (S2 c) as [_ B]. rewrite B. exact F1.
  - set (t := last (a :: done') a) in *.
    assert (Tin : In t (a :: done')) by (apply last_in; discriminate).
    assert (Tc : t <> c) by (intros E; apply Cd; rewrite <- E; exact Tin).
    assert (Tm : t <> main) by (intros E; apply Md; rewrite <- E; exact Tin).
    assert (Nt : next_of h1 t = Some None).
    { apply childless_chain_last; [exact Ch1 | discriminate]. }
    unfold Collector.ir_proto_append. cbn [Collector.first Collector.last hd_error].
    change (Collector.get_next h1 (Some t)) with (next_of h1 t). rewrite Nt.
    cbn [Collector.bind].
    destruct (set_next_links h1 c None) as (h2 & E2 & N2 & O2 & F2);
      [rewrite N1; discriminate|].
    destruct (set_next_links h2 t (Some c)) as (h3 & E3 & N3 & O3 & F3).
    { rewrite O2 by exact Tc. rewrite Nt. discriminate. }
    destruct (set_prev_links h3 c (Some t)) as (h4 & E4 & S4).
    { rewrite O3 by (intros E; exact (Tc (eq_sym E))). rewrite N2. discriminate. }
    rewrite E2. cbn [Collector.bind]. rewrite E3. cbn [Collector.bind].
    rewrite E4. cbn [Collector.bind Collector.size].
    destruct (set_protos_links h4 main
                {| Collector.first := Some a; Collector.last := Some c;
                   Collector.size := 1 |})
      as (h5 & E5 & L5 & Fm5 & N5 & F5).
    { destruct (S4 main) as [A _]. rewrite A.
      rewrite O3 by (intros E; exact (Tm (eq_sym E))).
      rewrite O2 by (intros E; exact (Cm (eq_sym E))). rewrite Nm1. discriminate. }
    rewrite E5. exists h5. split; [reflexivity|].
    assert (Nx : forall b, next_of h5 b = next_of h3 b).
    { intros b. rewrite N5. destruct (S4 b) as [A _]. exact A. }
    assert (Fx : forall b, b <> main -> first_child_of h5 b = first_child_of h1 b).
    { intros b Hb. rewrite F5 by exact Hb. destruct (S4 b) as [_ B].
      rewrite B, F3, F2. reflexivity. }
    split.
    { rewrite L5. change ((a :: done') ++ [c]) with (a :: (done' ++ [c])).
      cbn [hd_error]. f_equal. f_equal.
      change (a :: done' ++ [c]) with ((a :: done') ++ [c]).
      rewrite last_snoc. reflexivity. }
    split.
    { rewrite Nx, O3 by (intros E; exact (Tm (eq_sym E))).
      rewrite O2 by (intros E; exact (Cm (eq_sym E))). exact Nm1. }
    subst t.
    apply (childless_chain_snoc h1 h5 (a :: done') c a Ch1); [discriminate | exact Dd | | | | |].
    + rewrite Nx. exact N3.
    + intros b Hb. apply Fx. intros ->. exact (Md Hb).
    + intros b Hb Hb'. rewrite Nx, O3 by exact Hb'.
      apply O2. intros ->. exact (Cd Hb).
    + rewrite Nx, O3 by (intros E; exact (Tc (eq_sym E))). exact N2.
    + rewrite Fx by exact Cm. exact F1.
Qed.

Lemma register_all_registered cs :
  forall h main done,
    registered h main done ->
    NoDup (main :: done ++ cs) ->
    exists h', register_all h main cs = Some h' /\ registered h' main (done ++ cs).
Proof.
  induction cs as [|c rest IH]; intros h main done R D.
  - exists h. rewrite app_nil_r. split; [reflexivity | exact R].
  - destruct (register_fresh_registered h main done c R) as (h1 & E1 & R1).
    { inversion D as [|? ? Hn D']; subst.
      constructor.
      - intros K. apply Hn. apply in_app_or in K. apply in_or_app.
        destruct K as [K | [K | []]]; [left; exact K | right; left; exact K].
      - replace (done ++ c :: rest) with ((done ++ [c]) ++ rest) in D'
          by (rewrite <- app_assoc; reflexivity).
        apply NoDup_app_remove_r in D'. exact D'. }
    cbn [register_all]. rewrite E1. cbn [Collector.bind].
    destruct (IH h1 main (done ++ [c]) R1) as (h' & E & R').
    { rewrite <- app_assoc. exact D. }
    exists h'. split; [exact E|]. rewrite <- app_assoc in R'. exact R'.
Qed.

Lemma registered_flat h main cs :
  registered h main cs -> NoDup (main :: cs) -> flat h main cs.
Proof.
  intros (L & N & Ch) D. split; [|split; [exact N | split; [exact Ch | exact D]]].
  unfold child_list_of in L. unfold first_child_of.
  destruct (PositiveMap.find main h) as [cm|]; [|discriminate].
  cbn in *. injection L as L. rewrite L. reflexivity.
Qed.

Lemma registered_nothing main :
  registered (PositiveMap.add main Collector.fresh (PositiveMap.empty _)) main [].
Proof.
  unfold registered, child_list_of, next_of.
  rewrite PositiveMap.gss. repeat split.
Qed.

(** X23.  Registering closures one after the other, each a prototype from
    [ir_proto()] appended to the child list of [main], chains them by
    [next] in the order of registration behind [main->protos->first], and
    leaves the size field of the child list at 1 whatever their number. *)
Theorem registered_closures_are_chained main cs :
  NoDup (main :: cs) ->
  exists h,
    register_all (PositiveMap.add main Collector.fresh (PositiveMap.empty _)) main cs
    = Some h
    /\ flat h main cs
    /\ option_map Collector.size (child_list_of h main) = Some 1.
Proof.
  intros D.
  destruct (register_all_registered cs _ main [] (registered_nothing main) D)
    as (h & E & R).
  exists h. split; [exact E|]. cbn [app] in R.
  split; [apply registered_flat; assumption|].
  destruct R as (L & _). rewrite L. reflexivity.
Qed.

(** The closures 2, 3 and 5 registered in the main prototype 1. *)
Lemma registered_closures_are_chained_witness :
  NoDup [1; 2; 3; 5]%positive
  /\ exists h,
       register_all (PositiveMap.add 1%positive Collector.fresh (PositiveMap.empty _))
         1%positive [2; 3; 5]%positive = Some h
       /\ flat h 1 [2; 3; 5]%positive
       /\ option_map Collector.size (child_list_of h 1) = Some 1.
Proof.
  assert (D : NoDup [1; 2; 3; 5]%positive)
    by (repeat constructor; cbn; intuition discriminate).
  split; [exact D|].
  exact (registered_closures_are_chained 1%positive [2; 3; 5]%positive D).
Defined.

(** ** Blocks of plain calls *)

(** X25.  Statements that are plain calls, in blocks nested in any way,
    are lowered without a fault into the prototype they are given when
    there is room above its [top_register] for the registers of each call:
    the lowering runs to its end, the error counter is as it was, and
    [top_register] ends where it started. *)
Theorem block_of_plain_calls_is_balanced body context proto :
  0 <= top_register proto ->
  plain_statements (top_register proto) body ->
  exists proto',
    lower context proto body = Some (context, proto')
    /\ top_register proto' = top_register proto.
Proof.
  intros H0 P.
  remember (top_register proto) as top eqn:T. symmetry in T.
  revert context proto T.
  induction P as [| c Pc | init statement _ IH1 _ IH2]; intros context proto T.
  - exists proto. split; [reflexivity | exact T].
  - destruct Pc as [callee args k P A S B].
    destruct (call_balanced context proto callee args k P A S ltac:(lia) ltac:(lia))
      as (p' & E & T' & _).
    exists p'. cbn [lower ir_build_proto]. split; [exact E | lia].
  - destruct (IH1 context proto T) as (p1 & E1 & T1).
    destruct (IH2 context p1 T1) as (p2 & E2 & T2).
    exists p2. cbn [lower ir_build_proto].
    fold (lower context proto init). rewrite E1. cbn [and_then].
    fold (lower context p1 statement). split; [exact E2 | exact T2].
Qed.

(** [print("hi"); f("a", 0.5)] after the prologue of a chunk. *)
Lemma block_of_plain_calls_is_balanced_witness :
  let body :=
    Some (NODE_BLOCK
            (Some (NODE_EXPRESSION_STATEMENT
                     (Some (NODE_CALL (Some (NODE_IDENTIFIER {| sym_id := 1 |} true))
                                      (Some (NODE_STRING {| sym_id := 2 |}))))))
            (Some (NODE_EXPRESSION_STATEMENT (Some call_with_two_arguments)))) in
  0 <= top_register main_prototype
  /\ plain_statements (top_register main_prototype) body
  /\ exists proto',
       lower no_errors main_prototype body = Some (no_errors, proto')
       /\ top_register proto' = top_register main_prototype.
Proof.
  intros body.
  assert (H0 : 0 <= top_register main_prototype) by (cbn; lia).
  assert (P : plain_statements (top_register main_prototype) body).
  { apply block_of; apply call_statement_of.
    - apply (plain_call_of _ _ _ 1%nat); [constructor | | reflexivity | cbn; lia].
      apply holds_one. constructor.
    - apply (plain_call_of _ _ _ (1 + 1)%nat); [constructor | | reflexivity | cbn; lia].
      apply holds_list; apply holds_one; constructor. }
  split; [exact H0|]. split; [exact P|].
  exact (block_of_plain_calls_is_balanced body no_errors main_prototype H0 P).
Defined.

(** ** Sections grown by appending *)

Lemma append_all_some s l :
  exists s',
    append_all (Some s) l = Some s'
    /\ instructions s' = instructions s ++ l
    /\ section_size s' = section_size s + Z.of_nat (length l).
Proof.
  revert s. induction l as [|i l IH]; intros s.
  - exists s. rewrite app_nil_r. cbn. repeat split. lia.
  - cbn [append_all fold_left]. destruct (IH (ir_append (Some s) i)) as (s' & E & I & Z).
    exists s'. split; [exact E|].
    rewrite I, Z, ir_append_instructions, <- app_assoc.
    split; [reflexivity|].
    replace (section_size (ir_append (Some s) i)) with (section_size s + 1)
      by (unfold ir_append; destruct (instructions s); reflexivity).
    cbn [length]. lia.
Qed.

(** X26.  A section grown from NULL by [ir_append] holds the instructions
    in the order they were appended, and its size counter is their number;
    appending to a section that exists adds the instructions at its end
    and their number to its size counter. *)
Theorem appended_sections_count_their_instructions first rest s l :
  (exists s',
     append_all None (first :: rest) = Some s'
     /\ instructions s' = first :: rest
     /\ section_size s' = Z.of_nat (length (first :: rest)))
  /\ (exists s',
        append_all (Some s) l = Some s'
        /\ instructions s' = instructions s ++ l
        /\ section_size s' = section_size s + Z.of_nat (length l)).
Proof.
  split; [|apply append_all_some].
  cbn [append_all fold_left].
  destruct (append_all_some (ir_append None first) rest) as (s' & E & I & Z).
  exists s'. split; [exact E|]. split; [exact I|].
  rewrite Z. cbn [ir_append ir_section_new section_size length]. lia.
Qed.
